(** * Chunked audio transcription: the segment plan and the orchestration loop

    A shallow embedding of [streamlit-app-chunking.py]: the byte-budget split
    of [split_audio_file], the per-segment [transcribe_segment], and the body
    of the "Transcrever" button handler with its single-shot path, its primary
    segment loop and its fallback loop.

    Conventions of the embedding.
    - Python [int] is [Z].  In the handler and its loops Python [float]
      values are taken as exact rationals ([Q]); every quotient the handler
      compares against a constant divides by [BYTES_PER_MB], a power of two,
      which is exact in binary floating point as well.  The arithmetic of the
      plan (lines 110-120) is also given in binary64, with the rounding of
      every quotient, and the formula of the plan is proved of that version.
    - Python [str] is a list of code points.
    - The collaborators (decoder, encoder, file system, remote service) are
      an environment record that answers each call; the widgets of the
      front-end are a trace of events. *)

From Stdlib Require Import String Ascii DecimalString DecimalPos DecimalZ ZArith QArith Qround
  Qpower List Bool Lia Lqa.
From Stdlib Require SpecFloat.
Import ListNotations.

Local Open Scope Z_scope.

(** ** Exceptions and results *)

(** The error categories of the remote transcription service. *)
Inductive remote_error : Type :=
| AuthError
| SizeRejected
| MalformedAudio
| TransientNetwork
| OtherRemoteError.

(** The Python exceptions (all subclasses of [Exception]) that the modelled
    code can see. *)
Inductive exn : Type :=
| ValueError
| ZeroDivisionError
| OverflowError
| OSError
| EncoderError
| DecoderError
| SetupError
| RemoteError (e : remote_error).

Inductive result (A : Type) : Type :=
| Ok (a : A)
| Raise (e : exn).

Arguments Ok {A} a.
Arguments Raise {A} e.

Definition rbind {A B : Type} (r : result A) (k : A -> result B) : result B :=
  match r with
  | Ok a => k a
  | Raise e => Raise e
  end.

(** ** Constants (lines 21-23) *)

Definition MAX_UPLOAD_SIZE_MB : Z := 200.
Definition MAX_SEGMENT_SIZE_MB : Z := 25.
Definition BYTES_PER_MB : Z := 1024 * 1024.

(** ** Python arithmetic *)

(** [a / b]: true division, [ZeroDivisionError] on a zero divisor. *)
Definition py_truediv (a b : Q) : result Q :=
  if Qeq_bool b 0 then Raise ZeroDivisionError else Ok (a / b)%Q.

(** [int(x)]: truncation toward zero. *)
Definition py_int (x : Q) : Z :=
  if Qle_bool 0 x then Qfloor x else Qceiling x.

(** [math.ceil(x)]. *)
Definition py_ceil (x : Q) : Z := Qceiling x.

(** [range(n)]. *)
Definition py_range (n : Z) : list Z :=
  map Z.of_nat (seq 0 (Z.to_nat n)).

(** ** The split plan of [split_audio_file] (lines 107-124) *)

Record SegmentSpec : Type := mkSegmentSpec {
  index : Z;
  start_ms : Z;
  end_ms : Z
}.

(** Lines 111 and 114: the segment length in milliseconds. *)
Definition segment_size_ms (budget_bytes : Z) (bytes_per_ms : Q)
    (duration_ms : Z) : result Z :=
  rbind (py_truediv (inject_Z budget_bytes) bytes_per_ms) (fun q =>
  Ok (Z.min (py_int q) duration_ms)).

(** Line 120: the number of segments. *)
Definition segments_count (duration_ms size_ms : Z) : result Z :=
  rbind (py_truediv (inject_Z duration_ms) (inject_Z size_ms)) (fun q =>
  Ok (py_ceil q)).

(** Lines 123-124: the time range of segment [i]. *)
Definition segment_spec (size_ms duration_ms i : Z) : SegmentSpec :=
  {| index := i;
     start_ms := i * size_ms;
     end_ms := Z.min ((i + 1) * size_ms) duration_ms |}.

(** Lines 122-124 without the export: the ranges in loop order. *)
Definition plan_ranges (size_ms duration_ms count : Z) : list SegmentSpec :=
  map (segment_spec size_ms duration_ms) (py_range count).

Definition split_plan (budget_bytes : Z) (bytes_per_ms : Q)
    (duration_ms : Z) : result (list SegmentSpec) :=
  rbind (segment_size_ms budget_bytes bytes_per_ms duration_ms) (fun size_ms =>
  rbind (segments_count duration_ms size_ms) (fun count =>
  Ok (plan_ranges size_ms duration_ms count))).

(** *** What the specification says of the plan *)

(** The segment length as the specification words it: the floor of the
    quotient, clamped above by the total duration and below by 1ms. *)
Definition spec_segment_duration (budget_bytes : Z) (bytes_per_ms : Q)
    (total_ms : Z) : Z :=
  Z.max 1 (Z.min (Qfloor (inject_Z budget_bytes / bytes_per_ms)) total_ms).

Definition spec_segment_count (total_ms duration_ms : Z) : Z :=
  Qceiling (inject_Z total_ms / inject_Z duration_ms).

(** A sequence of specs is a partition of [[0, total_ms)]: ordered by index,
    every range non-empty and inside the source, consecutive ranges meeting
    end to start, no two ranges sharing an instant, and every instant of the
    source in some range. *)
Record plan_ok (total_ms : Z) (specs : list SegmentSpec) : Prop := {
  plan_indexed :
    forall k s, nth_error specs k = Some s -> index s = Z.of_nat k;
  plan_ranges_valid :
    forall s, In s specs -> 0 <= start_ms s < end_ms s /\ end_ms s <= total_ms;
  plan_contiguous :
    forall k s t, nth_error specs k = Some s -> nth_error specs (S k) = Some t ->
      end_ms s = start_ms t;
  plan_disjoint :
    forall i j s t, nth_error specs i = Some s -> nth_error specs j = Some t ->
      (i < j)%nat -> end_ms s <= start_ms t;
  plan_covers :
    forall x, 0 <= x < total_ms <->
      exists s, In s specs /\ start_ms s <= x < end_ms s
}.

(** ** Python strings *)

(** A [str] is its sequence of code points. *)
Definition pystr : Type := list N.

Definition SPACE : N := 32%N.

(** [str.isspace] on one code point: the white-space set of CPython
    ([_PyUnicode_IsWhitespace]). *)
Definition isspace (c : N) : bool :=
  ((9 <=? c) && (c <=? 13) || (28 <=? c) && (c <=? 32)
   || (c =? 133) || (c =? 160) || (c =? 5760)
   || (8192 <=? c) && (c <=? 8202)
   || (c =? 8232) || (c =? 8233) || (c =? 8239) || (c =? 8287)
   || (c =? 12288))%N.

Fixpoint lstrip (s : pystr) : pystr :=
  match s with
  | [] => []
  | c :: s' => if isspace c then lstrip s' else s
  end.

Definition rstrip (s : pystr) : pystr := rev (lstrip (rev s)).

(** [s.strip()]. *)
Definition strip (s : pystr) : pystr := rstrip (lstrip s).

(** ** Collaborators and the trace of a run *)

(** The files a run touches: the saved upload, the segments exported by
    [split_audio_file] ([f"{file_path}_segment_{i}.wav"]) and the segments of
    the alternative method ([f"segment_{i}.wav"] in the temporary directory). *)
Inductive artifact : Type :=
| SourceFile
| PrimarySegment (i : Z)
| FallbackSegment (i : Z).

Inductive remote_result : Type :=
| RemoteOk (text : pystr)
| RemoteErr (e : remote_error).

Inductive decoder : Type :=
| ByFormat      (* AudioSegment.from_mp3 / from_wav / from_ogg *)
| ByProbe.      (* AudioSegment.from_file *)

(** What the collaborators answer during one run. *)
Record Env : Type := mkEnv {
  upload_size : Z;                     (* uploaded_file.size, also os.path.getsize *)
  upload_format : string;              (* the lower-cased extension *)
  setup_ok : bool;                     (* OpenAI(...), the temporary directory, the saved copy *)
  primary_duration : option Z;         (* len(audio) of line 108; None: the decoder raised *)
  fallback_duration : option Z;        (* len(sound) of line 244; None: the decoder raised *)
  export_ok : artifact -> bool;        (* segment.export *)
  open_ok : artifact -> bool;          (* open(path, "rb") *)
  remote : artifact -> remote_result;  (* client.audio.transcriptions.create *)
  remove_ok : artifact -> bool         (* os.remove *)
}.

Inductive message : Type :=
| MsgTooLarge
| MsgUnsupportedFormat
| MsgSegmentFailed (a : artifact) (e : remote_error)
| MsgSegmentsFailed (e : exn)
| MsgTryingAlternative
| MsgAlternativeFailed (e : exn)
| MsgRunFailed (e : exn).

Inductive status : Type :=
| Analysing
| SingleSegment
| Splitting
| SplitInto (total : Z)
| Transcribing (i total : Z)
| Finalising
| CreatingAlternative (i total : Z)
| TranscribingAlternative (i total : Z)
| Finished.

Inductive event : Type :=
| Progress (p : Q)                       (* progress_bar.progress(p) *)
| Status (s : status)                    (* status_text.text(...) *)
| ShowError (m : message)                (* st.error(...) *)
| ShowInfo (m : message)                 (* st.info(...) *)
| ShowResult (t : pystr)                 (* st.success, st.text_area, st.download_button *)
| Decode (d : decoder)
| Export (a : artifact) (from_ms to_ms : Z)
| RemoteCall (a : artifact)
| Remove (a : artifact) (deleted : bool)
| Sleep.

(** ** The monad of the handler: a result or an exit, and the events so far *)

Inductive outcome (A : Type) : Type :=
| Return (a : A)
| Raised (e : exn)
| Stopped.                               (* st.stop(): not an [Exception] *)

Arguments Return {A} a.
Arguments Raised {A} e.
Arguments Stopped {A}.

Definition M (A : Type) : Type := (outcome A * list event)%type.

Definition ret {A : Type} (a : A) : M A := (Return a, []).

Definition bind {A B : Type} (m : M A) (k : A -> M B) : M B :=
  match fst m with
  | Return a => (fst (k a), snd m ++ snd (k a))
  | Raised e => (Raised e, snd m)
  | Stopped => (Stopped, snd m)
  end.

Definition emit (ev : event) : M unit := (Return tt, [ev]).

Definition raise {A : Type} (e : exn) : M A := (Raised e, []).

Definition st_stop {A : Type} : M A := (Stopped, []).

Definition lift {A : Type} (r : result A) : M A :=
  match r with
  | Ok a => ret a
  | Raise e => raise e
  end.

(** [try: m except Exception as e: handler e]. *)
Definition try_except {A : Type} (m : M A) (handler : exn -> M A) : M A :=
  match fst m with
  | Raised e => (fst (handler e), snd m ++ snd (handler e))
  | _ => m
  end.

Declare Scope monad_scope.
Delimit Scope monad_scope with monad.
Notation "x <- m ;; k" := (bind m (fun x => k))
  (at level 61, m at next level, right associativity) : monad_scope.
Notation "m ;;; k" := (bind m (fun _ => k))
  (at level 61, right associativity) : monad_scope.
Local Open Scope monad_scope.

(** [for a in l: s = body a s]. *)
Fixpoint for_each {A S : Type} (body : A -> S -> M S) (l : list A) (s : S) : M S :=
  match l with
  | [] => ret s
  | a :: l' => s' <- body a s ;; for_each body l' s'
  end.

(** [enumerate(l)]. *)
Definition enumerate {A : Type} (l : list A) : list (Z * A) :=
  combine (py_range (Z.of_nat (List.length l))) l.

(** ** [split_audio_file] (lines 71-133) *)

Definition supported_formats : list string := ["mp3"; "wav"; "ogg"]%string.

Definition supported (fmt : string) : bool :=
  existsb (String.eqb fmt) supported_formats.

Definition export (env : Env) (a : artifact) (from_ms to_ms : Z) : M unit :=
  emit (Export a from_ms to_ms) ;;;
  if export_ok env a then ret tt else raise EncoderError.

Definition export_segment (env : Env) (s : SegmentSpec)
    (segment_paths : list artifact) : M (list artifact) :=
  export env (PrimarySegment (index s)) (start_ms s) (end_ms s) ;;;
  ret (segment_paths ++ [PrimarySegment (index s)]).

Definition split_audio_file (env : Env) (segment_size_mb : Z) : M (list artifact) :=
  if negb (supported (upload_format env)) then raise ValueError else
  emit (Decode ByFormat) ;;;
  match primary_duration env with
  | None => raise ValueError
  | Some duration_ms =>
      bytes_per_ms <- lift (py_truediv (inject_Z (upload_size env))
                                       (inject_Z duration_ms)) ;;
      specs <- lift (split_plan (segment_size_mb * BYTES_PER_MB)
                                bytes_per_ms duration_ms) ;;
      for_each (export_segment env) specs []
  end.

(** ** [transcribe_segment] (lines 136-158) *)

Definition transcribe_segment (env : Env) (segment_path : artifact) : M pystr :=
  if open_ok env segment_path then
    emit (RemoteCall segment_path) ;;;
    match remote env segment_path with
    | RemoteOk text => ret text
    | RemoteErr e => emit (ShowError (MsgSegmentFailed segment_path e)) ;;; ret []
    end
  else raise OSError.

(** [try: os.remove(path) except: pass]. *)
Definition remove (env : Env) (path : artifact) : M unit :=
  emit (Remove path (remove_ok env path)).

(** ** The handler of the button (lines 161-317) *)

(** Lines 220-232: one iteration of the primary loop. *)
Definition primary_body (env : Env) (total_segments : Z)
    (item : Z * artifact) (full_transcript : pystr) : M pystr :=
  let (i, segment_path) := item in
  q <- lift (py_truediv (inject_Z i) (inject_Z total_segments)) ;;
  emit (Progress ((1 # 10) + q * (8 # 10))) ;;;
  emit (Status (Transcribing (i + 1) total_segments)) ;;;
  segment_transcript <- transcribe_segment env segment_path ;;
  remove env segment_path ;;;
  ret (full_transcript ++ segment_transcript ++ [SPACE]).

(** Lines 213-236: the primary method. *)
Definition primary (env : Env) : M pystr :=
  segment_paths <- split_audio_file env MAX_SEGMENT_SIZE_MB ;;
  let total_segments := Z.of_nat (List.length segment_paths) in
  emit (Status (SplitInto total_segments)) ;;;
  full_transcript <-
    for_each (primary_body env total_segments) (enumerate segment_paths) [] ;;
  emit (Progress (9 # 10)) ;;;
  emit (Status Finalising) ;;;
  emit Sleep ;;;
  ret full_transcript.

Definition segment_length_ms : Z := 5 * 60 * 1000.

(** Lines 252-277: one iteration of the alternative loop. *)
Definition fallback_body (env : Env) (duration_ms count : Z)
    (i : Z) (full_transcript : pystr) : M pystr :=
  let s := segment_spec segment_length_ms duration_ms i in
  let temp_segment_path := FallbackSegment i in
  q <- lift (py_truediv (inject_Z i) (inject_Z count)) ;;
  emit (Progress ((1 # 10) + q * (4 # 10))) ;;;
  emit (Status (CreatingAlternative (i + 1) count)) ;;;
  export env temp_segment_path (start_ms s) (end_ms s) ;;;
  q' <- lift (py_truediv (inject_Z i) (inject_Z count)) ;;
  emit (Progress ((5 # 10) + q' * (4 # 10))) ;;;
  emit (Status (TranscribingAlternative (i + 1) count)) ;;;
  segment_transcript <- transcribe_segment env temp_segment_path ;;
  remove env temp_segment_path ;;;
  ret (full_transcript ++ segment_transcript ++ [SPACE]).

(** Lines 243-277: the alternative method. *)
Definition fallback (env : Env) : M pystr :=
  emit (Decode ByProbe) ;;;
  match fallback_duration env with
  | None => raise DecoderError
  | Some duration_ms =>
      count <- lift (segments_count duration_ms segment_length_ms) ;;
      for_each (fallback_body env duration_ms count) (py_range count) []
  end.

(** Lines 208-280: the multi-segment branch with its nested handlers. *)
Definition multi_segment (env : Env) : M pystr :=
  emit (Status Splitting) ;;;
  emit (Progress (1 # 10)) ;;;
  try_except (primary env) (fun e =>
    emit (ShowError (MsgSegmentsFailed e)) ;;;
    emit (ShowInfo MsgTryingAlternative) ;;;
    try_except (fallback env) (fun alt_err =>
      emit (ShowError (MsgAlternativeFailed alt_err)) ;;;
      st_stop)).

(** Lines 195-206: the single-shot branch. *)
Definition single_shot (env : Env) : M pystr :=
  emit (Status SingleSegment) ;;;
  emit (Progress (2 # 10)) ;;;
  (if open_ok env SourceFile then ret tt else raise OSError) ;;;
  emit (RemoteCall SourceFile) ;;;
  full_transcript <-
    match remote env SourceFile with
    | RemoteOk text => ret text
    | RemoteErr e => raise (RemoteError e)
    end ;;
  emit (Progress 1) ;;;
  ret full_transcript.

(** [a > b] on numbers. *)
Definition py_gt (a b : Q) : bool := negb (Qle_bool a b).

Definition file_size_mb (env : Env) : Q :=
  inject_Z (upload_size env) / inject_Z BYTES_PER_MB.

(** Lines 173-300: the body of the outer [try].  The temporary directory of
    line 178, which holds the saved upload and every segment and is deleted
    with what is left in it when its block is left, is part of [setup_ok];
    its deletion is not an event of the trace. *)
Definition transcribe_upload (env : Env) : M (option pystr) :=
  (if setup_ok env then ret tt else raise SetupError) ;;;
  emit (Status Analysing) ;;;
  if negb (supported (upload_format env)) then
    emit (ShowError MsgUnsupportedFormat) ;;; st_stop
  else
    full_transcript <-
      (if Qle_bool (file_size_mb env) (inject_Z MAX_SEGMENT_SIZE_MB)
       then single_shot env
       else multi_segment env) ;;
    let full_transcript := strip full_transcript in
    emit (Progress 1) ;;;
    emit (Status Finished) ;;;
    emit (ShowResult full_transcript) ;;;
    ret (Some full_transcript).

(** Lines 161-317: a click on "Transcrever" with a file uploaded.  The value
    is the transcript shown, or [None] when the outer handler reported an
    error; [Stopped] is an exit through [st.stop()].  The hints the outer
    handler adds after its error message (lines 304-317) depend on the text
    of the exception only and are left out. *)
Definition run (env : Env) : M (option pystr) :=
  if py_gt (file_size_mb env) (inject_Z MAX_UPLOAD_SIZE_MB) then
    emit (ShowError MsgTooLarge) ;;; st_stop
  else
    emit (Progress 0) ;;;
    try_except (transcribe_upload env) (fun e =>
      emit (ShowError (MsgRunFailed e)) ;;; ret None).

(** ** Observations on a run *)

(** The text a segment contributes: what the service transcribed, or the
    empty string when the call failed. *)
Definition fragment_text (r : remote_result) : pystr :=
  match r with
  | RemoteOk text => text
  | RemoteErr _ => []
  end.

Definition fragment_of (env : Env) (a : artifact) : pystr :=
  fragment_text (remote env a).

(** Every text followed by one space, in order. *)
Definition joined (texts : list pystr) : pystr :=
  concat (map (fun t => t ++ [SPACE]) texts).

Definition remote_calls (tr : list event) : list artifact :=
  flat_map (fun ev => match ev with RemoteCall a => [a] | _ => [] end) tr.

Definition progress_values (tr : list event) : list Q :=
  flat_map (fun ev => match ev with Progress p => [p] | _ => [] end) tr.

Definition is_segment_failure (ev : event) : bool :=
  match ev with
  | ShowError (MsgSegmentFailed _ _) => true
  | _ => false
  end.

Definition is_probe (ev : event) : bool :=
  match ev with
  | Decode ByProbe => true
  | _ => false
  end.

(** The number of times the alternative method was started. *)
Definition fallback_attempts (tr : list event) : nat :=
  List.length (filter is_probe tr).

(** The calls to collaborators, without the widget updates between them. *)
Definition is_call (ev : event) : bool :=
  match ev with
  | Decode _ | Export _ _ _ | RemoteCall _ | Remove _ _ | Sleep => true
  | _ => false
  end.

Definition calls (tr : list event) : list event := filter is_call tr.

(** In a sequence of calls, every remote call on a segment is followed at
    once by the removal of that segment. *)
Inductive cleaned_up : list event -> Prop :=
| cleaned_nil : cleaned_up []
| cleaned_attempt : forall a deleted tr,
    cleaned_up tr -> cleaned_up (RemoteCall a :: Remove a deleted :: tr)
| cleaned_source : forall tr,
    cleaned_up tr -> cleaned_up (RemoteCall SourceFile :: tr)
| cleaned_other : forall ev tr,
    (forall a, ev <> RemoteCall a) -> cleaned_up tr -> cleaned_up (ev :: tr).

Fixpoint nondecreasing (l : list Q) : bool :=
  match l with
  | [] => true
  | p :: l' =>
      match l' with
      | [] => true
      | p' :: _ => Qle_bool p p' && nondecreasing l'
      end
  end.

Definition in_unit_interval (p : Q) : bool := Qle_bool 0 p && Qle_bool p 1.

(** A text is blank when [strip] leaves nothing of it. *)
Definition blank (s : pystr) : bool := forallb isspace s.

(** The calls of a trace leave no transcribed segment behind. *)
Definition tidy (tr : list event) : Prop := cleaned_up (calls tr).

(** The events of a transcription attempt that returns, and the removal
    after it. *)
Definition attempt_events (env : Env) (a : artifact) : list event :=
  RemoteCall a
  :: match remote env a with
     | RemoteOk _ => []
     | RemoteErr e => [ShowError (MsgSegmentFailed a e)]
     end
  ++ [Remove a (remove_ok env a)].

Definition primary_events (env : Env) (total_segments : Z)
    (item : Z * artifact) : list event :=
  [ Progress ((1 # 10) + (inject_Z (fst item) / inject_Z total_segments) * (8 # 10));
    Status (Transcribing (fst item + 1) total_segments) ]
  ++ attempt_events env (snd item).

Definition fallback_events (env : Env) (duration_ms count i : Z) : list event :=
  [ Progress ((1 # 10) + (inject_Z i / inject_Z count) * (4 # 10));
    Status (CreatingAlternative (i + 1) count);
    Export (FallbackSegment i) (i * segment_length_ms)
           (Z.min ((i + 1) * segment_length_ms) duration_ms);
    Progress ((5 # 10) + (inject_Z i / inject_Z count) * (4 # 10));
    Status (TranscribingAlternative (i + 1) count) ]
  ++ attempt_events env (FallbackSegment i).

Definition removals (tr : list event) : list artifact :=
  flat_map (fun ev => match ev with Remove a _ => [a] | _ => [] end) tr.

Definition exports (tr : list event) : list artifact :=
  flat_map (fun ev => match ev with Export a _ _ => [a] | _ => [] end) tr.

(** The segments submitted by the method that ran last: the count starts
    over when the alternative method is announced. *)
Definition track (acc : list artifact) (ev : event) : list artifact :=
  match ev with
  | ShowInfo MsgTryingAlternative => []
  | RemoteCall a => acc ++ [a]
  | _ => acc
  end.

Definition transcribed (tr : list event) : list artifact := fold_left track tr [].

(** The segments of one method, in index order. *)
Definition index_ordered (segs : list artifact) : Prop :=
  segs = [SourceFile]
  \/ (exists n, segs = map PrimarySegment (py_range n))
  \/ (exists n, segs = map FallbackSegment (py_range n)).

(** A request that passes the pre-flight checks and is too large for one
    remote call. *)
Definition multi_segment_request (env : Env) : Prop :=
  setup_ok env = true
  /\ supported (upload_format env) = true
  /\ MAX_SEGMENT_SIZE_MB * BYTES_PER_MB < upload_size env
     <= MAX_UPLOAD_SIZE_MB * BYTES_PER_MB.

(** A trace without remote calls. *)
Definition silent (tr : list event) : Prop := remote_calls tr = [].

(** A trace in which no method is started over: tracking it only appends
    its remote calls. *)
Definition calm (tr : list event) : Prop :=
  forall acc, fold_left track tr acc = acc ++ remote_calls tr.

(** A trace in which the alternative method is not started. *)
Definition unprobed (tr : list event) : Prop := filter is_probe tr = [].

(** The segments whose failure was reported, in order. *)
Definition failed_segments (tr : list event) : list artifact :=
  flat_map (fun ev => match ev with
                      | ShowError (MsgSegmentFailed a _) => [a]
                      | _ => []
                      end) tr.

Definition is_primary_segment (a : artifact) : Prop :=
  match a with
  | PrimarySegment _ => True
  | _ => False
  end.

(** A trace that reports failures of primary segments only. *)
Definition primary_failures_only (tr : list event) : Prop :=
  Forall is_primary_segment (failed_segments tr).

(** The segments of the method that gets to transcribe all of them: those
    [split_audio_file] returned, all of which can be opened; or, the primary
    method having raised, the five-minute segments of the alternative method,
    all of which can be exported and opened. *)
Inductive final_method (env : Env) : list artifact -> Prop :=
| final_primary : forall paths,
    fst (split_audio_file env MAX_SEGMENT_SIZE_MB) = Return paths ->
    (forall a, In a paths -> open_ok env a = true) ->
    final_method env paths
| final_fallback : forall e d,
    fst (primary env) = Raised e ->
    fallback_duration env = Some d ->
    (forall i, 0 <= i < Qceiling (inject_Z d / inject_Z segment_length_ms) ->
       export_ok env (FallbackSegment i) = true
       /\ open_ok env (FallbackSegment i) = true) ->
    final_method env
      (map FallbackSegment
           (py_range (Qceiling (inject_Z d / inject_Z segment_length_ms)))).

(** The segments of a list that the service rejects. *)
Definition failing (env : Env) (segs : list artifact) : list artifact :=
  filter (fun a => match remote env a with
                   | RemoteErr _ => true
                   | RemoteOk _ => false
                   end) segs.

(** A trace that reports no segment failure. *)
Definition unfailing (tr : list event) : Prop := failed_segments tr = [].

(** The progress the primary loop reports at segment [i] of [total]. *)
Definition primary_progress (total i : Z) : Q :=
  (1 # 10) + (inject_Z i / inject_Z total) * (8 # 10).

(** Values that start at or above [lo], never go down, and end at or below
    [hi]. *)
Fixpoint ascending (lo : Q) (l : list Q) (hi : Q) : Prop :=
  match l with
  | [] => (lo <= hi)%Q
  | p :: l' => (lo <= p)%Q /\ ascending p l' hi
  end.

(** A trace that reports no progress. *)
Definition progressless (tr : list event) : Prop := progress_values tr = [].

(** ** Example environments *)

Definition text_hi : pystr := [104; 105]%N.
Definition text_yo : pystr := [121; 111]%N.

(** A 30,000,000-byte mp3 of 100 seconds; every collaborator succeeds and the
    service answers "hi" to everything. *)
Definition env_all_ok : Env := {|
  upload_size := 30000000;
  upload_format := "mp3"%string;
  setup_ok := true;
  primary_duration := Some 100000;
  fallback_duration := Some 100000;
  export_ok := fun _ => true;
  open_ok := fun _ => true;
  remote := fun _ => RemoteOk text_hi;
  remove_ok := fun _ => true
|}.

(** The first exported segment cannot be opened; the alternative method
    answers "yo". *)
Definition env_unreadable_segment : Env := {|
  upload_size := 30000000;
  upload_format := "mp3"%string;
  setup_ok := true;
  primary_duration := Some 100000;
  fallback_duration := Some 100000;
  export_ok := fun _ => true;
  open_ok := fun a => match a with PrimarySegment 0 => false | _ => true end;
  remote := fun a => match a with FallbackSegment _ => RemoteOk text_yo | _ => RemoteOk text_hi end;
  remove_ok := fun _ => true
|}.

(** The first segment is transcribed, the second cannot be opened; the
    alternative method answers "yo". *)
Definition env_unreadable_second : Env := {|
  upload_size := 30000000;
  upload_format := "mp3"%string;
  setup_ok := true;
  primary_duration := Some 100000;
  fallback_duration := Some 100000;
  export_ok := fun _ => true;
  open_ok := fun a => match a with PrimarySegment 1 => false | _ => true end;
  remote := fun a => match a with FallbackSegment _ => RemoteOk text_yo | _ => RemoteOk text_hi end;
  remove_ok := fun _ => true
|}.

(** The decoder of the primary method raises; the source lasts 400 seconds,
    two segments of the alternative method. *)
Definition env_fallback_two : Env := {|
  upload_size := 30000000;
  upload_format := "mp3"%string;
  setup_ok := true;
  primary_duration := None;
  fallback_duration := Some 400000;
  export_ok := fun _ => true;
  open_ok := fun _ => true;
  remote := fun _ => RemoteOk text_hi;
  remove_ok := fun _ => true
|}.

(** Both decoders raise. *)
Definition env_both_fail : Env := {|
  upload_size := 30000000;
  upload_format := "mp3"%string;
  setup_ok := true;
  primary_duration := None;
  fallback_duration := None;
  export_ok := fun _ => true;
  open_ok := fun _ => true;
  remote := fun _ => RemoteOk text_hi;
  remove_ok := fun _ => true
|}.

(** Two segments: the service rejects the first and answers one space to
    the second. *)
Definition env_one_failure_blank : Env := {|
  upload_size := 30000000;
  upload_format := "mp3"%string;
  setup_ok := true;
  primary_duration := Some 100000;
  fallback_duration := Some 100000;
  export_ok := fun _ => true;
  open_ok := fun _ => true;
  remote := fun a => match a with PrimarySegment 0 => RemoteErr TransientNetwork | _ => RemoteOk [SPACE] end;
  remove_ok := fun _ => true
|}.

(** Two segments: the service rejects the first and answers "hi" to the
    second. *)
Definition env_one_failure : Env := {|
  upload_size := 30000000;
  upload_format := "mp3"%string;
  setup_ok := true;
  primary_duration := Some 100000;
  fallback_duration := Some 100000;
  export_ok := fun _ => true;
  open_ok := fun _ => true;
  remote := fun a => match a with PrimarySegment 0 => RemoteErr TransientNetwork | _ => RemoteOk text_hi end;
  remove_ok := fun _ => true
|}.

(** An upload of a given size, small enough for one call when the size
    allows; everything succeeds. *)
Definition env_of_size (size : Z) : Env := {|
  upload_size := size;
  upload_format := "wav"%string;
  setup_ok := true;
  primary_duration := Some 100000;
  fallback_duration := Some 100000;
  export_ok := fun _ => true;
  open_ok := fun _ => true;
  remote := fun _ => RemoteOk text_hi;
  remove_ok := fun _ => true
|}.

(** One segment of the alternative method is rejected by the service, the
    other is transcribed; the primary decoder raised. *)
Definition env_fallback_one_failure : Env := {|
  upload_size := 30000000;
  upload_format := "mp3"%string;
  setup_ok := true;
  primary_duration := None;
  fallback_duration := Some 400000;
  export_ok := fun _ => true;
  open_ok := fun _ => true;
  remote := fun a => match a with FallbackSegment 1 => RemoteErr SizeRejected | _ => RemoteOk text_hi end;
  remove_ok := fun _ => true
|}.

(** The time ranges a trace exports, each with the index of its segment. *)
Definition exported_ranges (tr : list event) : list SegmentSpec :=
  flat_map (fun ev => match ev with
                      | Export (PrimarySegment i) from_ms to_ms
                      | Export (FallbackSegment i) from_ms to_ms =>
                          [mkSegmentSpec i from_ms to_ms]
                      | _ => []
                      end) tr.

(** Line 130, for the trace: the export of one planned range. *)
Definition export_event (s : SegmentSpec) : event :=
  Export (PrimarySegment (index s)) (start_ms s) (end_ms s).

(** A source of 30,000,000 bytes that the decoder reports as 1ms long. *)
Definition env_short_source : Env := {|
  upload_size := 30000000;
  upload_format := "mp3"%string;
  setup_ok := true;
  primary_duration := Some 1;
  fallback_duration := Some 1;
  export_ok := fun _ => true;
  open_ok := fun _ => true;
  remote := fun _ => RemoteOk text_hi;
  remove_ok := fun _ => true
|}.

(** The primary decoder raises and the other one reports an empty source. *)
Definition env_empty_fallback : Env := {|
  upload_size := 30000000;
  upload_format := "mp3"%string;
  setup_ok := true;
  primary_duration := None;
  fallback_duration := Some 0;
  export_ok := fun _ => true;
  open_ok := fun _ => true;
  remote := fun _ => RemoteOk text_hi;
  remove_ok := fun _ => true
|}.

(** The messages that close a run: the transcript, or the reason there is
    none. *)
Definition is_verdict (ev : event) : bool :=
  match ev with
  | ShowResult _ => true
  | ShowError MsgTooLarge => true
  | ShowError MsgUnsupportedFormat => true
  | ShowError (MsgAlternativeFailed _) => true
  | ShowError (MsgRunFailed _) => true
  | _ => false
  end.

(** A trace that closes nothing. *)
Definition unjudged (tr : list event) : Prop := filter is_verdict tr = [].

(** The verdict that goes with an outcome of the handler. *)
Definition verdict_of (o : outcome (option pystr)) (v : event) : Prop :=
  match o with
  | Return (Some t) => v = ShowResult t
  | Return None => exists e, v = ShowError (MsgRunFailed e)
  | Stopped =>
      v = ShowError MsgTooLarge
      \/ v = ShowError MsgUnsupportedFormat
      \/ exists e, v = ShowError (MsgAlternativeFailed e)
  | Raised _ => False
  end.

(** A small upload whose only remote call is rejected. *)
Definition env_small_rejected : Env := {|
  upload_size := 10 * 1048576;
  upload_format := "wav"%string;
  setup_ok := true;
  primary_duration := Some 100000;
  fallback_duration := Some 100000;
  export_ok := fun _ => true;
  open_ok := fun _ => true;
  remote := fun _ => RemoteErr AuthError;
  remove_ok := fun _ => true
|}.

(** A text with no white space at either end. *)
Definition edge_clean (s : pystr) : bool :=
  match s with
  | [] => true
  | c :: _ => negb (isspace c) && negb (isspace (last s SPACE))
  end.

(** [" ".join(texts)]. *)
Fixpoint join_with_space (texts : list pystr) : pystr :=
  match texts with
  | [] => []
  | t :: rest =>
      match rest with
      | [] => t
      | _ :: _ => t ++ SPACE :: join_with_space rest
      end
  end.

(** A trace whose progress values are all fractions between 0 and 1. *)
Definition bounded_progress (tr : list event) : Prop :=
  Forall (fun p => (0 <= p <= 1)%Q) (progress_values tr).

(** ** The names of the segment files *)

(** A path is its sequence of characters. *)
Definition path : Type := list Ascii.ascii.

Definition chars (s : string) : path := list_ascii_of_string s.

(** [str(i)] for an integer: decimal digits, a minus sign before them for a
    negative number. *)
Definition py_str_int (i : Z) : path :=
  chars (DecimalString.NilZero.string_of_int (Z.to_int i)).

(** Line 127: [f"{file_path}_segment_{i}.{safe_output_format}"], the format
    being "wav". *)
Definition segment_path (file_path : path) (i : Z) : path :=
  file_path ++ chars "_segment_" ++ py_str_int i ++ chars ".wav".

(** [os.path.join(a, b)] of [posixpath]. *)
Definition path_join (a b : path) : path :=
  match b with
  | "/"%char :: _ => b
  | _ =>
      match a with
      | [] => a ++ b
      | _ :: _ =>
          if Ascii.eqb (last a "/"%char) "/"%char then a ++ b
          else a ++ "/"%char :: b
      end
  end.

(** Line 256: [os.path.join(temp_dir, f"segment_{i}.wav")]. *)
Definition temp_segment_path (temp_dir : path) (i : Z) : path :=
  path_join temp_dir (chars "segment_" ++ py_str_int i ++ chars ".wav").

(** ** The format of a file name *)

(** [s.rfind(c)] for one character: the index of its last occurrence, or -1. *)
Fixpoint rfind (c : ascii) (s : path) : Z :=
  match s with
  | [] => -1
  | x :: s' =>
      let r := rfind c s' in
      if 0 <=? r then r + 1 else if Ascii.eqb x c then 0 else -1
  end.

(** [s.split(c)] for one character: the pieces between its occurrences. *)
Fixpoint split_on (c : ascii) (s : path) : list path :=
  match s with
  | [] => [[]]
  | x :: s' =>
      if Ascii.eqb x c then [] :: split_on c s'
      else match split_on c s' with
           | piece :: pieces => (x :: piece) :: pieces
           | [] => [[x]]
           end
  end.

(** [s.lower()] on the letters of ASCII; other characters are kept. *)
Definition lower_char (c : ascii) : ascii :=
  let n := nat_of_ascii c in
  if ((65 <=? n) && (n <=? 90))%nat then ascii_of_nat (n + 32) else c.

Definition lower (s : path) : path := map lower_char s.

(** [os.path.splitext(p)] of [posixpath]: the extension starts at the last
    dot, when that dot comes after the last slash and after a character of
    the file name that is not a dot. *)
Definition splitext (p : path) : path * path :=
  let sepIndex := rfind "/"%char p in
  let dotIndex := rfind "."%char p in
  if (sepIndex <? dotIndex)
     && existsb (fun k => negb (Ascii.eqb (nth (Z.to_nat k) p "."%char) "."%char))
                (map (fun k => sepIndex + 1 + k) (py_range (dotIndex - sepIndex - 1)))
  then (firstn (Z.to_nat dotIndex) p, skipn (Z.to_nat dotIndex) p)
  else (p, []).

(** Line 83: [file_path.split(".")[-1].lower()]. *)
Definition format_by_split (file_path : path) : path :=
  lower (last (split_on "."%char file_path) []).

(** Line 187: [os.path.splitext(temp_file_path)[1].lower()[1:]]. *)
Definition format_by_splitext (temp_file_path : path) : path :=
  skipn 1 (lower (snd (splitext temp_file_path))).

(** Lines 86-87 and 188-189: [file_format in supported_formats]. *)
Definition supported_path (fmt : path) : bool :=
  supported (string_of_list_ascii fmt).

(** The artifacts that are segments, not the upload itself. *)
Definition is_segment (a : artifact) : bool :=
  match a with
  | SourceFile => false
  | PrimarySegment _ | FallbackSegment _ => true
  end.

(** The events around which the loops are built: the remote call, the
    removal, and the report of a failed segment. *)
Definition is_attempt_event (ev : event) : bool :=
  match ev with
  | RemoteCall _ | Remove _ _ | ShowError (MsgSegmentFailed _ _) => true
  | _ => false
  end.


(** A trace that stays at or below nine tenths. *)
Definition below_full (tr : list event) : Prop :=
  Forall (fun p => (p <= 9 # 10)%Q) (progress_values tr).

(** ** Binary floating point *)

(** The [float] of CPython is IEEE 754 binary64: 53 bits of precision, the
    least positive number [2^-1074], every number below [2^1024], and
    rounding to nearest with ties to even. *)
Definition PRECISION : Z := 53.
Definition EMIN : Z := -1074.
Definition EMAX : Z := 1024.

(** A [float] by its value.  The operations below give no meaning to the sign
    of a zero: the code divides by a zero only to raise. *)
Inductive float64 : Type :=
| Finite (q : Q)
| Infinite (negative : bool)
| NaN.

(** The exponent [e] with [2^e <= x < 2^(e+1)], for a positive [x]. *)
Definition binade (x : Q) : Z :=
  let e := Z.log2 (Qnum x) - Z.log2 (Zpos (Qden x)) in
  if Qle_bool (2 ^ e) x then e else e - 1.

(** The integer nearest to [x], the even one of two that are as near. *)
Definition nearest_even (x : Q) : Z :=
  let f := Qfloor x in
  match (x - inject_Z f ?= 1 # 2)%Q with
  | Lt => f
  | Gt => f + 1
  | Eq => if Z.even f then f else f + 1
  end.

(** The multiple of [2^e] nearest to a positive [x], where [2^e] is the
    spacing of binary64 numbers around [x]. *)
Definition round_positive (x : Q) : Q :=
  let e := Z.max (binade x - (PRECISION - 1)) EMIN in
  Qred (inject_Z (nearest_even (x / 2 ^ e)) * 2 ^ e).

(** Rounding of an exact result to binary64. *)
Definition binary64 (x : Q) : float64 :=
  match (x ?= 0)%Q with
  | Eq => Finite 0
  | Gt => let y := round_positive x in
          if Qle_bool (2 ^ EMAX) y then Infinite false else Finite y
  | Lt => let y := round_positive (- x) in
          if Qle_bool (2 ^ EMAX) y then Infinite true else Finite (- y)
  end.

(** [a / b] on two [int]: the quotient correctly rounded, [OverflowError]
    when it is out of range. *)
Definition int_truediv (a b : Z) : result float64 :=
  if b =? 0 then Raise ZeroDivisionError else
  match binary64 (inject_Z a / inject_Z b) with
  | Infinite _ => Raise OverflowError
  | x => Ok x
  end.

(** [float(a)] on an [int], as in [a / x] for a [float] [x]. *)
Definition float_of_int (a : Z) : result float64 :=
  match binary64 (inject_Z a) with
  | Infinite _ => Raise OverflowError
  | x => Ok x
  end.

Definition is_zero (x : float64) : bool :=
  match x with
  | Finite q => Qeq_bool q 0
  | _ => false
  end.

Definition is_negative (x : float64) : bool :=
  match x with
  | Finite q => negb (Qle_bool 0 q)
  | Infinite negative => negative
  | NaN => false
  end.

(** [x / y] on two [float]: [ZeroDivisionError] on a zero divisor, an
    infinity when the quotient is out of range. *)
Definition float_truediv (x y : float64) : result float64 :=
  if is_zero y then Raise ZeroDivisionError else
  Ok match x, y with
     | Finite a, Finite b => binary64 (a / b)
     | Finite _, Infinite _ => Finite 0
     | Infinite negative, Finite _ => Infinite (xorb negative (is_negative y))
     | _, _ => NaN
     end.

(** [int(x)] on a [float]. *)
Definition float_int (x : float64) : result Z :=
  match x with
  | Finite q => Ok (py_int q)
  | Infinite _ => Raise OverflowError
  | NaN => Raise ValueError
  end.

(** [math.ceil(x)] on a [float]. *)
Definition float_ceil (x : float64) : result Z :=
  match x with
  | Finite q => Ok (Qceiling q)
  | Infinite _ => Raise OverflowError
  | NaN => Raise ValueError
  end.

(** *** Lines 110-124 in binary64 *)

(** Line 110: [os.path.getsize(file_path) / duration_ms]. *)
Definition bytes_per_ms_binary64 (file_size duration_ms : Z) : result float64 :=
  int_truediv file_size duration_ms.

(** Lines 111 and 114. *)
Definition segment_size_ms_binary64 (budget_bytes : Z) (bytes_per_ms : float64)
    (duration_ms : Z) : result Z :=
  rbind (float_of_int budget_bytes) (fun budget =>
  rbind (float_truediv budget bytes_per_ms) (fun q =>
  rbind (float_int q) (fun size_ms =>
  Ok (Z.min size_ms duration_ms)))).

(** Line 120. *)
Definition segments_count_binary64 (duration_ms size_ms : Z) : result Z :=
  rbind (int_truediv duration_ms size_ms) float_ceil.

(** Lines 111-124 without the export. *)
Definition split_plan_binary64 (budget_bytes : Z) (bytes_per_ms : float64)
    (duration_ms : Z) : result (list SegmentSpec) :=
  rbind (segment_size_ms_binary64 budget_bytes bytes_per_ms duration_ms)
    (fun size_ms =>
  rbind (segments_count_binary64 duration_ms size_ms) (fun count =>
  Ok (plan_ranges size_ms duration_ms count))).

(** Lines 110-124 without the export, from the size of the file and the
    duration of the audio. *)
Definition file_plan_binary64 (budget_bytes file_size duration_ms : Z)
    : result (list SegmentSpec) :=
  rbind (bytes_per_ms_binary64 file_size duration_ms) (fun bytes_per_ms =>
  split_plan_binary64 budget_bytes bytes_per_ms duration_ms).

(** The value of a number of the Standard Library's specification of IEEE
    754, to compare the rounding above with. *)
Definition value_of_spec_float (x : SpecFloat.spec_float) : float64 :=
  match x with
  | SpecFloat.S754_zero _ => Finite 0
  | SpecFloat.S754_infinity s => Infinite s
  | SpecFloat.S754_nan => NaN
  | SpecFloat.S754_finite s m e =>
      Finite (Qred (inject_Z (if s then Z.neg m else Z.pos m) * 2 ^ e))
  end.

Definition spec_float_of_int (a : Z) : SpecFloat.spec_float :=
  SpecFloat.binary_normalize PRECISION EMAX a 0 false.

Definition spec_float_div (x y : SpecFloat.spec_float) : SpecFloat.spec_float :=
  SpecFloat.SFdiv PRECISION EMAX x y.

(** The segments a run is to transcribe: the upload itself when it fits one
    call; the paths [split_audio_file] returned when the primary method
    returns; and, the primary method having raised, the segments of five
    minutes of the alternative method, as many as line 248 counts. *)
Inductive segments_of_run (env : Env) : list artifact -> Prop :=
| whole_upload :
    upload_size env <= MAX_SEGMENT_SIZE_MB * BYTES_PER_MB ->
    segments_of_run env [SourceFile]
| split_segments : forall paths full,
    MAX_SEGMENT_SIZE_MB * BYTES_PER_MB < upload_size env ->
    fst (split_audio_file env MAX_SEGMENT_SIZE_MB) = Return paths ->
    fst (primary env) = Return full ->
    segments_of_run env paths
| five_minute_segments : forall e d,
    MAX_SEGMENT_SIZE_MB * BYTES_PER_MB < upload_size env ->
    fst (primary env) = Raised e ->
    fallback_duration env = Some d ->
    segments_of_run env
      (map FallbackSegment
           (py_range (Qceiling (inject_Z d / inject_Z segment_length_ms)))).

(** The time ranges of the segments of the alternative method that a trace
    exports, each with the index of its segment. *)
Definition alternative_ranges (tr : list event) : list SegmentSpec :=
  flat_map (fun ev => match ev with
                      | Export (FallbackSegment i) from_ms to_ms =>
                          [mkSegmentSpec i from_ms to_ms]
                      | _ => []
                      end) tr.

(** A trace that exports no segment of the alternative method. *)
Definition unexported (tr : list event) : Prop := alternative_ranges tr = [].

(** ** Arithmetic of the plan *)

Lemma py_truediv_ok (a b : Q) :
  ~ (b == 0)%Q -> py_truediv a b = Ok (a / b)%Q.
Proof.
  intros Hb. unfold py_truediv.
  destruct (Qeq_bool b 0) eqn:E; [|reflexivity].
  apply Qeq_bool_iff in E. contradiction.
Qed.

Lemma py_int_nonneg (x : Q) : (0 <= x)%Q -> py_int x = Qfloor x.
Proof.
  intros Hx. unfold py_int. apply Qle_bool_iff in Hx. now rewrite Hx.
Qed.

Lemma inject_Z_nonzero (z : Z) : z <> 0 -> ~ (inject_Z z == 0)%Q.
Proof.
  intros Hz H. apply Hz. unfold Qeq in H. simpl in H. lia.
Qed.

Lemma Qceiling_div (a b : Z) :
  Qceiling (inject_Z a / inject_Z b) = - ((- a) / b).
Proof.
  unfold Qceiling. f_equal. rewrite Zdiv_Qdiv.
  apply Qfloor_comp. rewrite inject_Z_opp. unfold Qdiv. ring.
Qed.

(** The ceiling of a quotient of integers, as two integer inequalities. *)
Lemma Qceiling_div_bounds (a b : Z) :
  0 < b ->
  (Qceiling (inject_Z a / inject_Z b) - 1) * b < a
  /\ a <= Qceiling (inject_Z a / inject_Z b) * b.
Proof.
  intros Hb. rewrite Qceiling_div.
  pose proof (Z.div_mod (- a) b ltac:(lia)) as Hdm.
  pose proof (Z.mod_pos_bound (- a) b Hb) as Hm.
  nia.
Qed.

Lemma segments_count_ok (duration_ms size_ms : Z) :
  0 < size_ms ->
  segments_count duration_ms size_ms
  = Ok (Qceiling (inject_Z duration_ms / inject_Z size_ms)).
Proof.
  intros Hs. unfold segments_count.
  rewrite py_truediv_ok by (apply inject_Z_nonzero; lia). reflexivity.
Qed.

Lemma segments_count_zero (duration_ms : Z) :
  segments_count duration_ms 0 = Raise ZeroDivisionError.
Proof. reflexivity. Qed.

Lemma segment_size_ms_ok (budget : Z) (bytes_per_ms : Q) (duration_ms : Z) :
  (0 < bytes_per_ms)%Q ->
  0 <= budget ->
  segment_size_ms budget bytes_per_ms duration_ms
  = Ok (Z.min (Qfloor (inject_Z budget / bytes_per_ms)) duration_ms).
Proof.
  intros Hb Hbud. unfold segment_size_ms.
  rewrite py_truediv_ok.
  - simpl. rewrite py_int_nonneg; [reflexivity|].
    apply Qle_shift_div_l; [exact Hb|].
    rewrite Qmult_0_l. change (inject_Z 0 <= inject_Z budget)%Q.
    rewrite <- Zle_Qle. exact Hbud.
  - intros H. rewrite H in Hb. discriminate.
Qed.

Lemma Qfloor_quotient_ge_1 (budget : Z) (bytes_per_ms : Q) :
  (0 < bytes_per_ms)%Q ->
  (bytes_per_ms <= inject_Z budget)%Q ->
  1 <= Qfloor (inject_Z budget / bytes_per_ms).
Proof.
  intros Hb Hle.
  change 1 with (Qfloor (inject_Z 1)) at 1.
  apply Qfloor_resp_le.
  apply Qle_shift_div_l; [exact Hb|].
  now rewrite Qmult_1_l.
Qed.

(** ** The ranges of a plan *)

Lemma in_py_range (n i : Z) : In i (py_range n) <-> 0 <= i < n.
Proof.
  unfold py_range. rewrite in_map_iff. split.
  - intros [k [<- Hk]]. apply in_seq in Hk. lia.
  - intros Hi. exists (Z.to_nat i). split; [lia|]. apply in_seq. lia.
Qed.

Lemma nth_error_py_range (n : Z) (k : nat) (i : Z) :
  nth_error (py_range n) k = Some i -> i = Z.of_nat k /\ Z.of_nat k < n.
Proof.
  unfold py_range. intros H.
  rewrite nth_error_map in H.
  destruct (nth_error (seq 0 (Z.to_nat n)) k) as [j|] eqn:E; [|discriminate].
  injection H as <-.
  assert (Hk : (k < List.length (seq 0 (Z.to_nat n)))%nat)
    by (apply nth_error_Some; congruence).
  rewrite length_seq in Hk.
  rewrite nth_error_nth' with (d := 0%nat) in E by (rewrite length_seq; exact Hk).
  rewrite seq_nth in E by exact Hk. injection E as <-. lia.
Qed.

Lemma nth_error_plan_ranges (size_ms duration_ms count : Z) (k : nat) (s : SegmentSpec) :
  nth_error (plan_ranges size_ms duration_ms count) k = Some s ->
  s = segment_spec size_ms duration_ms (Z.of_nat k) /\ Z.of_nat k < count.
Proof.
  unfold plan_ranges. intros H. rewrite nth_error_map in H.
  destruct (nth_error (py_range count) k) as [i|] eqn:E; [|discriminate].
  injection H as <-. apply nth_error_py_range in E as [-> Hlt]. now split.
Qed.

Lemma in_plan_ranges (size_ms duration_ms count : Z) (s : SegmentSpec) :
  In s (plan_ranges size_ms duration_ms count) <->
  exists i, 0 <= i < count /\ s = segment_spec size_ms duration_ms i.
Proof.
  unfold plan_ranges. rewrite in_map_iff. split.
  - intros [i [<- Hi]]. exists i. split; [now apply in_py_range|reflexivity].
  - intros [i [Hi ->]]. exists i. split; [reflexivity|now apply in_py_range].
Qed.

(** Ranges of a fixed positive length, as many as the duration needs, are a
    partition of the source. *)
Lemma plan_ranges_ok (size_ms duration_ms count : Z) :
  0 < size_ms ->
  (count - 1) * size_ms < duration_ms <= count * size_ms ->
  plan_ok duration_ms (plan_ranges size_ms duration_ms count).
Proof.
  intros Hs [Hlo Hhi]. constructor.
  - intros k s H. apply nth_error_plan_ranges in H as [-> _]. reflexivity.
  - intros s H. apply in_plan_ranges in H as [i [Hi ->]]. cbn [segment_spec start_ms end_ms index].
    assert (i * size_ms <= (count - 1) * size_ms) by nia.
    assert (0 <= i * size_ms) by nia.
    assert (i * size_ms < (i + 1) * size_ms) by nia.
    lia.
  - intros k s t Hk HSk.
    apply nth_error_plan_ranges in Hk as [-> Hk].
    apply nth_error_plan_ranges in HSk as [-> HSk]. cbn [segment_spec start_ms end_ms index].
    rewrite Nat2Z.inj_succ in *.
    assert ((Z.of_nat k + 1) * size_ms <= (count - 1) * size_ms) by nia.
    lia.
  - intros i j s t Hi Hj Hij.
    apply nth_error_plan_ranges in Hi as [-> Hi].
    apply nth_error_plan_ranges in Hj as [-> Hj]. cbn [segment_spec start_ms end_ms index].
    assert ((Z.of_nat i + 1) * size_ms <= Z.of_nat j * size_ms) by nia.
    lia.
  - intros x. split.
    + intros Hx. exists (segment_spec size_ms duration_ms (x / size_ms)).
      pose proof (Z.div_mod x size_ms ltac:(lia)) as Hdm.
      pose proof (Z.mod_pos_bound x size_ms Hs) as Hm.
      assert (0 <= x / size_ms) by (apply Z.div_pos; lia).
      split.
      * apply in_plan_ranges. exists (x / size_ms). split; [nia|reflexivity].
      * cbn [segment_spec start_ms end_ms index]. assert (x < (x / size_ms + 1) * size_ms) by nia.
        assert (x / size_ms * size_ms <= x) by nia. lia.
    + intros [s [H Hx]]. apply in_plan_ranges in H as [i [Hi ->]].
      cbn [segment_spec start_ms end_ms index] in Hx. assert (0 <= i * size_ms) by nia. lia.
Qed.

(** With at least one millisecond per segment the plan is the one of the
    specification. *)
Lemma split_plan_eq (budget : Z) (bytes_per_ms : Q) (total_ms : Z) :
  0 < total_ms ->
  (0 < bytes_per_ms)%Q ->
  (bytes_per_ms <= inject_Z budget)%Q ->
  let d := Z.min (Qfloor (inject_Z budget / bytes_per_ms)) total_ms in
  1 <= d
  /\ segment_size_ms budget bytes_per_ms total_ms = Ok d
  /\ segments_count total_ms d = Ok (Qceiling (inject_Z total_ms / inject_Z d))
  /\ split_plan budget bytes_per_ms total_ms
     = Ok (plan_ranges d total_ms (Qceiling (inject_Z total_ms / inject_Z d))).
Proof.
  intros Ht Hb Hle d.
  assert (Hbud : 0 <= budget).
  { rewrite Zle_Qle. apply Qlt_le_weak. eapply Qlt_le_trans; eauto. }
  pose proof (Qfloor_quotient_ge_1 budget bytes_per_ms Hb Hle) as Hq.
  assert (Hd : 1 <= d) by (unfold d; lia).
  assert (Hsize : segment_size_ms budget bytes_per_ms total_ms = Ok d)
    by (apply segment_size_ms_ok; assumption).
  assert (Hcount : segments_count total_ms d
                   = Ok (Qceiling (inject_Z total_ms / inject_Z d)))
    by (apply segments_count_ok; lia).
  repeat split; try assumption.
  unfold split_plan. rewrite Hsize. cbn [rbind]. rewrite Hcount. reflexivity.
Qed.

(** C2, as the code has it: for a positive duration, a positive budget and a
    positive bytes-per-millisecond ratio that does not exceed the budget, the
    plan exists and its ranges are ordered by index, non-empty, contiguous,
    pairwise disjoint, and cover exactly the instants of the source. *)
Theorem split_plan_partition (budget : Z) (bytes_per_ms : Q) (total_ms : Z) :
  0 < total_ms ->
  (0 < bytes_per_ms)%Q ->
  0 < budget ->
  (bytes_per_ms <= inject_Z budget)%Q ->
  exists specs,
    split_plan budget bytes_per_ms total_ms = Ok specs
    /\ plan_ok total_ms specs.
Proof.
  intros Ht Hb _ Hle.
  destruct (split_plan_eq budget bytes_per_ms total_ms Ht Hb Hle)
    as (Hd & _ & _ & Hplan).
  eexists. split; [exact Hplan|].
  apply plan_ranges_ok; [lia|].
  apply Qceiling_div_bounds. lia.
Qed.

Lemma split_plan_partition_witness :
  exists specs,
    split_plan 25000000 (1000 # 1) 100000 = Ok specs
    /\ plan_ok 100000 specs.
Proof.
  apply (split_plan_partition 25000000 (1000 # 1) 100000).
  - lia.
  - reflexivity.
  - lia.
  - unfold Qle; simpl; lia.
Defined.

(** C2 as stated fails: all three inputs positive, and the plan is a
    [ZeroDivisionError] instead of a sequence of ranges. *)
Lemma split_plan_raises_on_valid_input :
  0 < 1
  /\ (0 < 30000000 # 1)%Q
  /\ 0 < MAX_SEGMENT_SIZE_MB * BYTES_PER_MB
  /\ split_plan (MAX_SEGMENT_SIZE_MB * BYTES_PER_MB) (30000000 # 1) 1
     = Raise ZeroDivisionError
  /\ ~ exists specs,
         split_plan (MAX_SEGMENT_SIZE_MB * BYTES_PER_MB) (30000000 # 1) 1 = Ok specs
         /\ plan_ok 1 specs.
Proof.
  repeat split.
  intros [specs [H _]]. discriminate H.
Qed.

(** The example of the specification: 100,000ms at 1000 bytes/ms under a
    budget of 25,000,000 bytes. *)
Example split_plan_example :
  split_plan 25000000 (1000 # 1) 100000
  = Ok [ {| index := 0; start_ms := 0; end_ms := 25000 |};
         {| index := 1; start_ms := 25000; end_ms := 50000 |};
         {| index := 2; start_ms := 50000; end_ms := 75000 |};
         {| index := 3; start_ms := 75000; end_ms := 100000 |} ].
Proof. reflexivity. Qed.

(** Without a lower clamp the segment length is 0 and the count is a division
    by zero: [split_audio_file] raises and the handler turns to the
    alternative method. *)
Lemma split_plan_raises (budget : Z) (bytes_per_ms : Q) (total_ms : Z) :
  0 < total_ms ->
  0 <= budget ->
  (inject_Z budget < bytes_per_ms)%Q ->
  segment_size_ms budget bytes_per_ms total_ms = Ok 0
  /\ split_plan budget bytes_per_ms total_ms = Raise ZeroDivisionError.
Proof.
  intros Ht Hbud Hlt.
  assert (Hb : (0 < bytes_per_ms)%Q).
  { apply Qle_lt_trans with (inject_Z budget); [|exact Hlt].
    change 0%Q with (inject_Z 0). rewrite <- Zle_Qle. exact Hbud. }
  assert (Hfloor : Qfloor (inject_Z budget / bytes_per_ms) = 0).
  { assert (H0 : (0 <= inject_Z budget / bytes_per_ms)%Q).
    { apply Qle_shift_div_l; [exact Hb|]. rewrite Qmult_0_l.
      change 0%Q with (inject_Z 0). rewrite <- Zle_Qle. exact Hbud. }
    assert (H1 : (inject_Z budget / bytes_per_ms < 1)%Q).
    { apply Qlt_shift_div_r; [exact Hb|]. now rewrite Qmult_1_l. }
    pose proof (Qfloor_le (inject_Z budget / bytes_per_ms)) as Hle.
    pose proof (Qfloor_resp_le _ _ H0) as Hge. change (Qfloor 0) with 0 in Hge.
    assert (Hlt1 : (inject_Z (Qfloor (inject_Z budget / bytes_per_ms)) < inject_Z 1)%Q)
      by (eapply Qle_lt_trans; [exact Hle|exact H1]).
    rewrite <- Zlt_Qlt in Hlt1. lia. }
  assert (Hsize : segment_size_ms budget bytes_per_ms total_ms = Ok 0).
  { rewrite segment_size_ms_ok by assumption. rewrite Hfloor. f_equal. lia. }
  split; [exact Hsize|].
  unfold split_plan. rewrite Hsize. cbn [rbind].
  now rewrite segments_count_zero.
Qed.

(** ** The monad *)

Lemma bind_Raised {A B : Type} (m : M A) (k : A -> M B) (e : exn) :
  fst m = Raised e -> bind m k = (Raised e, snd m).
Proof. intros H. unfold bind. now rewrite H. Qed.

Lemma bind_Stopped {A B : Type} (m : M A) (k : A -> M B) :
  fst m = Stopped -> bind m k = (Stopped, snd m).
Proof. intros H. unfold bind. now rewrite H. Qed.

Lemma bind_emit {B : Type} (ev : event) (k : unit -> M B) :
  bind (emit ev) k = (fst (k tt), ev :: snd (k tt)).
Proof. reflexivity. Qed.

Lemma bind_ret {A B : Type} (a : A) (k : A -> M B) :
  bind (ret a) k = k a.
Proof. unfold bind, ret. simpl. now destruct (k a). Qed.

Lemma bind_pair {A B : Type} (a : A) (tr : list event) (k : A -> M B) :
  bind (Return a, tr) k = (fst (k a), tr ++ snd (k a)).
Proof. reflexivity. Qed.

(** A loop whose iterations all return: the state is folded and the traces
    are concatenated. *)
Lemma for_each_returns {A S : Type} (body : A -> S -> M S)
    (f : A -> S -> S) (tr : A -> list event) (l : list A) :
  (forall a s, In a l -> body a s = (Return (f a s), tr a)) ->
  forall s, for_each body l s
            = (Return (fold_left (fun s a => f a s) l s), concat (map tr l)).
Proof.
  induction l as [|a l IH]; intros Hbody s.
  - reflexivity.
  - cbn [for_each fold_left map concat].
    rewrite (Hbody a s (or_introl eq_refl)), bind_pair.
    rewrite IH by (intros; apply Hbody; now right). reflexivity.
Qed.

(** Properties of traces that hold of the empty trace and of concatenations
    go through the combinators. *)
Section TraceProperty.

Variable P : list event -> Prop.
Hypothesis P_nil : P [].
Hypothesis P_app : forall t1 t2, P t1 -> P t2 -> P (t1 ++ t2).

Lemma P_lift {A : Type} (r : result A) : P (snd (lift r)).
Proof. destruct r; exact P_nil. Qed.

Lemma P_bind {A B : Type} (m : M A) (k : A -> M B) :
  P (snd m) -> (forall a, P (snd (k a))) -> P (snd (bind m k)).
Proof.
  intros Hm Hk. unfold bind.
  destruct (fst m) as [a| |]; cbn [snd]; auto.
Qed.

Lemma P_try_except {A : Type} (m : M A) (h : exn -> M A) :
  P (snd m) -> (forall e, P (snd (h e))) -> P (snd (try_except m h)).
Proof.
  intros Hm Hh. unfold try_except.
  destruct (fst m) as [a|e|]; cbn [snd]; auto.
Qed.

Lemma P_for_each {A S : Type} (body : A -> S -> M S) (l : list A) :
  (forall a s, P (snd (body a s))) ->
  forall s, P (snd (for_each body l s)).
Proof.
  intros Hbody. induction l as [|a l IH]; intros s; cbn [for_each].
  - exact P_nil.
  - apply P_bind; auto.
Qed.

End TraceProperty.

(** ** Removal after every attempt *)

Lemma calls_app (t1 t2 : list event) : calls (t1 ++ t2) = calls t1 ++ calls t2.
Proof. apply filter_app. Qed.

Lemma cleaned_up_app (t1 t2 : list event) :
  cleaned_up t1 -> cleaned_up t2 -> cleaned_up (t1 ++ t2).
Proof.
  intros H1 H2. induction H1; cbn [app].
  - exact H2.
  - now apply cleaned_attempt.
  - now apply cleaned_source.
  - now apply cleaned_other.
Qed.

Lemma tidy_nil : tidy [].
Proof. constructor. Qed.

Lemma tidy_app (t1 t2 : list event) : tidy t1 -> tidy t2 -> tidy (t1 ++ t2).
Proof. unfold tidy. rewrite calls_app. apply cleaned_up_app. Qed.

(** A trace step by step through the combinators; [leaf] closes the goals
    on single events. *)
Ltac walk_trace Pnil Papp leaf :=
  repeat match goal with
  | |- _ (snd (bind _ _)) => apply (P_bind _ Papp); [ | intro ]
  | |- _ (snd (try_except _ _)) => apply (P_try_except _ Papp); [ | intro ]
  | |- _ (snd (for_each _ _ _)) => apply (P_for_each _ Pnil Papp); intros
  | |- _ (snd (lift _)) => apply (P_lift _ Pnil)
  | |- _ (snd (ret _)) => exact Pnil
  | |- _ (snd (raise _)) => exact Pnil
  | |- _ (snd st_stop) => exact Pnil
  | |- _ (snd (if ?b then _ else _)) => destruct b
  | |- _ (snd (match ?x with _ => _ end)) => destruct x
  | |- _ (snd (emit _)) => leaf
  end.

Ltac tidy_leaf :=
  unfold tidy; cbn [emit snd calls filter is_call];
  repeat first [ apply cleaned_nil | apply cleaned_source
               | apply cleaned_other; [intros ? ?; discriminate|] ].

(** The attempt and the removal after it, whatever the service answers. *)
Lemma transcribe_then_remove_trace {A : Type} (env : Env) (a : artifact)
    (k : pystr -> A) :
  open_ok env a = true ->
  (segment_transcript <- transcribe_segment env a ;;
   remove env a ;;;
   ret (k segment_transcript))
  = (Return (k (fragment_of env a)), attempt_events env a).
Proof.
  intros Hopen. unfold transcribe_segment, fragment_of, attempt_events, remove.
  rewrite Hopen. destruct (remote env a); reflexivity.
Qed.

Lemma transcribe_then_remove_raises {A : Type} (env : Env) (a : artifact)
    (k : pystr -> A) :
  open_ok env a = false ->
  (segment_transcript <- transcribe_segment env a ;;
   remove env a ;;;
   ret (k segment_transcript))
  = (Raised OSError, []).
Proof.
  intros Hopen. unfold transcribe_segment. now rewrite Hopen.
Qed.

Lemma tidy_attempt_events (env : Env) (a : artifact) :
  tidy (attempt_events env a).
Proof.
  unfold tidy, attempt_events.
  destruct (remote env a); cbn; apply cleaned_attempt; constructor.
Qed.

Lemma tidy_transcribe_then_remove {A : Type} (env : Env) (a : artifact)
    (k : pystr -> A) :
  tidy (snd (segment_transcript <- transcribe_segment env a ;;
             remove env a ;;;
             ret (k segment_transcript))).
Proof.
  destruct (open_ok env a) eqn:Hopen.
  - rewrite transcribe_then_remove_trace by exact Hopen.
    apply tidy_attempt_events.
  - rewrite transcribe_then_remove_raises by exact Hopen. apply tidy_nil.
Qed.

Lemma tidy_export (env : Env) (a : artifact) (from_ms to_ms : Z) :
  tidy (snd (export env a from_ms to_ms)).
Proof.
  unfold export. walk_trace tidy_nil tidy_app tidy_leaf.
Qed.

Lemma tidy_primary_body (env : Env) (total : Z) (item : Z * artifact) (full : pystr) :
  tidy (snd (primary_body env total item full)).
Proof.
  destruct item as [i a]. unfold primary_body.
  apply (P_bind _ tidy_app); [apply (P_lift _ tidy_nil)|intro].
  apply (P_bind _ tidy_app); [tidy_leaf|intro].
  apply (P_bind _ tidy_app); [tidy_leaf|intro].
  apply tidy_transcribe_then_remove.
Qed.

Lemma tidy_fallback_body (env : Env) (d count i : Z) (full : pystr) :
  tidy (snd (fallback_body env d count i full)).
Proof.
  unfold fallback_body. cbv zeta.
  apply (P_bind _ tidy_app); [apply (P_lift _ tidy_nil)|intro].
  apply (P_bind _ tidy_app); [tidy_leaf|intro].
  apply (P_bind _ tidy_app); [tidy_leaf|intro].
  apply (P_bind _ tidy_app); [apply tidy_export|intro].
  apply (P_bind _ tidy_app); [apply (P_lift _ tidy_nil)|intro].
  apply (P_bind _ tidy_app); [tidy_leaf|intro].
  apply (P_bind _ tidy_app); [tidy_leaf|intro].
  apply tidy_transcribe_then_remove.
Qed.

Lemma tidy_split_audio_file (env : Env) (mb : Z) :
  tidy (snd (split_audio_file env mb)).
Proof.
  unfold split_audio_file.
  walk_trace tidy_nil tidy_app tidy_leaf.
  unfold export_segment.
  apply (P_bind _ tidy_app); [apply tidy_export|intro; apply tidy_nil].
Qed.

Lemma tidy_primary (env : Env) : tidy (snd (primary env)).
Proof.
  unfold primary.
  apply (P_bind _ tidy_app); [apply tidy_split_audio_file|intro].
  apply (P_bind _ tidy_app); [tidy_leaf|intro].
  apply (P_bind _ tidy_app);
    [apply (P_for_each _ tidy_nil tidy_app); intros; apply tidy_primary_body|intro].
  walk_trace tidy_nil tidy_app tidy_leaf.
Qed.

Lemma tidy_fallback (env : Env) : tidy (snd (fallback env)).
Proof.
  unfold fallback.
  apply (P_bind _ tidy_app); [tidy_leaf|intro].
  destruct (fallback_duration env); [|apply tidy_nil].
  apply (P_bind _ tidy_app); [apply (P_lift _ tidy_nil)|intro].
  apply (P_for_each _ tidy_nil tidy_app); intros; apply tidy_fallback_body.
Qed.

Lemma tidy_single_shot (env : Env) : tidy (snd (single_shot env)).
Proof.
  unfold single_shot. walk_trace tidy_nil tidy_app tidy_leaf.
Qed.

Lemma tidy_multi_segment (env : Env) : tidy (snd (multi_segment env)).
Proof.
  unfold multi_segment.
  do 2 (apply (P_bind _ tidy_app); [tidy_leaf|intro]).
  apply (P_try_except _ tidy_app); [apply tidy_primary|intro].
  do 2 (apply (P_bind _ tidy_app); [tidy_leaf|intro]).
  apply (P_try_except _ tidy_app); [apply tidy_fallback|intro].
  walk_trace tidy_nil tidy_app tidy_leaf.
Qed.

(** C9, as the code has it: in every run, every remote call on a segment is
    followed, with no other collaborator call in between, by [os.remove] on
    that segment's artifact, whether the remote call succeeded or failed.
    (The removal is the statement after the attempt, not a [finally]: an
    iteration left by an exception makes no remote call and no removal.) *)
Theorem removal_follows_every_attempt (env : Env) :
  cleaned_up (calls (snd (run env))).
Proof.
  change (tidy (snd (run env))). unfold run.
  destruct (py_gt _ _); [walk_trace tidy_nil tidy_app tidy_leaf|].
  apply (P_bind _ tidy_app); [tidy_leaf|intro].
  apply (P_try_except _ tidy_app); [|intro; walk_trace tidy_nil tidy_app tidy_leaf].
  unfold transcribe_upload.
  apply (P_bind _ tidy_app); [walk_trace tidy_nil tidy_app tidy_leaf|intro].
  apply (P_bind _ tidy_app); [tidy_leaf|intro].
  destruct (negb _); [walk_trace tidy_nil tidy_app tidy_leaf|].
  apply (P_bind _ tidy_app); [|intro; walk_trace tidy_nil tidy_app tidy_leaf].
  destruct (Qle_bool _ _); [apply tidy_single_shot|apply tidy_multi_segment].
Qed.

(** C9 as stated fails: the first of two exported segments cannot be opened,
    the iteration is left by the exception, and the run completes through
    the alternative method without either primary artifact ever being
    removed by the loop. *)
Lemma unreadable_segment_is_not_removed :
  exports (snd (run env_unreadable_segment))
  = [PrimarySegment 0; PrimarySegment 1; FallbackSegment 0]
  /\ In (Status (Transcribing 1 2)) (snd (run env_unreadable_segment))
  /\ removals (snd (run env_unreadable_segment)) = [FallbackSegment 0]
  /\ fst (run env_unreadable_segment) = Return (Some text_yo).
Proof.
  vm_compute. repeat split. do 9 right. now left.
Qed.

(** ** The iterations of the two loops *)

Lemma primary_body_eq (env : Env) (total i : Z) (a : artifact) (full : pystr) :
  primary_body env total (i, a) full
  = if Qeq_bool (inject_Z total) 0 then (Raised ZeroDivisionError, [])
    else if open_ok env a
    then (Return (full ++ fragment_of env a ++ [SPACE]),
          primary_events env total (i, a))
    else (Raised OSError,
          [ Progress ((1 # 10) + (inject_Z i / inject_Z total) * (8 # 10));
            Status (Transcribing (i + 1) total) ]).
Proof.
  unfold primary_body, py_truediv.
  destruct (Qeq_bool (inject_Z total) 0); [reflexivity|].
  cbn [lift]. rewrite bind_ret, !bind_emit.
  destruct (open_ok env a) eqn:Hopen.
  - rewrite transcribe_then_remove_trace by exact Hopen. reflexivity.
  - rewrite transcribe_then_remove_raises by exact Hopen. reflexivity.
Qed.

Lemma fallback_body_eq (env : Env) (d count i : Z) (full : pystr) :
  fallback_body env d count i full
  = if Qeq_bool (inject_Z count) 0 then (Raised ZeroDivisionError, [])
    else if export_ok env (FallbackSegment i)
    then if open_ok env (FallbackSegment i)
         then (Return (full ++ fragment_of env (FallbackSegment i) ++ [SPACE]),
               fallback_events env d count i)
         else (Raised OSError,
               firstn 5 (fallback_events env d count i))
    else (Raised EncoderError, firstn 3 (fallback_events env d count i)).
Proof.
  unfold fallback_body, py_truediv, export. cbv zeta.
  destruct (Qeq_bool (inject_Z count) 0); [reflexivity|].
  cbn [lift]. rewrite bind_ret, !bind_emit.
  destruct (export_ok env (FallbackSegment i)); [|reflexivity].
  rewrite !bind_ret, !bind_emit.
  destruct (open_ok env (FallbackSegment i)) eqn:Hopen.
  - rewrite transcribe_then_remove_trace by exact Hopen. reflexivity.
  - rewrite transcribe_then_remove_raises by exact Hopen. reflexivity.
Qed.

(** An iteration that returns has appended its fragment and a space, and
    left the events of a whole iteration. *)
Lemma primary_body_inv (env : Env) (total : Z) (item : Z * artifact)
    (full t : pystr) :
  fst (primary_body env total item full) = Return t ->
  primary_body env total item full
  = (Return (full ++ fragment_of env (snd item) ++ [SPACE]),
     primary_events env total item).
Proof.
  destruct item as [i a]. rewrite primary_body_eq.
  destruct (Qeq_bool _ _); [discriminate|].
  destruct (open_ok env a); [reflexivity|discriminate].
Qed.

Lemma fallback_body_inv (env : Env) (d count i : Z) (full t : pystr) :
  fst (fallback_body env d count i full) = Return t ->
  fallback_body env d count i full
  = (Return (full ++ fragment_of env (FallbackSegment i) ++ [SPACE]),
     fallback_events env d count i).
Proof.
  rewrite fallback_body_eq.
  destruct (Qeq_bool _ _); [discriminate|].
  destruct (export_ok env _); [|discriminate].
  destruct (open_ok env _); [reflexivity|discriminate].
Qed.

(** A loop that returns: every iteration returned. *)
Lemma for_each_inv {A S : Type} (body : A -> S -> M S)
    (f : A -> S -> S) (tr : A -> list event) (l : list A) :
  (forall a s t, In a l -> fst (body a s) = Return t ->
                 body a s = (Return (f a s), tr a)) ->
  forall s t, fst (for_each body l s) = Return t ->
    for_each body l s
    = (Return (fold_left (fun s a => f a s) l s), concat (map tr l)).
Proof.
  induction l as [|a l IH]; intros Hbody s t Hret.
  - reflexivity.
  - cbn [for_each fold_left map concat] in *.
    destruct (fst (body a s)) as [s'| |] eqn:Ha.
    + rewrite (Hbody a s s' (or_introl eq_refl) Ha) in *.
      rewrite bind_pair in *. cbn [fst] in Hret.
      rewrite (IH (fun a0 s0 t0 H => Hbody a0 s0 t0 (or_intror H)) _ t Hret).
      reflexivity.
    + rewrite (bind_Raised _ _ _ Ha) in Hret. discriminate.
    + rewrite (bind_Stopped _ _ Ha) in Hret. discriminate.
Qed.

Lemma fold_fragments {A : Type} (g : A -> pystr) (l : list A) (s : pystr) :
  fold_left (fun s a => s ++ g a ++ [SPACE]) l s = s ++ joined (map g l).
Proof.
  revert s. induction l as [|a l IH]; intros s; cbn [fold_left map].
  - unfold joined. cbn. now rewrite app_nil_r.
  - rewrite IH. unfold joined. cbn [map concat]. now rewrite <- !app_assoc.
Qed.

Lemma length_py_range (n : Z) : List.length (py_range n) = Z.to_nat n.
Proof. unfold py_range. now rewrite length_map, length_seq. Qed.

Lemma map_snd_combine {A B : Type} (l1 : list A) (l2 : list B) :
  List.length l1 = List.length l2 -> map snd (combine l1 l2) = l2.
Proof.
  revert l2. induction l1 as [|a l1 IH]; intros [|b l2] H; cbn in *;
    try reflexivity; try discriminate.
  f_equal. apply IH. lia.
Qed.

Lemma map_snd_enumerate {A : Type} (l : list A) : map snd (enumerate l) = l.
Proof.
  unfold enumerate. apply map_snd_combine.
  rewrite length_py_range. lia.
Qed.

Lemma in_enumerate {A : Type} (l : list A) (i : Z) (a : A) :
  In (i, a) (enumerate l) -> In a l /\ 0 <= i < Z.of_nat (List.length l).
Proof.
  unfold enumerate. intros H. split.
  - eapply in_combine_r; eassumption.
  - apply in_combine_l in H. now apply in_py_range in H.
Qed.

Lemma remote_calls_app (t1 t2 : list event) :
  remote_calls (t1 ++ t2) = remote_calls t1 ++ remote_calls t2.
Proof. apply flat_map_app. Qed.

Lemma remote_calls_attempt (env : Env) (a : artifact) :
  remote_calls (attempt_events env a) = [a].
Proof. unfold attempt_events. now destruct (remote env a). Qed.

Lemma remote_calls_primary_events (env : Env) (total : Z) (l : list (Z * artifact)) :
  remote_calls (concat (map (primary_events env total) l)) = map snd l.
Proof.
  induction l as [|[i a] l IH]; [reflexivity|].
  cbn [map concat]. rewrite remote_calls_app, IH.
  unfold primary_events. cbn [app remote_calls flat_map].
  change (flat_map _ (attempt_events env (snd (i, a))))
    with (remote_calls (attempt_events env a)).
  now rewrite remote_calls_attempt.
Qed.

Lemma remote_calls_fallback_events (env : Env) (d count : Z) (l : list Z) :
  remote_calls (concat (map (fallback_events env d count) l))
  = map FallbackSegment l.
Proof.
  induction l as [|i l IH]; [reflexivity|].
  cbn [map concat]. rewrite remote_calls_app, IH.
  unfold fallback_events. cbn [app remote_calls flat_map].
  change (flat_map _ (attempt_events env (FallbackSegment i)))
    with (remote_calls (attempt_events env (FallbackSegment i))).
  now rewrite remote_calls_attempt.
Qed.

(** The primary loop, when it returns. *)
Lemma primary_loop_inv (env : Env) (paths : list artifact) (t : pystr) :
  let total := Z.of_nat (List.length paths) in
  fst (for_each (primary_body env total) (enumerate paths) []) = Return t ->
  for_each (primary_body env total) (enumerate paths) []
  = (Return (joined (map (fragment_of env) paths)),
     concat (map (primary_events env total) (enumerate paths))).
Proof.
  intros total Hret.
  rewrite (for_each_inv (primary_body env total)
             (fun item s => s ++ fragment_of env (snd item) ++ [SPACE])
             (primary_events env total) _
             (fun item s t _ H => primary_body_inv env total item s t H)
             _ _ Hret).
  rewrite (fold_fragments (fun item => fragment_of env (snd item))).
  cbn [app]. rewrite <- (map_map snd (fragment_of env)), map_snd_enumerate.
  reflexivity.
Qed.

(** The alternative loop, when it returns. *)
Lemma fallback_loop_inv (env : Env) (d count : Z) (t : pystr) :
  fst (for_each (fallback_body env d count) (py_range count) []) = Return t ->
  for_each (fallback_body env d count) (py_range count) []
  = (Return (joined (map (fun i => fragment_of env (FallbackSegment i))
                         (py_range count))),
     concat (map (fallback_events env d count) (py_range count))).
Proof.
  intros Hret.
  rewrite (for_each_inv (fallback_body env d count)
             (fun i s => s ++ fragment_of env (FallbackSegment i) ++ [SPACE])
             (fallback_events env d count) _
             (fun i s t _ H => fallback_body_inv env d count i s t H)
             _ _ Hret).
  rewrite (fold_fragments (fun i => fragment_of env (FallbackSegment i))).
  reflexivity.
Qed.

(** ** The shape of a run *)

Lemma single_shot_eq (env : Env) :
  single_shot env
  = if open_ok env SourceFile
    then match remote env SourceFile with
         | RemoteOk text =>
             (Return text,
              [Status SingleSegment; Progress (2 # 10); RemoteCall SourceFile;
               Progress 1])
         | RemoteErr e =>
             (Raised (RemoteError e),
              [Status SingleSegment; Progress (2 # 10); RemoteCall SourceFile])
         end
    else (Raised OSError, [Status SingleSegment; Progress (2 # 10)]).
Proof.
  unfold single_shot.
  destruct (open_ok env SourceFile); [|reflexivity].
  destruct (remote env SourceFile); reflexivity.
Qed.

Lemma fallback_count (d : Z) :
  segments_count d segment_length_ms
  = Ok (Qceiling (inject_Z d / inject_Z segment_length_ms)).
Proof. apply segments_count_ok. reflexivity. Qed.

Lemma fallback_eq (env : Env) :
  fallback env
  = match fallback_duration env with
    | None => (Raised DecoderError, [Decode ByProbe])
    | Some d =>
        let count := Qceiling (inject_Z d / inject_Z segment_length_ms) in
        let loop := for_each (fallback_body env d count) (py_range count) [] in
        (fst loop, Decode ByProbe :: snd loop)
    end.
Proof.
  unfold fallback. destruct (fallback_duration env) as [d|]; [|reflexivity].
  rewrite fallback_count. cbn [lift]. rewrite bind_emit, bind_ret. reflexivity.
Qed.

Lemma primary_eq (env : Env) :
  primary env
  = match fst (split_audio_file env MAX_SEGMENT_SIZE_MB) with
    | Return paths =>
        let total := Z.of_nat (List.length paths) in
        let loop := for_each (primary_body env total) (enumerate paths) [] in
        match fst loop with
        | Return full =>
            (Return full,
             snd (split_audio_file env MAX_SEGMENT_SIZE_MB)
             ++ Status (SplitInto total) :: snd loop
             ++ [Progress (9 # 10); Status Finalising; Sleep])
        | Raised e =>
            (Raised e,
             snd (split_audio_file env MAX_SEGMENT_SIZE_MB)
             ++ Status (SplitInto total) :: snd loop)
        | Stopped =>
            (Stopped,
             snd (split_audio_file env MAX_SEGMENT_SIZE_MB)
             ++ Status (SplitInto total) :: snd loop)
        end
    | Raised e => (Raised e, snd (split_audio_file env MAX_SEGMENT_SIZE_MB))
    | Stopped => (Stopped, snd (split_audio_file env MAX_SEGMENT_SIZE_MB))
    end.
Proof.
  unfold primary.
  destruct (split_audio_file env MAX_SEGMENT_SIZE_MB) as [[paths|e|] tr];
    try reflexivity.
  rewrite bind_pair, bind_emit. cbn [fst snd].
  destruct (for_each _ _ _) as [[full|e|] tr']; reflexivity.
Qed.

Lemma multi_segment_eq (env : Env) :
  multi_segment env
  = match fst (primary env) with
    | Return full =>
        (Return full, Status Splitting :: Progress (1 # 10) :: snd (primary env))
    | Stopped =>
        (Stopped, Status Splitting :: Progress (1 # 10) :: snd (primary env))
    | Raised e =>
        let before :=
          Status Splitting :: Progress (1 # 10) :: snd (primary env)
          ++ [ShowError (MsgSegmentsFailed e); ShowInfo MsgTryingAlternative] in
        match fst (fallback env) with
        | Return full => (Return full, before ++ snd (fallback env))
        | Raised alt_err =>
            (Stopped,
             before ++ snd (fallback env)
             ++ [ShowError (MsgAlternativeFailed alt_err)])
        | Stopped => (Stopped, before ++ snd (fallback env))
        end
    end.
Proof.
  unfold multi_segment. rewrite !bind_emit. cbn [fst snd].
  destruct (primary env) as [[full|e|] tr]; try reflexivity.
  unfold try_except at 1. cbn [fst snd]. rewrite !bind_emit. cbn [fst snd].
  destruct (fallback env) as [[full|e'|] tr']; cbn;
    rewrite <- ?app_assoc; reflexivity.
Qed.

Lemma run_eq (env : Env) :
  run env
  = if py_gt (file_size_mb env) (inject_Z MAX_UPLOAD_SIZE_MB)
    then (Stopped, [ShowError MsgTooLarge])
    else if setup_ok env
    then if supported (upload_format env)
         then
           let branch :=
             if Qle_bool (file_size_mb env) (inject_Z MAX_SEGMENT_SIZE_MB)
             then single_shot env else multi_segment env in
           match fst branch with
           | Return full =>
               (Return (Some (strip full)),
                Progress 0 :: Status Analysing :: snd branch
                ++ [Progress 1; Status Finished; ShowResult (strip full)])
           | Raised e =>
               (Return None,
                Progress 0 :: Status Analysing :: snd branch
                ++ [ShowError (MsgRunFailed e)])
           | Stopped =>
               (Stopped, Progress 0 :: Status Analysing :: snd branch)
           end
         else (Stopped,
               [Progress 0; Status Analysing; ShowError MsgUnsupportedFormat])
    else (Return None, [Progress 0; ShowError (MsgRunFailed SetupError)]).
Proof.
  unfold run, transcribe_upload.
  destruct (py_gt _ _); [reflexivity|].
  destruct (setup_ok env); [|reflexivity].
  destruct (supported (upload_format env)); [|reflexivity].
  cbn [negb]. cbv zeta.
  destruct (if Qle_bool _ _ then _ else _) as [[full|e|] tr]; cbn;
    rewrite ?app_nil_r; reflexivity.
Qed.

(** *** The thresholds of the two size tests *)

Lemma oversize_iff (env : Env) :
  py_gt (file_size_mb env) (inject_Z MAX_UPLOAD_SIZE_MB) = true
  <-> MAX_UPLOAD_SIZE_MB * BYTES_PER_MB < upload_size env.
Proof.
  unfold py_gt. rewrite negb_true_iff, <- not_true_iff_false, Qle_bool_iff.
  unfold file_size_mb, Qle, Qdiv, Qmult, Qinv, inject_Z,
    MAX_UPLOAD_SIZE_MB, BYTES_PER_MB.
  cbn [Qnum Qden]. cbn. lia.
Qed.

Lemma single_shot_iff (env : Env) :
  Qle_bool (file_size_mb env) (inject_Z MAX_SEGMENT_SIZE_MB) = true
  <-> upload_size env <= MAX_SEGMENT_SIZE_MB * BYTES_PER_MB.
Proof.
  rewrite Qle_bool_iff.
  unfold file_size_mb, Qle, Qdiv, Qmult, Qinv, inject_Z,
    MAX_SEGMENT_SIZE_MB, BYTES_PER_MB.
  cbn [Qnum Qden]. cbn. lia.
Qed.

Lemma run_multi_segment (env : Env) :
  multi_segment_request env ->
  run env
  = match fst (multi_segment env) with
    | Return full =>
        (Return (Some (strip full)),
         Progress 0 :: Status Analysing :: snd (multi_segment env)
         ++ [Progress 1; Status Finished; ShowResult (strip full)])
    | Raised e =>
        (Return None,
         Progress 0 :: Status Analysing :: snd (multi_segment env)
         ++ [ShowError (MsgRunFailed e)])
    | Stopped =>
        (Stopped, Progress 0 :: Status Analysing :: snd (multi_segment env))
    end.
Proof.
  intros (Hsetup & Hfmt & Hlo & Hhi). rewrite run_eq.
  destruct (py_gt _ _) eqn:Egt; [apply oversize_iff in Egt; lia|].
  rewrite Hsetup, Hfmt.
  destruct (Qle_bool _ _) eqn:Ele; [apply single_shot_iff in Ele; lia|].
  reflexivity.
Qed.

(** C8: an upload of exactly the segment budget is transcribed in one call,
    with no split; an upload of exactly the ceiling passes the size check and
    the run starts; one byte more and the run is stopped with the oversize
    message before anything else happens. *)
Theorem size_boundaries (env : Env) :
  (upload_size env = MAX_SEGMENT_SIZE_MB * BYTES_PER_MB ->
   setup_ok env = true ->
   supported (upload_format env) = true ->
   In (Status SingleSegment) (snd (run env))
   /\ ~ In (Status Splitting) (snd (run env))
   /\ exports (snd (run env)) = []
   /\ incl (remote_calls (snd (run env))) [SourceFile])
  /\ (upload_size env = MAX_UPLOAD_SIZE_MB * BYTES_PER_MB ->
      run env <> (Stopped, [ShowError MsgTooLarge])
      /\ exists tr, snd (run env) = Progress 0 :: tr)
  /\ (upload_size env = MAX_UPLOAD_SIZE_MB * BYTES_PER_MB + 1 ->
      run env = (Stopped, [ShowError MsgTooLarge])).
Proof.
  split; [|split].
  - intros Hsize Hsetup Hfmt. rewrite run_eq.
    destruct (py_gt _ _) eqn:Egt;
      [apply oversize_iff in Egt; rewrite Hsize in Egt; discriminate|].
    assert (Ele : Qle_bool (file_size_mb env) (inject_Z MAX_SEGMENT_SIZE_MB) = true)
      by (apply single_shot_iff; rewrite Hsize; apply Z.le_refl).
    rewrite Hsetup, Hfmt, Ele. cbv zeta. rewrite single_shot_eq.
    destruct (open_ok env SourceFile); [destruct (remote env SourceFile)|];
      cbn; (split; [tauto|]; split;
            [intros H; repeat (destruct H as [H|H]; try discriminate); exact H|];
            split; [reflexivity|];
            intros a H; repeat (destruct H as [H|H]; [now left|]);
            try contradiction).
  - intros Hsize. split.
    + intros Heq.
      assert (Egt : py_gt (file_size_mb env) (inject_Z MAX_UPLOAD_SIZE_MB) = true).
      { rewrite run_eq in Heq. destruct (py_gt _ _); [reflexivity|].
        destruct (setup_ok env); [|discriminate].
        destruct (supported _); [|discriminate].
        cbv zeta in Heq.
        match type of Heq with
        | context [match fst ?b with _ => _ end] => destruct (fst b)
        end; discriminate. }
      apply oversize_iff in Egt. rewrite Hsize in Egt. lia.
    + rewrite run_eq.
      destruct (py_gt _ _) eqn:Egt;
        [apply oversize_iff in Egt; rewrite Hsize in Egt; lia|].
      destruct (setup_ok env); [|eexists; reflexivity].
      destruct (supported _); [|eexists; reflexivity].
      cbv zeta.
      match goal with
      | |- context [match fst ?b with _ => _ end] => destruct (fst b)
      end; eexists; reflexivity.
  - intros Hsize. rewrite run_eq.
    assert (Egt : py_gt (file_size_mb env) (inject_Z MAX_UPLOAD_SIZE_MB) = true)
      by (apply oversize_iff; rewrite Hsize; lia).
    now rewrite Egt.
Qed.

Lemma size_boundaries_witness :
  (In (Status SingleSegment) (snd (run (env_of_size (25 * 1048576))))
   /\ ~ In (Status Splitting) (snd (run (env_of_size (25 * 1048576))))
   /\ exports (snd (run (env_of_size (25 * 1048576)))) = []
   /\ incl (remote_calls (snd (run (env_of_size (25 * 1048576))))) [SourceFile])
  /\ (run (env_of_size (200 * 1048576)) <> (Stopped, [ShowError MsgTooLarge])
      /\ exists tr, snd (run (env_of_size (200 * 1048576))) = Progress 0 :: tr)
  /\ run (env_of_size (200 * 1048576 + 1)) = (Stopped, [ShowError MsgTooLarge]).
Proof.
  split; [|split].
  - apply (size_boundaries (env_of_size (25 * 1048576))); reflexivity.
  - apply (size_boundaries (env_of_size (200 * 1048576))); reflexivity.
  - apply (size_boundaries (env_of_size (200 * 1048576 + 1))); reflexivity.
Defined.

(** ** The artifacts of the split *)

Lemma export_segment_inv (env : Env) (s : SegmentSpec) (acc t : list artifact) :
  fst (export_segment env s acc) = Return t ->
  export_segment env s acc
  = (Return (acc ++ [PrimarySegment (index s)]),
     [Export (PrimarySegment (index s)) (start_ms s) (end_ms s)]).
Proof.
  unfold export_segment, export.
  destruct (export_ok env _); [reflexivity|discriminate].
Qed.

Lemma fold_snoc {A B : Type} (g : A -> B) (l : list A) (acc : list B) :
  fold_left (fun acc a => acc ++ [g a]) l acc = acc ++ map g l.
Proof.
  revert acc. induction l as [|a l IH]; intros acc; cbn [fold_left map].
  - now rewrite app_nil_r.
  - rewrite IH. now rewrite <- app_assoc.
Qed.

Lemma split_plan_indices (budget : Z) (bytes_per_ms : Q) (d : Z)
    (specs : list SegmentSpec) :
  split_plan budget bytes_per_ms d = Ok specs ->
  exists n, map index specs = py_range n.
Proof.
  unfold split_plan. intros H.
  destruct (segment_size_ms budget bytes_per_ms d) as [size|]; [|discriminate].
  cbn [rbind] in H.
  destruct (segments_count d size) as [count|]; [|discriminate].
  injection H as <-. exists count.
  unfold plan_ranges. rewrite map_map. cbn [index segment_spec]. apply map_id.
Qed.

(** The paths [split_audio_file] returns are the primary segments in index
    order. *)
Lemma split_audio_file_inv (env : Env) (mb : Z) (paths : list artifact) :
  fst (split_audio_file env mb) = Return paths ->
  exists n, paths = map PrimarySegment (py_range n).
Proof.
  unfold split_audio_file.
  destruct (negb _); [discriminate|].
  rewrite bind_emit. cbn [fst].
  destruct (primary_duration env) as [d|]; [|discriminate].
  destruct (py_truediv _ _) as [bpm|]; [|discriminate].
  cbn [lift]. rewrite bind_ret.
  destruct (split_plan _ bpm d) as [specs|] eqn:Hplan; [|discriminate].
  cbn [lift]. rewrite bind_ret. intros Hret.
  rewrite (for_each_inv (export_segment env)
             (fun s acc => acc ++ [PrimarySegment (index s)])
             (fun s => [Export (PrimarySegment (index s)) (start_ms s) (end_ms s)])
             specs
             (fun s acc t _ H => export_segment_inv env s acc t H)
             _ _ Hret) in Hret.
  cbn [fst] in Hret. injection Hret as <-.
  rewrite (fold_snoc (fun s => PrimarySegment (index s))). cbn [app].
  destruct (split_plan_indices _ _ _ _ Hplan) as [n Hn].
  exists n. now rewrite <- Hn, map_map.
Qed.

(** ** Traces without remote calls, traces without a restart *)

Lemma silent_nil : silent [].
Proof. reflexivity. Qed.

Lemma silent_app (t1 t2 : list event) : silent t1 -> silent t2 -> silent (t1 ++ t2).
Proof. unfold silent. intros H1 H2. now rewrite remote_calls_app, H1, H2. Qed.

Lemma silent_split_audio_file (env : Env) (mb : Z) :
  silent (snd (split_audio_file env mb)).
Proof.
  unfold split_audio_file, export_segment, export.
  walk_trace silent_nil silent_app ltac:(reflexivity).
Qed.

Lemma calm_nil : calm [].
Proof. intros acc. cbn. now rewrite app_nil_r. Qed.

Lemma calm_app (t1 t2 : list event) : calm t1 -> calm t2 -> calm (t1 ++ t2).
Proof.
  intros H1 H2 acc.
  now rewrite fold_left_app, H1, H2, remote_calls_app, app_assoc.
Qed.

Lemma calm_cons (ev : event) (tr : list event) :
  ev <> ShowInfo MsgTryingAlternative -> calm tr -> calm (ev :: tr).
Proof.
  intros Hev Htr acc. cbn [fold_left]. rewrite Htr.
  destruct ev as [p|s|m|m|t|d|x f t|x|x b|]; cbn;
    try reflexivity; try (now rewrite <- app_assoc).
  destruct m; try reflexivity. contradiction.
Qed.

Ltac calm_leaf :=
  cbn [emit snd]; apply calm_cons; [discriminate|apply calm_nil].

Lemma calm_attempt_events (env : Env) (a : artifact) :
  calm (attempt_events env a).
Proof.
  unfold attempt_events.
  destruct (remote env a); cbn [app];
    repeat (apply calm_cons; [discriminate|]); apply calm_nil.
Qed.

Lemma calm_transcribe_then_remove {A : Type} (env : Env) (a : artifact)
    (k : pystr -> A) :
  calm (snd (segment_transcript <- transcribe_segment env a ;;
             remove env a ;;;
             ret (k segment_transcript))).
Proof.
  destruct (open_ok env a) eqn:Hopen.
  - rewrite transcribe_then_remove_trace by exact Hopen.
    apply calm_attempt_events.
  - rewrite transcribe_then_remove_raises by exact Hopen. apply calm_nil.
Qed.

Lemma calm_split_audio_file (env : Env) (mb : Z) :
  calm (snd (split_audio_file env mb)).
Proof.
  unfold split_audio_file, export_segment, export.
  walk_trace calm_nil calm_app calm_leaf.
Qed.

Lemma calm_primary (env : Env) : calm (snd (primary env)).
Proof.
  unfold primary.
  apply (P_bind _ calm_app); [apply calm_split_audio_file|intro].
  apply (P_bind _ calm_app); [calm_leaf|intro].
  apply (P_bind _ calm_app);
    [|intro; walk_trace calm_nil calm_app calm_leaf].
  apply (P_for_each _ calm_nil calm_app). intros [i seg] s. unfold primary_body.
  apply (P_bind _ calm_app); [apply (P_lift _ calm_nil)|intro].
  apply (P_bind _ calm_app); [calm_leaf|intro].
  apply (P_bind _ calm_app); [calm_leaf|intro].
  apply calm_transcribe_then_remove.
Qed.

Lemma calm_fallback (env : Env) : calm (snd (fallback env)).
Proof.
  unfold fallback.
  apply (P_bind _ calm_app); [calm_leaf|intro].
  destruct (fallback_duration env); [|apply calm_nil].
  apply (P_bind _ calm_app); [apply (P_lift _ calm_nil)|intro].
  apply (P_for_each _ calm_nil calm_app). intros i s.
  unfold fallback_body, export. cbv zeta.
  apply (P_bind _ calm_app); [apply (P_lift _ calm_nil)|intro].
  apply (P_bind _ calm_app); [calm_leaf|intro].
  apply (P_bind _ calm_app); [calm_leaf|intro].
  apply (P_bind _ calm_app); [walk_trace calm_nil calm_app calm_leaf|intro].
  apply (P_bind _ calm_app); [apply (P_lift _ calm_nil)|intro].
  apply (P_bind _ calm_app); [calm_leaf|intro].
  apply (P_bind _ calm_app); [calm_leaf|intro].
  apply calm_transcribe_then_remove.
Qed.

Lemma transcribed_calm (tr : list event) : calm tr -> transcribed tr = remote_calls tr.
Proof. intros H. unfold transcribed. now rewrite H. Qed.

Lemma transcribed_restart (t1 t2 : list event) :
  transcribed (t1 ++ ShowInfo MsgTryingAlternative :: t2) = transcribed t2.
Proof. unfold transcribed. now rewrite fold_left_app. Qed.

(** ** [strip] *)

Lemma lstrip_nil_iff (s : pystr) : lstrip s = [] <-> blank s = true.
Proof.
  unfold blank. induction s as [|c s IH]; cbn [lstrip forallb].
  - tauto.
  - destruct (isspace c); cbn [andb]; [exact IH|]. split; discriminate.
Qed.

Lemma lstrip_app_blank (s w : pystr) :
  blank s = true -> lstrip (s ++ w) = lstrip w.
Proof.
  unfold blank. induction s as [|c s IH]; cbn [lstrip forallb app].
  - reflexivity.
  - destruct (isspace c); cbn [andb]; [exact IH|discriminate].
Qed.

Lemma lstrip_app_nonblank (s w : pystr) :
  blank s = false -> lstrip (s ++ w) = lstrip s ++ w.
Proof.
  unfold blank. induction s as [|c s IH]; cbn [lstrip forallb app].
  - discriminate.
  - destruct (isspace c); cbn [andb]; [exact IH|reflexivity].
Qed.

Lemma blank_app (s w : pystr) : blank (s ++ w) = blank s && blank w.
Proof. apply forallb_app. Qed.

Lemma blank_rev (s : pystr) : blank (rev s) = blank s.
Proof.
  unfold blank. induction s as [|c s IH]; [reflexivity|].
  cbn [rev forallb]. rewrite forallb_app, IH. cbn. rewrite andb_true_r.
  apply andb_comm.
Qed.

Lemma blank_lstrip (s : pystr) : blank (lstrip s) = blank s.
Proof.
  unfold blank. induction s as [|c s IH]; [reflexivity|].
  cbn [lstrip]. destruct (isspace c) eqn:Hc; cbn [forallb]; rewrite Hc;
    [exact IH|reflexivity].
Qed.

Lemma rstrip_app_space (s : pystr) : rstrip (s ++ [SPACE]) = rstrip s.
Proof. unfold rstrip. rewrite rev_app_distr. reflexivity. Qed.

(** One more space at the end does not change the stripped text. *)
Lemma strip_app_space (s : pystr) : strip (s ++ [SPACE]) = strip s.
Proof.
  unfold strip. destruct (blank s) eqn:Hb.
  - rewrite lstrip_app_blank by exact Hb.
    apply lstrip_nil_iff in Hb. rewrite Hb. reflexivity.
  - rewrite lstrip_app_nonblank by exact Hb. apply rstrip_app_space.
Qed.

(** [strip] leaves nothing exactly of the blank texts. *)
Lemma strip_nil_iff (s : pystr) : strip s = [] <-> blank s = true.
Proof.
  unfold strip, rstrip. split.
  - intros H. apply (f_equal (@rev N)) in H. rewrite rev_involutive in H.
    cbn [rev] in H. apply lstrip_nil_iff in H.
    now rewrite blank_rev, blank_lstrip in H.
  - intros H.
    assert (H' : lstrip (rev (lstrip s)) = [])
      by (apply lstrip_nil_iff; now rewrite blank_rev, blank_lstrip).
    now rewrite H'.
Qed.

Lemma blank_joined (texts : list pystr) :
  blank (joined texts) = forallb blank texts.
Proof.
  unfold joined. induction texts as [|t texts IH]; [reflexivity|].
  cbn [map concat forallb]. rewrite !blank_app, IH. cbn. now rewrite andb_true_r.
Qed.

(** ** Runs that complete *)

Lemma primary_inv (env : Env) (full : pystr) :
  fst (primary env) = Return full ->
  exists n,
    fst (split_audio_file env MAX_SEGMENT_SIZE_MB)
    = Return (map PrimarySegment (py_range n))
    /\ full = joined (map (fragment_of env) (map PrimarySegment (py_range n)))
    /\ remote_calls (snd (primary env)) = map PrimarySegment (py_range n).
Proof.
  rewrite primary_eq.
  destruct (fst (split_audio_file env MAX_SEGMENT_SIZE_MB)) as [paths| |] eqn:Hs;
    [|discriminate|discriminate].
  destruct (split_audio_file_inv _ _ _ Hs) as [n ->].
  cbv zeta.
  destruct (fst (for_each _ _ _)) as [t| |] eqn:Hloop; [|discriminate|discriminate].
  pose proof (primary_loop_inv _ _ _ Hloop) as Heq. cbv zeta in Heq.
  rewrite Heq in Hloop. rewrite Heq.
  cbn [fst snd] in *. injection Hloop as <-. intros [= <-]. exists n.
  split; [reflexivity|]. split; [reflexivity|].
  rewrite remote_calls_app, (silent_split_audio_file env). cbn [app].
  change (Status ?s :: ?l) with ([Status s] ++ l).
  rewrite !remote_calls_app, remote_calls_primary_events, map_snd_enumerate.
  cbn. now rewrite app_nil_r.
Qed.

Lemma fallback_inv (env : Env) (full : pystr) :
  fst (fallback env) = Return full ->
  exists d,
    fallback_duration env = Some d
    /\ let count := Qceiling (inject_Z d / inject_Z segment_length_ms) in
       full = joined (map (fun i => fragment_of env (FallbackSegment i))
                          (py_range count))
       /\ remote_calls (snd (fallback env)) = map FallbackSegment (py_range count).
Proof.
  rewrite fallback_eq.
  destruct (fallback_duration env) as [d|]; [|discriminate].
  cbv zeta. cbn [fst snd]. intros Hloop. exists d. split; [reflexivity|].
  pose proof (fallback_loop_inv _ _ _ _ Hloop) as Heq.
  rewrite Heq in Hloop. rewrite Heq. cbn [fst snd] in *.
  injection Hloop as <-. split; [reflexivity|].
  change (Decode ?x :: ?l) with ([Decode x] ++ l).
  now rewrite remote_calls_app, remote_calls_fallback_events.
Qed.

(** A run that shows a transcript took one of three ways. *)
Lemma run_completed (env : Env) (t : pystr) :
  fst (run env) = Return (Some t) ->
  (exists text,
      upload_size env <= MAX_SEGMENT_SIZE_MB * BYTES_PER_MB
      /\ remote env SourceFile = RemoteOk text
      /\ t = strip text
      /\ snd (run env)
         = [Progress 0; Status Analysing; Status SingleSegment; Progress (2 # 10);
            RemoteCall SourceFile; Progress 1; Progress 1; Status Finished;
            ShowResult t])
  \/ (exists full,
        MAX_SEGMENT_SIZE_MB * BYTES_PER_MB < upload_size env
        /\ fst (primary env) = Return full
        /\ t = strip full
        /\ snd (run env)
           = [Progress 0; Status Analysing; Status Splitting; Progress (1 # 10)]
             ++ snd (primary env)
             ++ [Progress 1; Status Finished; ShowResult t])
  \/ (exists e full,
        MAX_SEGMENT_SIZE_MB * BYTES_PER_MB < upload_size env
        /\ fst (primary env) = Raised e
        /\ fst (fallback env) = Return full
        /\ t = strip full
        /\ snd (run env)
           = ([Progress 0; Status Analysing; Status Splitting; Progress (1 # 10)]
              ++ snd (primary env) ++ [ShowError (MsgSegmentsFailed e)])
             ++ ShowInfo MsgTryingAlternative
             :: snd (fallback env)
             ++ [Progress 1; Status Finished; ShowResult t]).
Proof.
  rewrite run_eq.
  destruct (py_gt _ _); [discriminate|].
  destruct (setup_ok env); [|discriminate].
  destruct (supported _); [|discriminate].
  cbv zeta.
  destruct (Qle_bool _ _) eqn:Ele.
  - apply single_shot_iff in Ele. rewrite single_shot_eq.
    destruct (open_ok env SourceFile); [|discriminate].
    destruct (remote env SourceFile) as [text|]; [|discriminate].
    cbn. intros [= <-]. left. exists text. repeat split. exact Ele.
  - assert (Hsize : MAX_SEGMENT_SIZE_MB * BYTES_PER_MB < upload_size env).
    { destruct (Z.le_gt_cases (upload_size env)
                  (MAX_SEGMENT_SIZE_MB * BYTES_PER_MB)) as [Hle|Hgt];
        [|exact Hgt].
      apply single_shot_iff in Hle. congruence. }
    rewrite multi_segment_eq.
    destruct (fst (primary env)) as [full|e|] eqn:Hp; cbn [fst snd];
      [| |discriminate].
    + intros [= <-]. right. left. exists full. repeat split. exact Hsize.
    + cbv zeta.
      destruct (fst (fallback env)) as [full|e'|] eqn:Hf; cbn [fst snd];
        [|discriminate|discriminate].
      intros [= <-]. right. right. exists e, full.
      repeat split; [exact Hsize|].
      cbn [app]. rewrite <- !app_assoc. reflexivity.
Qed.

Lemma calm_events (l : list event) :
  Forall (fun ev => ev <> ShowInfo MsgTryingAlternative) l -> calm l.
Proof.
  induction 1 as [|ev l Hev _ IH]; [apply calm_nil|now apply calm_cons].
Qed.

(** C1: whenever a run shows a transcript, the segments it submitted are the
    segments it had to transcribe, each once and in index order: the upload
    alone, or every path [split_audio_file] returned, or every five-minute
    segment of the alternative method; and the transcript is the stripped
    concatenation of their fragments in that order, each fragment followed by
    one space, a failed segment contributing the empty string. *)
Theorem transcript_is_ordered_concatenation (env : Env) (t : pystr) :
  fst (run env) = Return (Some t) ->
  exists segs,
    segments_of_run env segs
    /\ index_ordered segs
    /\ transcribed (snd (run env)) = segs
    /\ t = strip (joined (map (fragment_of env) segs)).
Proof.
  intros Hrun.
  destruct (run_completed env t Hrun)
    as [(text & Hsize & Hremote & Ht & Htr)
       |[(full & Hsize & Hp & Ht & Htr)
        |(e & full & Hsize & Hp & Hf & Ht & Htr)]];
    rewrite Htr.
  - exists [SourceFile]. split; [now apply whole_upload|].
    split; [now left|]. split; [reflexivity|].
    unfold joined, fragment_of. cbn [map concat]. rewrite Hremote.
    cbn [fragment_text]. now rewrite app_nil_r, strip_app_space.
  - destruct (primary_inv env full Hp) as (n & Hsplit & Hfull & Hcalls).
    exists (map PrimarySegment (py_range n)).
    split; [now apply (split_segments env _ full)|].
    split; [right; left; now exists n|].
    split; [|congruence].
    rewrite transcribed_calm.
    + rewrite !remote_calls_app, Hcalls. cbn [remote_calls flat_map app].
      now rewrite app_nil_r.
    + apply calm_app; [|apply calm_app; [apply calm_primary|]];
        apply calm_events; repeat constructor; discriminate.
  - destruct (fallback_inv env full Hf) as (d & Hd & Hfull & Hcalls).
    cbv zeta in Hfull, Hcalls.
    exists (map FallbackSegment
              (py_range (Qceiling (inject_Z d / inject_Z segment_length_ms)))).
    split; [now apply (five_minute_segments env e d)|].
    split; [right; right; eexists; reflexivity|].
    split; [|rewrite map_map; congruence].
    rewrite transcribed_restart, transcribed_calm.
    + rewrite remote_calls_app, Hcalls. cbn [remote_calls flat_map app].
      now rewrite app_nil_r.
    + apply calm_app; [apply calm_fallback|].
      apply calm_events; repeat constructor; discriminate.
Qed.

Lemma transcript_is_ordered_concatenation_witness :
  exists segs,
    segments_of_run env_one_failure segs
    /\ index_ordered segs
    /\ transcribed (snd (run env_one_failure)) = segs
    /\ text_hi = strip (joined (map (fragment_of env_one_failure) segs)).
Proof.
  apply (transcript_is_ordered_concatenation env_one_failure text_hi).
  reflexivity.
Defined.

(** The alternative method at work: a source of 400 seconds whose primary
    decoder raises is transcribed from its two five-minute segments. *)
Example fallback_transcript_example :
  fst (run env_fallback_two) = Return (Some (text_hi ++ [SPACE] ++ text_hi))
  /\ transcribed (snd (run env_fallback_two))
     = [FallbackSegment 0; FallbackSegment 1].
Proof. split; reflexivity. Qed.

(** C10: when the primary method raises, however many segments it had
    transcribed, a run that still shows a transcript shows the one of the
    alternative method alone: the alternative loop starts from the empty
    string and only its own segments count. *)
Theorem fallback_discards_primary_fragments (env : Env) (e : exn) (t : pystr) :
  MAX_SEGMENT_SIZE_MB * BYTES_PER_MB < upload_size env ->
  fst (primary env) = Raised e ->
  fst (run env) = Return (Some t) ->
  exists d,
    fallback_duration env = Some d
    /\ let count := Qceiling (inject_Z d / inject_Z segment_length_ms) in
       transcribed (snd (run env)) = map FallbackSegment (py_range count)
       /\ fst (fallback env)
          = Return (joined (map (fun i => fragment_of env (FallbackSegment i))
                                (py_range count)))
       /\ t = strip (joined (map (fun i => fragment_of env (FallbackSegment i))
                                 (py_range count))).
Proof.
  intros Hsize Hraised Hrun.
  destruct (run_completed env t Hrun)
    as [(text & Hle & _)
       |[(full & _ & Hp & _)
        |(e' & full & _ & Hp & Hf & Ht & Htr)]].
  - lia.
  - congruence.
  - destruct (fallback_inv env full Hf) as (d & Hd & Hfull & Hcalls).
    cbv zeta in Hfull, Hcalls.
    exists d. split; [exact Hd|]. cbv zeta. split; [|split].
    + rewrite Htr, transcribed_restart, transcribed_calm.
      * rewrite remote_calls_app, Hcalls. cbn [remote_calls flat_map app].
        now rewrite app_nil_r.
      * apply calm_app; [apply calm_fallback|].
        apply calm_events; repeat constructor; discriminate.
    + congruence.
    + congruence.
Qed.

Lemma fallback_discards_primary_fragments_witness :
  In (PrimarySegment 0) (remote_calls (snd (run env_unreadable_second)))
  /\ exists d,
       fallback_duration env_unreadable_second = Some d
       /\ let count := Qceiling (inject_Z d / inject_Z segment_length_ms) in
          transcribed (snd (run env_unreadable_second))
          = map FallbackSegment (py_range count)
          /\ fst (fallback env_unreadable_second)
             = Return (joined (map (fun i => fragment_of env_unreadable_second
                                               (FallbackSegment i))
                                   (py_range count)))
          /\ text_yo
             = strip (joined (map (fun i => fragment_of env_unreadable_second
                                              (FallbackSegment i))
                                  (py_range count))).
Proof.
  split.
  - vm_compute. now left.
  - apply (fallback_discards_primary_fragments env_unreadable_second OSError text_yo).
    + reflexivity.
    + reflexivity.
    + reflexivity.
Defined.

(** ** The alternative method is tried once *)

Lemma unprobed_nil : unprobed [].
Proof. reflexivity. Qed.

Lemma unprobed_app (t1 t2 : list event) :
  unprobed t1 -> unprobed t2 -> unprobed (t1 ++ t2).
Proof. unfold unprobed. intros H1 H2. now rewrite filter_app, H1, H2. Qed.

Lemma unprobed_primary (env : Env) : unprobed (snd (primary env)).
Proof.
  unfold primary, split_audio_file, export_segment, export.
  apply (P_bind _ unprobed_app);
    [walk_trace unprobed_nil unprobed_app ltac:(reflexivity)|intro].
  apply (P_bind _ unprobed_app); [reflexivity|intro].
  apply (P_bind _ unprobed_app);
    [|intro; walk_trace unprobed_nil unprobed_app ltac:(reflexivity)].
  apply (P_for_each _ unprobed_nil unprobed_app). intros [i seg] s.
  unfold primary_body, transcribe_segment, remove.
  walk_trace unprobed_nil unprobed_app ltac:(reflexivity).
Qed.

Lemma unprobed_fallback_loop (env : Env) (d count : Z) (l : list Z) (s : pystr) :
  unprobed (snd (for_each (fallback_body env d count) l s)).
Proof.
  apply (P_for_each _ unprobed_nil unprobed_app). intros i s'.
  unfold fallback_body, export, transcribe_segment, remove. cbv zeta.
  walk_trace unprobed_nil unprobed_app ltac:(reflexivity).
Qed.

Lemma fallback_attempts_app (t1 t2 : list event) :
  fallback_attempts (t1 ++ t2) = (fallback_attempts t1 + fallback_attempts t2)%nat.
Proof. unfold fallback_attempts. now rewrite filter_app, length_app. Qed.

Lemma fallback_attempts_unprobed (tr : list event) :
  unprobed tr -> fallback_attempts tr = 0%nat.
Proof. unfold unprobed, fallback_attempts. now intros ->. Qed.

Lemma fallback_attempts_fallback (env : Env) :
  fallback_attempts (snd (fallback env)) = 1%nat.
Proof.
  rewrite fallback_eq. destruct (fallback_duration env) as [d|]; [|reflexivity].
  cbv zeta. cbn [snd].
  change (Decode ByProbe :: ?l) with ([Decode ByProbe] ++ l).
  rewrite fallback_attempts_app, (fallback_attempts_unprobed _ (unprobed_fallback_loop _ _ _ _ _)).
  reflexivity.
Qed.

(** A run whose primary method raises. *)
Lemma run_after_primary_failure (env : Env) (e : exn) :
  multi_segment_request env ->
  fst (primary env) = Raised e ->
  let before :=
    [Progress 0; Status Analysing; Status Splitting; Progress (1 # 10)]
    ++ snd (primary env)
    ++ [ShowError (MsgSegmentsFailed e); ShowInfo MsgTryingAlternative] in
  run env
  = match fst (fallback env) with
    | Return full =>
        (Return (Some (strip full)),
         before ++ snd (fallback env)
         ++ [Progress 1; Status Finished; ShowResult (strip full)])
    | Raised alt_err =>
        (Stopped,
         before ++ snd (fallback env) ++ [ShowError (MsgAlternativeFailed alt_err)])
    | Stopped => (Stopped, before ++ snd (fallback env))
    end.
Proof.
  intros Hreq Hp. rewrite (run_multi_segment env Hreq), multi_segment_eq, Hp.
  cbv zeta.
  destruct (fst (fallback env)); cbn [fst snd app];
    rewrite <- ?app_assoc; reflexivity.
Qed.

(** The alternative method at work: two segments of five minutes and of what
    remains, from a source of 400 seconds. *)
Example fallback_exports_example :
  filter (fun ev => match ev with Export _ _ _ => true | _ => false end)
         (snd (run env_fallback_two))
  = [Export (FallbackSegment 0) 0 300000;
     Export (FallbackSegment 1) 300000 400000].
Proof. reflexivity. Qed.

(** ** Loops whose artifacts can all be opened *)

Lemma Qeq_bool_inject_Z_nonzero (z : Z) :
  z <> 0 -> Qeq_bool (inject_Z z) 0 = false.
Proof.
  intros Hz. destruct (Qeq_bool (inject_Z z) 0) eqn:E; [|reflexivity].
  apply Qeq_bool_iff in E. now apply inject_Z_nonzero in E.
Qed.

Lemma primary_loop_returns (env : Env) (paths : list artifact) (full : pystr) :
  (forall a, In a paths -> open_ok env a = true) ->
  for_each (primary_body env (Z.of_nat (List.length paths))) (enumerate paths) full
  = (Return (full ++ joined (map (fragment_of env) paths)),
     concat (map (primary_events env (Z.of_nat (List.length paths)))
                 (enumerate paths))).
Proof.
  intros Hopen.
  rewrite (for_each_returns (primary_body env (Z.of_nat (List.length paths)))
             (fun item s => s ++ fragment_of env (snd item) ++ [SPACE])
             (primary_events env (Z.of_nat (List.length paths)))).
  - rewrite (fold_fragments (fun item => fragment_of env (snd item))).
    now rewrite <- (map_map snd (fragment_of env)), map_snd_enumerate.
  - intros [i a] s Hin. apply in_enumerate in Hin as [Hin Hi].
    rewrite primary_body_eq, Qeq_bool_inject_Z_nonzero by lia.
    now rewrite (Hopen a Hin).
Qed.

Lemma fallback_loop_returns (env : Env) (d count : Z) (full : pystr) :
  (forall i, 0 <= i < count ->
     export_ok env (FallbackSegment i) = true
     /\ open_ok env (FallbackSegment i) = true) ->
  for_each (fallback_body env d count) (py_range count) full
  = (Return (full ++ joined (map (fun i => fragment_of env (FallbackSegment i))
                                 (py_range count))),
     concat (map (fallback_events env d count) (py_range count))).
Proof.
  intros Hok.
  rewrite (for_each_returns (fallback_body env d count)
             (fun i s => s ++ fragment_of env (FallbackSegment i) ++ [SPACE])
             (fallback_events env d count)).
  - now rewrite (fold_fragments (fun i => fragment_of env (FallbackSegment i))).
  - intros i s Hin. apply in_py_range in Hin.
    rewrite fallback_body_eq, Qeq_bool_inject_Z_nonzero by lia.
    destruct (Hok i Hin) as [-> ->]. reflexivity.
Qed.

(** C4: whatever error the remote call raises, [transcribe_segment] returns
    the empty string and reports the error; and as long as the artifacts can
    be opened (and, in the alternative loop, exported), both loops return
    after one remote call per segment, whatever the service answered. *)
Theorem remote_errors_are_absorbed (env : Env) :
  (forall a e,
     open_ok env a = true ->
     remote env a = RemoteErr e ->
     transcribe_segment env a
     = (Return [], [RemoteCall a; ShowError (MsgSegmentFailed a e)]))
  /\ (forall paths full,
        (forall a, In a paths -> open_ok env a = true) ->
        exists t tr,
          for_each (primary_body env (Z.of_nat (List.length paths)))
                   (enumerate paths) full = (Return t, tr)
          /\ remote_calls tr = paths)
  /\ (forall d count full,
        (forall i, 0 <= i < count ->
           export_ok env (FallbackSegment i) = true
           /\ open_ok env (FallbackSegment i) = true) ->
        exists t tr,
          for_each (fallback_body env d count) (py_range count) full
          = (Return t, tr)
          /\ remote_calls tr = map FallbackSegment (py_range count)).
Proof.
  split; [|split].
  - intros a e Hopen Hremote. unfold transcribe_segment.
    now rewrite Hopen, Hremote.
  - intros paths full Hopen. do 2 eexists.
    split; [apply primary_loop_returns; exact Hopen|].
    now rewrite remote_calls_primary_events, map_snd_enumerate.
  - intros d count full Hok. do 2 eexists.
    split; [apply fallback_loop_returns; exact Hok|].
    apply remote_calls_fallback_events.
Qed.

Lemma remote_errors_are_absorbed_witness :
  transcribe_segment env_one_failure (PrimarySegment 0)
  = (Return [],
     [RemoteCall (PrimarySegment 0);
      ShowError (MsgSegmentFailed (PrimarySegment 0) TransientNetwork)])
  /\ (exists t tr,
        for_each (primary_body env_one_failure 2)
                 (enumerate [PrimarySegment 0; PrimarySegment 1]) []
        = (Return t, tr)
        /\ remote_calls tr = [PrimarySegment 0; PrimarySegment 1])
  /\ (exists t tr,
        for_each (fallback_body env_fallback_one_failure 400000 2) (py_range 2) []
        = (Return t, tr)
        /\ remote_calls tr = map FallbackSegment (py_range 2)).
Proof.
  split; [|split].
  - apply (proj1 (remote_errors_are_absorbed env_one_failure)); reflexivity.
  - apply (proj1 (proj2 (remote_errors_are_absorbed env_one_failure))
             [PrimarySegment 0; PrimarySegment 1] []).
    intros a Ha. reflexivity.
  - apply (proj2 (proj2 (remote_errors_are_absorbed env_fallback_one_failure))).
    intros i Hi. split; reflexivity.
Defined.

(** ** Reported failures *)

Lemma failed_segments_app (t1 t2 : list event) :
  failed_segments (t1 ++ t2) = failed_segments t1 ++ failed_segments t2.
Proof. apply flat_map_app. Qed.

Lemma failed_segments_attempt (env : Env) (a : artifact) :
  failed_segments (attempt_events env a) = failing env [a].
Proof.
  unfold attempt_events, failing. cbn [filter].
  now destruct (remote env a).
Qed.

Lemma failing_app (env : Env) (l1 l2 : list artifact) :
  failing env (l1 ++ l2) = failing env l1 ++ failing env l2.
Proof. apply filter_app. Qed.

Lemma failed_segments_primary_events (env : Env) (total : Z)
    (l : list (Z * artifact)) :
  failed_segments (concat (map (primary_events env total) l))
  = failing env (map snd l).
Proof.
  induction l as [|[i a] l IH]; [reflexivity|].
  cbn [map concat snd]. rewrite failed_segments_app, IH.
  change (a :: map snd l) with ([a] ++ map snd l). rewrite failing_app.
  f_equal. unfold primary_events. cbn [app failed_segments flat_map snd].
  apply failed_segments_attempt.
Qed.

Lemma failed_segments_fallback_events (env : Env) (d count : Z) (l : list Z) :
  failed_segments (concat (map (fallback_events env d count) l))
  = failing env (map FallbackSegment l).
Proof.
  induction l as [|i l IH]; [reflexivity|].
  cbn [map concat]. rewrite failed_segments_app, IH.
  change (FallbackSegment i :: map FallbackSegment l)
    with ([FallbackSegment i] ++ map FallbackSegment l).
  rewrite failing_app. f_equal.
  unfold fallback_events. cbn [app failed_segments flat_map].
  apply failed_segments_attempt.
Qed.

Lemma failing_none (env : Env) (segs : list artifact) :
  (forall c, In c segs -> exists text, remote env c = RemoteOk text) ->
  failing env segs = [].
Proof.
  unfold failing. induction segs as [|c segs IH]; intros Hok; [reflexivity|].
  cbn [filter]. destruct (Hok c (or_introl eq_refl)) as [text ->].
  apply IH. intros c' H. apply Hok. now right.
Qed.

(** Among distinct segments of which the service rejects exactly one, that
    one is the list of the rejected. *)
Lemma failing_exactly_one (env : Env) (segs : list artifact)
    (a : artifact) (e : remote_error) :
  NoDup segs ->
  In a segs ->
  remote env a = RemoteErr e ->
  (forall c, In c segs -> c <> a -> exists text, remote env c = RemoteOk text) ->
  failing env segs = [a].
Proof.
  intros Hnd. induction Hnd as [|c segs Hnotin Hnd IH]; intros Hin Ha Hothers;
    [contradiction|].
  change (c :: segs) with ([c] ++ segs). rewrite failing_app.
  destruct Hin as [->|Hin].
  - rewrite (failing_none env segs).
    + unfold failing. cbn [filter]. now rewrite Ha.
    + intros c' H. apply Hothers; [now right|].
      intros ->. contradiction.
  - rewrite (failing_none env [c]).
    + apply IH; auto. intros c' H Hne. apply Hothers; auto. now right.
    + intros c' [<-|[]]. apply Hothers; [now left|].
      intros ->. contradiction.
Qed.

Lemma unfailing_nil : unfailing [].
Proof. reflexivity. Qed.

Lemma unfailing_app (t1 t2 : list event) :
  unfailing t1 -> unfailing t2 -> unfailing (t1 ++ t2).
Proof. unfold unfailing. intros H1 H2. now rewrite failed_segments_app, H1, H2. Qed.

Lemma unfailing_split_audio_file (env : Env) (mb : Z) :
  unfailing (snd (split_audio_file env mb)).
Proof.
  unfold split_audio_file, export_segment, export.
  walk_trace unfailing_nil unfailing_app ltac:(reflexivity).
Qed.

Lemma primary_failures_only_nil : primary_failures_only [].
Proof. constructor. Qed.

Lemma primary_failures_only_app (t1 t2 : list event) :
  primary_failures_only t1 -> primary_failures_only t2 ->
  primary_failures_only (t1 ++ t2).
Proof.
  unfold primary_failures_only. intros H1 H2.
  rewrite failed_segments_app. apply Forall_app. now split.
Qed.

Lemma primary_failures_only_unfailing (tr : list event) :
  unfailing tr -> primary_failures_only tr.
Proof. unfold unfailing, primary_failures_only. intros ->. constructor. Qed.

(** A property of traces through a loop, iteration by iteration. *)
Lemma for_each_trace_in {A S : Type} (P : list event -> Prop)
    (body : A -> S -> M S) (l : list A) :
  P [] ->
  (forall t1 t2, P t1 -> P t2 -> P (t1 ++ t2)) ->
  (forall a s, In a l -> P (snd (body a s))) ->
  forall s, P (snd (for_each body l s)).
Proof.
  intros Hnil Happ. induction l as [|a l IH]; intros Hbody s; cbn [for_each].
  - exact Hnil.
  - apply (P_bind _ Happ).
    + apply Hbody. now left.
    + intros s'. apply IH. intros a' s'' H. apply Hbody. now right.
Qed.

Lemma primary_failures_only_body (env : Env) (total i j : Z) (s : pystr) :
  primary_failures_only (snd (primary_body env total (i, PrimarySegment j) s)).
Proof.
  rewrite primary_body_eq.
  destruct (Qeq_bool _ _); [constructor|].
  destruct (open_ok env _); [|constructor].
  cbn [snd]. unfold primary_failures_only, primary_events.
  cbn [app failed_segments flat_map snd fst].
  change (flat_map _ (attempt_events env (PrimarySegment j)))
    with (failed_segments (attempt_events env (PrimarySegment j))).
  rewrite failed_segments_attempt. unfold failing. cbn [filter].
  destruct (remote env _); repeat constructor.
Qed.

Lemma primary_failures_only_primary (env : Env) :
  primary_failures_only (snd (primary env)).
Proof.
  rewrite primary_eq.
  pose proof (unfailing_split_audio_file env MAX_SEGMENT_SIZE_MB) as Hsplit.
  apply primary_failures_only_unfailing in Hsplit.
  destruct (fst (split_audio_file env MAX_SEGMENT_SIZE_MB)) as [paths| |] eqn:Hs;
    [|exact Hsplit|exact Hsplit].
  destruct (split_audio_file_inv _ _ _ Hs) as [n ->]. cbv zeta.
  assert (Hloop : primary_failures_only
            (snd (for_each
                    (primary_body env
                       (Z.of_nat (List.length (map PrimarySegment (py_range n)))))
                    (enumerate (map PrimarySegment (py_range n))) []))).
  { apply for_each_trace_in;
      [apply primary_failures_only_nil|apply primary_failures_only_app|].
    intros [i a] s Hin. apply in_enumerate in Hin as [Hin _].
    apply in_map_iff in Hin as [j [<- _]].
    apply primary_failures_only_body. }
  destruct (fst (for_each _ _ _)); cbn [snd];
    change (Status ?x :: ?l) with ([Status x] ++ l);
    repeat apply primary_failures_only_app;
    try exact Hsplit; try exact Hloop; repeat constructor.
Qed.

Lemma NoDup_map_injective {A B : Type} (f : A -> B) (l : list A) :
  (forall x y, f x = f y -> x = y) -> NoDup l -> NoDup (map f l).
Proof.
  intros Hinj Hnd. induction Hnd as [|x l Hnotin Hnd IH]; cbn [map]; constructor.
  - intros Hin. apply in_map_iff in Hin as [y [Hy Hin]].
    apply Hinj in Hy. now subst.
  - exact IH.
Qed.

Lemma NoDup_py_range (n : Z) : NoDup (py_range n).
Proof.
  unfold py_range. apply NoDup_map_injective.
  - intros x y. apply Nat2Z.inj.
  - apply seq_NoDup.
Qed.

Lemma primary_returns (env : Env) (paths : list artifact) :
  fst (split_audio_file env MAX_SEGMENT_SIZE_MB) = Return paths ->
  (forall a, In a paths -> open_ok env a = true) ->
  primary env
  = (Return (joined (map (fragment_of env) paths)),
     snd (split_audio_file env MAX_SEGMENT_SIZE_MB)
     ++ Status (SplitInto (Z.of_nat (List.length paths)))
     :: concat (map (primary_events env (Z.of_nat (List.length paths)))
                    (enumerate paths))
     ++ [Progress (9 # 10); Status Finalising; Sleep]).
Proof.
  intros Hs Hopen. rewrite primary_eq, Hs. cbv zeta.
  now rewrite (primary_loop_returns env paths [] Hopen).
Qed.

Lemma fallback_returns (env : Env) (d : Z) :
  fallback_duration env = Some d ->
  (forall i, 0 <= i < Qceiling (inject_Z d / inject_Z segment_length_ms) ->
     export_ok env (FallbackSegment i) = true
     /\ open_ok env (FallbackSegment i) = true) ->
  fallback env
  = (Return (joined (map (fragment_of env)
                         (map FallbackSegment
                              (py_range (Qceiling (inject_Z d / inject_Z segment_length_ms)))))),
     Decode ByProbe
     :: concat (map (fallback_events env d
                       (Qceiling (inject_Z d / inject_Z segment_length_ms)))
                    (py_range (Qceiling (inject_Z d / inject_Z segment_length_ms))))).
Proof.
  intros Hd Hok. rewrite fallback_eq, Hd. cbv zeta.
  rewrite (fallback_loop_returns env d _ [] Hok). cbn [fst snd app].
  now rewrite map_map.
Qed.

Lemma strip_joined_nonempty (env : Env) (segs : list artifact) (b : artifact) :
  In b segs ->
  blank (fragment_of env b) = false ->
  strip (joined (map (fragment_of env) segs)) <> [].
Proof.
  intros Hin Hb Hnil. apply strip_nil_iff in Hnil.
  rewrite blank_joined in Hnil.
  rewrite forallb_forall in Hnil.
  rewrite (Hnil (fragment_of env b)) in Hb; [discriminate|].
  now apply in_map.
Qed.

Lemma failed_segments_skip (ev : event) (tr : list event) :
  is_segment_failure ev = false ->
  failed_segments (ev :: tr) = failed_segments tr.
Proof.
  destruct ev as [p|s|m|m|t|d|x f t|x|x b|]; try reflexivity.
  destruct m; try reflexivity. discriminate.
Qed.

Ltac skip_events :=
  repeat first [ rewrite failed_segments_app
               | rewrite failed_segments_skip by reflexivity ];
  change (failed_segments []) with (@nil artifact);
  rewrite ?app_nil_r; cbn [app].

(** C5, as the code has it: in a multi-segment run whose segments can all be
    exported and opened, if the service rejects exactly one segment and
    transcribes another to a text that is not all white space, the run shows
    a non-empty transcript, and the rejected segment is the one failure
    reported for these segments.  (The run returns the transcript alone; a
    failure is an error message, not a count.) *)
Theorem one_failure_is_tolerated (env : Env) (segs : list artifact)
    (a b : artifact) (e : remote_error) :
  multi_segment_request env ->
  final_method env segs ->
  In a segs ->
  remote env a = RemoteErr e ->
  (forall c, In c segs -> c <> a -> exists text, remote env c = RemoteOk text) ->
  In b segs ->
  blank (fragment_of env b) = false ->
  exists t,
    fst (run env) = Return (Some t)
    /\ t <> []
    /\ t = strip (joined (map (fragment_of env) segs))
    /\ exists earlier,
         failed_segments (snd (run env)) = earlier ++ [a]
         /\ Forall (fun c => ~ In c segs) earlier.
Proof.
  intros Hreq Hfinal Ha Herr Hothers Hb Hblank.
  pose proof (strip_joined_nonempty env segs b Hb Hblank) as Hne.
  destruct Hfinal as [paths Hs Hopen|e' d Hp Hd Hok].
  - pose proof (primary_returns env paths Hs Hopen) as Hprimary.
    rewrite (run_multi_segment env Hreq), multi_segment_eq, Hprimary.
    cbn [fst snd]. eexists. split; [reflexivity|]. split; [exact Hne|].
    split; [reflexivity|]. exists []. split; [|constructor].
    destruct (split_audio_file_inv _ _ _ Hs) as [n Hn].
    pose proof (unfailing_split_audio_file env MAX_SEGMENT_SIZE_MB) as Hsplit.
    unfold unfailing in Hsplit. skip_events. rewrite Hsplit. skip_events.
    rewrite failed_segments_primary_events, map_snd_enumerate.
    apply (failing_exactly_one env paths a e); auto.
    rewrite Hn. apply NoDup_map_injective; [|apply NoDup_py_range].
    intros x y H. now injection H.
  - pose proof (fallback_returns env d Hd Hok) as Hfallback.
    pose proof (run_after_primary_failure env e' Hreq Hp) as Hrun.
    cbv zeta in Hrun. rewrite Hfallback in Hrun. cbn [fst snd] in Hrun.
    rewrite Hrun. cbn [fst snd].
    eexists. split; [reflexivity|]. split; [exact Hne|].
    split; [reflexivity|].
    exists (failed_segments (snd (primary env))). split.
    + skip_events. rewrite failed_segments_fallback_events.
      f_equal. apply (failing_exactly_one env _ a e); auto.
      apply NoDup_map_injective; [|apply NoDup_py_range].
      intros x y H. now injection H.
    + pose proof (primary_failures_only_primary env) as Honly.
      unfold primary_failures_only in Honly.
      eapply Forall_impl; [|exact Honly].
      intros c Hc Hin. apply in_map_iff in Hin as [i [<- _]]. exact Hc.
Qed.

Lemma one_failure_is_tolerated_witness :
  exists t,
    fst (run env_one_failure) = Return (Some t)
    /\ t <> []
    /\ t = strip (joined (map (fragment_of env_one_failure)
                              [PrimarySegment 0; PrimarySegment 1]))
    /\ exists earlier,
         failed_segments (snd (run env_one_failure)) = earlier ++ [PrimarySegment 0]
         /\ Forall (fun c => ~ In c [PrimarySegment 0; PrimarySegment 1]) earlier.
Proof.
  apply (one_failure_is_tolerated env_one_failure
           [PrimarySegment 0; PrimarySegment 1]
           (PrimarySegment 0) (PrimarySegment 1) TransientNetwork).
  - unfold multi_segment_request. cbn. repeat split; lia.
  - apply final_primary; [reflexivity|]. intros a Ha. reflexivity.
  - simpl. tauto.
  - reflexivity.
  - intros c [<-|[<-|[]]] Hne; [contradiction|]. eexists. reflexivity.
  - simpl. tauto.
  - reflexivity.
Defined.

(** The same through the alternative method: the primary decoder raised,
    the second five-minute segment is rejected, the first is transcribed. *)
Example one_failure_in_fallback :
  fst (run env_fallback_one_failure) = Return (Some text_hi)
  /\ failed_segments (snd (run env_fallback_one_failure)) = [FallbackSegment 1].
Proof. split; reflexivity. Qed.

(** C5 as stated fails: of two segments the service rejects the first and
    answers the second with one space, a text that is not empty; the run
    completes and the transcript is empty. *)
Lemma blank_success_gives_empty_transcript :
  transcribed (snd (run env_one_failure_blank))
  = [PrimarySegment 0; PrimarySegment 1]
  /\ remote env_one_failure_blank (PrimarySegment 0) = RemoteErr TransientNetwork
  /\ remote env_one_failure_blank (PrimarySegment 1) = RemoteOk [SPACE]
  /\ [SPACE] <> []
  /\ failed_segments (snd (run env_one_failure_blank)) = [PrimarySegment 0]
  /\ fst (run env_one_failure_blank) = Return (Some []).
Proof. repeat split. discriminate. Qed.

(** ** Progress outside the alternative method *)

Lemma ascending_weaken (lo lo' hi : Q) (l : list Q) :
  (lo' <= lo)%Q -> ascending lo l hi -> ascending lo' l hi.
Proof.
  destruct l as [|p l]; cbn [ascending].
  - intros H1 H2. now apply Qle_trans with lo.
  - intros H1 [H2 H3]. split; [now apply Qle_trans with lo|exact H3].
Qed.

Lemma ascending_app (lo mid hi : Q) (l1 l2 : list Q) :
  ascending lo l1 mid -> ascending mid l2 hi -> ascending lo (l1 ++ l2) hi.
Proof.
  revert lo. induction l1 as [|p l1 IH]; intros lo; cbn [ascending app].
  - intros H1 H2. now apply ascending_weaken with mid.
  - intros [H1 H2] H3. split; [exact H1|now apply IH].
Qed.

Lemma ascending_bounds (lo hi : Q) (l : list Q) :
  ascending lo l hi -> (lo <= hi)%Q /\ Forall (fun p => (lo <= p <= hi)%Q) l.
Proof.
  revert lo. induction l as [|p l IH]; intros lo; cbn [ascending].
  - intros H. split; [exact H|constructor].
  - intros [H1 H2]. destruct (IH p H2) as [H3 H4]. split.
    + now apply Qle_trans with p.
    + constructor; [split; assumption|].
      eapply Forall_impl; [|exact H4]. cbn. intros q [H5 H6].
      split; [now apply Qle_trans with p|exact H6].
Qed.

Lemma ascending_nondecreasing (lo hi : Q) (l : list Q) :
  ascending lo l hi -> nondecreasing l = true.
Proof.
  revert lo. induction l as [|p l IH]; intros lo; [reflexivity|].
  cbn [ascending nondecreasing]. intros [_ H].
  destruct l as [|p' l]; [reflexivity|].
  apply andb_true_iff. split.
  - apply Qle_bool_iff. cbn [ascending] in H. tauto.
  - exact (IH p H).
Qed.

Lemma ascending_unit_interval (l : list Q) :
  ascending 0 l 1 ->
  nondecreasing l = true /\ forallb in_unit_interval l = true.
Proof.
  intros H. split; [exact (ascending_nondecreasing _ _ _ H)|].
  apply forallb_forall. intros p Hp.
  destruct (ascending_bounds _ _ _ H) as [_ Hall].
  rewrite Forall_forall in Hall. destruct (Hall p Hp) as [H1 H2].
  unfold in_unit_interval. apply andb_true_iff.
  split; now apply Qle_bool_iff.
Qed.

Lemma primary_progress_bounds (total i : Z) :
  0 <= i < total ->
  ((1 # 10) <= primary_progress total i)%Q
  /\ (primary_progress total i <= 9 # 10)%Q
  /\ (primary_progress total i <= primary_progress total (i + 1))%Q.
Proof.
  intros Hi. unfold primary_progress.
  assert (Ht : (0 < inject_Z total)%Q)
    by (change 0%Q with (inject_Z 0); rewrite <- Zlt_Qlt; lia).
  assert (H0 : (0 <= inject_Z i / inject_Z total)%Q).
  { apply Qle_shift_div_l; [exact Ht|]. rewrite Qmult_0_l.
    change 0%Q with (inject_Z 0). rewrite <- Zle_Qle. lia. }
  assert (H1 : (inject_Z i / inject_Z total <= 1)%Q).
  { apply Qle_shift_div_r; [exact Ht|]. rewrite Qmult_1_l.
    rewrite <- Zle_Qle. lia. }
  assert (H2 : (inject_Z i / inject_Z total
                <= inject_Z (i + 1) / inject_Z total)%Q).
  { unfold Qdiv. apply Qmult_le_compat_r.
    - rewrite <- Zle_Qle. lia.
    - apply Qlt_le_weak. now apply Qinv_lt_0_compat. }
  repeat split; lra.
Qed.

Lemma ascending_primary_progress (total : Z) (m k : nat) (lo : Q) :
  Z.of_nat k + Z.of_nat m <= total ->
  (lo <= 9 # 10)%Q ->
  (m <> 0%nat -> (lo <= primary_progress total (Z.of_nat k))%Q) ->
  ascending lo (map (primary_progress total) (map Z.of_nat (seq k m))) (9 # 10).
Proof.
  revert k lo. induction m as [|m IH]; intros k lo Hk Hlo Hfirst;
    cbn [seq map ascending].
  - exact Hlo.
  - destruct (primary_progress_bounds total (Z.of_nat k) ltac:(lia))
      as (_ & Hhi & Hnext).
    split; [apply Hfirst; discriminate|].
    apply IH; [lia|exact Hhi|].
    intros _. now rewrite Nat2Z.inj_succ, <- Z.add_1_r.
Qed.

Lemma progress_values_app (t1 t2 : list event) :
  progress_values (t1 ++ t2) = progress_values t1 ++ progress_values t2.
Proof. apply flat_map_app. Qed.

Lemma progressless_nil : progressless [].
Proof. reflexivity. Qed.

Lemma progressless_app (t1 t2 : list event) :
  progressless t1 -> progressless t2 -> progressless (t1 ++ t2).
Proof.
  unfold progressless. intros H1 H2. now rewrite progress_values_app, H1, H2.
Qed.

Lemma progressless_split_audio_file (env : Env) (mb : Z) :
  progressless (snd (split_audio_file env mb)).
Proof.
  unfold split_audio_file, export_segment, export.
  walk_trace progressless_nil progressless_app ltac:(reflexivity).
Qed.

Lemma progress_values_attempt (env : Env) (a : artifact) :
  progress_values (attempt_events env a) = [].
Proof. unfold attempt_events. now destruct (remote env a). Qed.

Lemma progress_values_primary_events (env : Env) (total : Z)
    (l : list (Z * artifact)) :
  progress_values (concat (map (primary_events env total) l))
  = map (primary_progress total) (map fst l).
Proof.
  induction l as [|[i a] l IH]; [reflexivity|].
  cbn [map concat fst]. rewrite progress_values_app, IH.
  unfold primary_events. cbn [app progress_values flat_map fst snd].
  change (flat_map _ (attempt_events env a))
    with (progress_values (attempt_events env a)).
  now rewrite progress_values_attempt.
Qed.

Lemma map_fst_combine {A B : Type} (l1 : list A) (l2 : list B) :
  List.length l1 = List.length l2 -> map fst (combine l1 l2) = l1.
Proof.
  revert l2. induction l1 as [|a l1 IH]; intros [|b l2] H; cbn in *;
    try reflexivity; try discriminate.
  f_equal. apply IH. lia.
Qed.

Lemma map_fst_enumerate {A : Type} (l : list A) :
  map fst (enumerate l) = py_range (Z.of_nat (List.length l)).
Proof.
  unfold enumerate. apply map_fst_combine.
  rewrite length_py_range. lia.
Qed.

(** The progress of a primary method that returns. *)
Lemma progress_values_primary (env : Env) (full : pystr) :
  fst (primary env) = Return full ->
  exists total,
    progress_values (snd (primary env))
    = map (primary_progress total) (py_range total) ++ [9 # 10].
Proof.
  rewrite primary_eq.
  pose proof (progressless_split_audio_file env MAX_SEGMENT_SIZE_MB) as Hsplit.
  unfold progressless in Hsplit.
  destruct (fst (split_audio_file env MAX_SEGMENT_SIZE_MB)) as [paths| |];
    [|discriminate|discriminate].
  cbv zeta.
  destruct (fst (for_each _ _ _)) as [t| |] eqn:Hloop; [|discriminate|discriminate].
  pose proof (primary_loop_inv _ _ _ Hloop) as Heq. cbv zeta in Heq.
  rewrite Heq. cbn [fst snd]. intros _.
  exists (Z.of_nat (List.length paths)).
  rewrite progress_values_app, Hsplit. cbn [app].
  change (Status ?s :: ?l) with ([Status s] ++ l).
  rewrite !progress_values_app, progress_values_primary_events, map_fst_enumerate.
  reflexivity.
Qed.

(** Only [st.stop()] stops: the two methods return or raise. *)
Lemma bind_not_stopped {A B : Type} (m : M A) (k : A -> M B) :
  fst m <> Stopped -> (forall a, fst (k a) <> Stopped) ->
  fst (bind m k) <> Stopped.
Proof.
  intros Hm Hk. unfold bind.
  destruct (fst m) as [a|e|]; cbn [fst];
    [apply Hk|discriminate|now contradiction Hm].
Qed.

Lemma for_each_not_stopped {A S : Type} (body : A -> S -> M S) (l : list A) :
  (forall a s, fst (body a s) <> Stopped) ->
  forall s, fst (for_each body l s) <> Stopped.
Proof.
  intros Hbody. induction l as [|a l IH]; intros s; cbn [for_each].
  - discriminate.
  - apply bind_not_stopped; auto.
Qed.

Ltac walk_outcome :=
  repeat match goal with
  | |- fst (bind _ _) <> Stopped => apply bind_not_stopped; [ | intro ]
  | |- fst (for_each _ _ _) <> Stopped => apply for_each_not_stopped; intros
  | |- fst (lift ?r) <> Stopped => destruct r; discriminate
  | |- fst (ret _) <> Stopped => discriminate
  | |- fst (raise _) <> Stopped => discriminate
  | |- fst (emit _) <> Stopped => discriminate
  | |- fst (if ?b then _ else _) <> Stopped => destruct b
  | |- fst (match ?x with _ => _ end) <> Stopped => destruct x
  end.

Lemma primary_not_stopped (env : Env) : fst (primary env) <> Stopped.
Proof.
  unfold primary, split_audio_file, export_segment, export.
  apply bind_not_stopped; [walk_outcome|intro].
  apply bind_not_stopped; [discriminate|intro].
  apply bind_not_stopped; [|intro; walk_outcome].
  apply for_each_not_stopped. intros [i seg] s. rewrite primary_body_eq.
  destruct (Qeq_bool _ _); [discriminate|].
  destruct (open_ok env seg); discriminate.
Qed.

(** Where the alternative method is not entered, the progress reported never
    goes down and stays between 0 and 1: the single-shot path and the primary
    loop do what the alternative loop does not. *)
Lemma progress_without_fallback (env : Env) :
  ~ In (ShowInfo MsgTryingAlternative) (snd (run env)) ->
  nondecreasing (progress_values (snd (run env))) = true
  /\ forallb in_unit_interval (progress_values (snd (run env))) = true.
Proof.
  intros Hno. apply ascending_unit_interval. revert Hno. rewrite run_eq.
  destruct (py_gt _ _); [intros _; cbn; lra|].
  destruct (setup_ok env); [|intros _; cbn; lra].
  destruct (supported _); [|intros _; cbn; lra].
  cbv zeta. destruct (Qle_bool _ _).
  - intros _. rewrite single_shot_eq.
    destruct (open_ok env SourceFile); [destruct (remote env SourceFile)|];
      cbn; repeat split; lra.
  - rewrite multi_segment_eq.
    destruct (fst (primary env)) as [full|e|] eqn:Hp.
    + intros _. destruct (progress_values_primary env full Hp) as [total Hpv].
      cbn [fst snd app progress_values flat_map].
      change (flat_map _ (snd (primary env) ++ ?l))
        with (progress_values (snd (primary env) ++ l)).
      rewrite progress_values_app, Hpv. cbn [progress_values flat_map app].
      split; [lra|]. split; [lra|].
      rewrite <- app_assoc. cbn [app].
      apply ascending_app with (9 # 10); [|cbn; repeat split; lra].
      unfold py_range.
      destruct (Z.to_nat total) as [|m] eqn:Hm; [cbn; lra|].
      apply ascending_primary_progress; [lia|lra|].
      intros _. apply (primary_progress_bounds total 0). lia.
    + intros Hno. exfalso. apply Hno. cbv zeta.
      destruct (fst (fallback env)); cbn [fst snd];
        cbn [In app]; rewrite ?in_app_iff; cbn [In]; auto 10.
    + now destruct (primary_not_stopped env).
Qed.

(** C7 fails on the code: the decoder of the primary method raises, the
    alternative method makes two segments, and the progress reported goes
    0, 0.1, 0.1, 0.5, 0.3, 0.7, 1: it drops from 0.5 to 0.3. *)
Theorem fallback_progress_goes_back :
  fst (run env_fallback_two) = Return (Some (text_hi ++ [SPACE] ++ text_hi))
  /\ map Qred (progress_values (snd (run env_fallback_two)))
     = [0; 1 # 10; 1 # 10; 1 # 2; 3 # 10; 7 # 10; 1]%Q
  /\ forallb in_unit_interval (progress_values (snd (run env_fallback_two))) = true
  /\ nondecreasing (progress_values (snd (run env_fallback_two))) = false.
Proof. vm_compute. repeat split. Qed.

(** ** A run from end to end *)

(** A 30,000,000-byte mp3 of 100 seconds: two segments, both transcribed. *)
Example run_all_ok :
  fst (run env_all_ok) = Return (Some (text_hi ++ [SPACE] ++ text_hi))
  /\ calls (snd (run env_all_ok))
     = [ Decode ByFormat;
         Export (PrimarySegment 0) 0 87381;
         Export (PrimarySegment 1) 87381 100000;
         RemoteCall (PrimarySegment 0); Remove (PrimarySegment 0) true;
         RemoteCall (PrimarySegment 1); Remove (PrimarySegment 1) true;
         Sleep ]
  /\ map Qred (progress_values (snd (run env_all_ok)))
     = [0; 1 # 10; 1 # 10; 1 # 2; 9 # 10; 1]%Q.
Proof. vm_compute. repeat split. Qed.

(** ** What [split_audio_file] exports *)

Lemma split_audio_file_eq (env : Env) (mb : Z) :
  split_audio_file env mb
  = if supported (upload_format env)
    then match primary_duration env with
         | None => (Raised ValueError, [Decode ByFormat])
         | Some d =>
             match py_truediv (inject_Z (upload_size env)) (inject_Z d) with
             | Raise e => (Raised e, [Decode ByFormat])
             | Ok bytes_per_ms =>
                 match split_plan (mb * BYTES_PER_MB) bytes_per_ms d with
                 | Raise e => (Raised e, [Decode ByFormat])
                 | Ok specs =>
                     (fst (for_each (export_segment env) specs []),
                      Decode ByFormat
                      :: snd (for_each (export_segment env) specs []))
                 end
             end
         end
    else (Raised ValueError, []).
Proof.
  unfold split_audio_file.
  destruct (supported (upload_format env)); [|reflexivity]. cbn [negb].
  rewrite bind_emit.
  destruct (primary_duration env) as [d|]; [|reflexivity].
  destruct (py_truediv _ _) as [bpm|e]; [|reflexivity].
  cbn [lift]. rewrite bind_ret.
  destruct (split_plan _ bpm d) as [specs|e]; [|reflexivity].
  cbn [lift]. rewrite bind_ret. reflexivity.
Qed.

Lemma concat_singletons {A B : Type} (f : A -> B) (l : list A) :
  concat (map (fun a => [f a]) l) = map f l.
Proof.
  induction l as [|a l IH]; [reflexivity|]. cbn [map concat app]. now f_equal.
Qed.

Lemma export_loop_inv (env : Env) (specs : list SegmentSpec) (paths : list artifact) :
  fst (for_each (export_segment env) specs []) = Return paths ->
  for_each (export_segment env) specs []
  = (Return (map (fun s => PrimarySegment (index s)) specs),
     map export_event specs).
Proof.
  intros Hret.
  rewrite (for_each_inv (export_segment env)
             (fun s acc => acc ++ [PrimarySegment (index s)])
             (fun s => [export_event s])
             specs
             (fun s acc t _ H => export_segment_inv env s acc t H)
             _ _ Hret).
  rewrite (fold_snoc (fun s => PrimarySegment (index s))). cbn [app].
  now rewrite concat_singletons.
Qed.

Lemma exported_ranges_app (t1 t2 : list event) :
  exported_ranges (t1 ++ t2) = exported_ranges t1 ++ exported_ranges t2.
Proof. apply flat_map_app. Qed.

Lemma exported_ranges_export_events (specs : list SegmentSpec) :
  exported_ranges (map export_event specs) = specs.
Proof.
  induction specs as [|[i a b] specs IH]; [reflexivity|].
  cbn [map]. change (export_event ?s :: ?l) with ([export_event s] ++ l).
  rewrite exported_ranges_app, IH. reflexivity.
Qed.

Lemma bytes_per_ms_positive (size d : Z) :
  0 < size -> 0 < d -> (0 < inject_Z size / inject_Z d)%Q.
Proof.
  intros Hs Hd. apply Qlt_shift_div_l.
  - change 0%Q with (inject_Z 0). rewrite <- Zlt_Qlt. exact Hd.
  - rewrite Qmult_0_l. change 0%Q with (inject_Z 0). rewrite <- Zlt_Qlt. exact Hs.
Qed.

(** A plan that exists has segments of at least one millisecond. *)
Lemma split_plan_ok_inv (budget : Z) (bytes_per_ms : Q) (total_ms : Z)
    (specs : list SegmentSpec) :
  0 < total_ms ->
  (0 < bytes_per_ms)%Q ->
  0 <= budget ->
  split_plan budget bytes_per_ms total_ms = Ok specs ->
  exists size_ms,
    1 <= size_ms
    /\ size_ms = Z.min (Qfloor (inject_Z budget / bytes_per_ms)) total_ms
    /\ specs = plan_ranges size_ms total_ms
                 (Qceiling (inject_Z total_ms / inject_Z size_ms))
    /\ plan_ok total_ms specs.
Proof.
  intros Ht Hb Hbud Hplan.
  destruct (Qlt_le_dec (inject_Z budget) bytes_per_ms) as [Hlt|Hle].
  - destruct (split_plan_raises budget bytes_per_ms total_ms Ht Hbud Hlt)
      as [_ Hraise]. congruence.
  - destruct (split_plan_eq budget bytes_per_ms total_ms Ht Hb Hle)
      as (Hd & _ & _ & Heq).
    rewrite Heq in Hplan. injection Hplan as <-.
    exists (Z.min (Qfloor (inject_Z budget / bytes_per_ms)) total_ms).
    split; [exact Hd|]. split; [reflexivity|]. split; [reflexivity|].
    apply plan_ranges_ok; [|apply Qceiling_div_bounds];
      apply Z.lt_le_trans with 1; [reflexivity|exact Hd|reflexivity|exact Hd].
Qed.

(** What [split_audio_file] did when it returns: it decoded the source,
    planned, and exported the whole plan. *)
Lemma split_audio_file_returns (env : Env) (mb d : Z) (paths : list artifact) :
  primary_duration env = Some d ->
  0 <= d ->
  0 < upload_size env ->
  0 <= mb ->
  fst (split_audio_file env mb) = Return paths ->
  exists specs size_ms,
    0 < d
    /\ 1 <= size_ms
    /\ size_ms = Z.min (Qfloor (inject_Z (mb * BYTES_PER_MB)
                                / (inject_Z (upload_size env) / inject_Z d))) d
    /\ specs = plan_ranges size_ms d (Qceiling (inject_Z d / inject_Z size_ms))
    /\ plan_ok d specs
    /\ split_audio_file env mb
       = (Return (map (fun s => PrimarySegment (index s)) specs),
          Decode ByFormat :: map export_event specs).
Proof.
  intros Hd Hd0 Hsize Hmb. rewrite split_audio_file_eq, Hd.
  destruct (supported _); [|discriminate].
  destruct (Z.eq_dec d 0) as [->|Hnz]; [discriminate|].
  assert (Hdpos : 0 < d) by lia.
  rewrite py_truediv_ok by (apply inject_Z_nonzero; exact Hnz).
  destruct (split_plan _ _ d) as [specs|] eqn:Hplan; [|discriminate].
  cbn [fst]. intros Hret.
  assert (Hbud : 0 <= mb * BYTES_PER_MB) by (unfold BYTES_PER_MB; lia).
  destruct (split_plan_ok_inv _ _ _ _ Hdpos
              (bytes_per_ms_positive _ _ Hsize Hdpos) Hbud Hplan)
    as (size_ms & Hge & Heq & Hspecs & Hok).
  exists specs, size_ms. repeat (split; [assumption|]).
  rewrite (export_loop_inv env specs paths Hret). reflexivity.
Qed.

(** Lines 122-131: when [split_audio_file] returns, the ranges it exported
    are a partition of the decoded source, and the paths it returns are those
    of the exported segments, one per range and in the same order. *)
Theorem split_exports_partition (env : Env) (mb d : Z) (paths : list artifact) :
  primary_duration env = Some d ->
  0 <= d ->
  0 < upload_size env ->
  0 <= mb ->
  fst (split_audio_file env mb) = Return paths ->
  plan_ok d (exported_ranges (snd (split_audio_file env mb)))
  /\ paths = map (fun s => PrimarySegment (index s))
                 (exported_ranges (snd (split_audio_file env mb)))
  /\ exports (snd (split_audio_file env mb)) = paths.
Proof.
  intros Hd Hd0 Hsize Hmb Hret.
  destruct (split_audio_file_returns env mb d paths Hd Hd0 Hsize Hmb Hret)
    as (specs & size_ms & _ & _ & _ & _ & Hok & Heq).
  rewrite Heq in Hret |- *. cbn [fst snd] in *. injection Hret as <-.
  change (Decode ByFormat :: ?l) with ([Decode ByFormat] ++ l).
  rewrite exported_ranges_app, exported_ranges_export_events. cbn [app exported_ranges flat_map].
  split; [exact Hok|]. split; [reflexivity|].
  unfold exports. cbn [flat_map app].
  clear. induction specs as [|s specs IH]; [reflexivity|].
  cbn [map flat_map export_event app]. now f_equal.
Qed.

Lemma split_exports_partition_witness :
  plan_ok 100000 (exported_ranges (snd (split_audio_file env_all_ok 25)))
  /\ [PrimarySegment 0; PrimarySegment 1]
     = map (fun s => PrimarySegment (index s))
           (exported_ranges (snd (split_audio_file env_all_ok 25)))
  /\ exports (snd (split_audio_file env_all_ok 25))
     = [PrimarySegment 0; PrimarySegment 1].
Proof.
  apply (split_exports_partition env_all_ok 25 100000
           [PrimarySegment 0; PrimarySegment 1]).
  - reflexivity.
  - lia.
  - reflexivity.
  - lia.
  - reflexivity.
Defined.

(** Lines 108-120: a source reported as empty, or so short that one
    millisecond of it outweighs the budget, makes [split_audio_file] raise
    [ZeroDivisionError] right after decoding, before anything is exported. *)
Theorem split_audio_file_zero_division (env : Env) (mb d : Z) :
  supported (upload_format env) = true ->
  primary_duration env = Some d ->
  0 <= d ->
  0 <= mb ->
  mb * BYTES_PER_MB * d < upload_size env ->
  split_audio_file env mb = (Raised ZeroDivisionError, [Decode ByFormat]).
Proof.
  intros Hfmt Hd Hd0 Hmb Hshort. rewrite split_audio_file_eq, Hfmt, Hd.
  destruct (Z.eq_dec d 0) as [->|Hnz]; [reflexivity|].
  assert (Hdpos : 0 < d) by lia.
  assert (Hbud : 0 <= mb * BYTES_PER_MB) by (unfold BYTES_PER_MB; lia).
  assert (Hsize : 0 < upload_size env) by nia.
  rewrite py_truediv_ok by (apply inject_Z_nonzero; exact Hnz).
  assert (Hlt : (inject_Z (mb * BYTES_PER_MB)
                 < inject_Z (upload_size env) / inject_Z d)%Q).
  { apply Qlt_shift_div_l.
    - change 0%Q with (inject_Z 0). rewrite <- Zlt_Qlt. exact Hdpos.
    - rewrite <- inject_Z_mult, <- Zlt_Qlt. exact Hshort. }
  destruct (split_plan_raises _ _ d Hdpos Hbud Hlt) as [_ ->]. reflexivity.
Qed.

Lemma split_audio_file_zero_division_witness :
  split_audio_file env_short_source 25
  = (Raised ZeroDivisionError, [Decode ByFormat]).
Proof.
  apply (split_audio_file_zero_division env_short_source 25 1).
  - reflexivity.
  - reflexivity.
  - lia.
  - lia.
  - reflexivity.
Defined.

(** Lines 194 and 213: the handler splits only uploads above the budget, so
    a split that succeeds there has cut the source in at least two
    segments. *)
Theorem handler_split_has_two_segments (env : Env) (d : Z) (paths : list artifact) :
  MAX_SEGMENT_SIZE_MB * BYTES_PER_MB < upload_size env ->
  primary_duration env = Some d ->
  0 <= d ->
  fst (split_audio_file env MAX_SEGMENT_SIZE_MB) = Return paths ->
  (2 <= List.length paths)%nat.
Proof.
  intros Hbig Hd Hd0 Hret.
  assert (Hsize : 0 < upload_size env)
    by (unfold MAX_SEGMENT_SIZE_MB, BYTES_PER_MB in Hbig; lia).
  destruct (split_audio_file_returns env MAX_SEGMENT_SIZE_MB d paths Hd Hd0 Hsize
              ltac:(unfold MAX_SEGMENT_SIZE_MB; lia) Hret)
    as (specs & size_ms & Hdpos & Hge & Hsz & Hspecs & _ & Heq).
  rewrite Heq in Hret. cbn [fst] in Hret. injection Hret as <-.
  rewrite length_map, Hspecs. unfold plan_ranges.
  rewrite length_map, length_py_range.
  pose proof (bytes_per_ms_positive _ _ Hsize Hdpos) as Hb.
  assert (Hq : (inject_Z (MAX_SEGMENT_SIZE_MB * BYTES_PER_MB)
                / (inject_Z (upload_size env) / inject_Z d) < inject_Z d)%Q).
  { apply Qlt_shift_div_r; [exact Hb|].
    setoid_replace (inject_Z d * (inject_Z (upload_size env) / inject_Z d))%Q
      with (inject_Z (upload_size env)).
    - rewrite <- Zlt_Qlt. exact Hbig.
    - apply Qmult_div_r. apply inject_Z_nonzero. lia. }
  assert (Hfloor : Qfloor (inject_Z (MAX_SEGMENT_SIZE_MB * BYTES_PER_MB)
                           / (inject_Z (upload_size env) / inject_Z d)) < d).
  { rewrite Zlt_Qlt. eapply Qle_lt_trans; [apply Qfloor_le|exact Hq]. }
  destruct (Qceiling_div_bounds d size_ms ltac:(lia)) as [_ Hhi].
  assert (2 <= Qceiling (inject_Z d / inject_Z size_ms)); [nia|lia].
Qed.

Lemma handler_split_has_two_segments_witness :
  (2 <= List.length [PrimarySegment 0; PrimarySegment 1])%nat.
Proof.
  apply (handler_split_has_two_segments env_all_ok 100000).
  - reflexivity.
  - reflexivity.
  - lia.
  - reflexivity.
Defined.

(** ** The alternative plan *)

(** Lines 247-253: the five-minute ranges of the alternative method are a
    partition of any source of positive duration, the last range being what
    remains. *)
Theorem fallback_plan_partition (d : Z) :
  0 < d ->
  exists count,
    segments_count d segment_length_ms = Ok count
    /\ 1 <= count
    /\ (count - 1) * segment_length_ms < d <= count * segment_length_ms
    /\ plan_ok d (plan_ranges segment_length_ms d count).
Proof.
  intros Hd. rewrite fallback_count. eexists. split; [reflexivity|].
  pose proof (Qceiling_div_bounds d segment_length_ms ltac:(reflexivity)) as Hb.
  split; [|split; [exact Hb|]].
  - unfold segment_length_ms in *. lia.
  - apply plan_ranges_ok; [reflexivity|exact Hb].
Qed.

Lemma fallback_plan_partition_witness :
  exists count,
    segments_count 400000 segment_length_ms = Ok count
    /\ 1 <= count
    /\ (count - 1) * segment_length_ms < 400000 <= count * segment_length_ms
    /\ plan_ok 400000 (plan_ranges segment_length_ms 400000 count).
Proof. apply (fallback_plan_partition 400000). lia. Defined.

(** Lines 255-263: what the alternative method exports, when all its
    segments can be exported and opened, is that partition. *)
Theorem fallback_exports_partition (env : Env) (d : Z) :
  fallback_duration env = Some d ->
  0 < d ->
  (forall i, 0 <= i < Qceiling (inject_Z d / inject_Z segment_length_ms) ->
     export_ok env (FallbackSegment i) = true
     /\ open_ok env (FallbackSegment i) = true) ->
  plan_ok d (exported_ranges (snd (fallback env)))
  /\ exports (snd (fallback env)) = remote_calls (snd (fallback env)).
Proof.
  intros Hd Hpos Hok. rewrite (fallback_returns env d Hd Hok). cbn [snd].
  set (count := Qceiling (inject_Z d / inject_Z segment_length_ms)).
  assert (Hranges : forall l,
             exported_ranges (concat (map (fallback_events env d count) l))
             = map (segment_spec segment_length_ms d) l).
  { induction l as [|i l IH]; [reflexivity|].
    cbn [map concat]. rewrite exported_ranges_app, IH. f_equal.
    unfold fallback_events, attempt_events.
    destruct (remote env (FallbackSegment i)); reflexivity. }
  assert (Hexp : forall l,
             exports (concat (map (fallback_events env d count) l))
             = map FallbackSegment l).
  { induction l as [|i l IH]; [reflexivity|].
    cbn [map concat]. unfold exports in *. rewrite flat_map_app, IH. f_equal.
    unfold fallback_events, attempt_events.
    destruct (remote env (FallbackSegment i)); reflexivity. }
  split.
  - change (Decode ByProbe :: ?l) with ([Decode ByProbe] ++ l).
    rewrite exported_ranges_app, Hranges. cbn [exported_ranges flat_map app].
    apply plan_ranges_ok; [reflexivity|].
    apply Qceiling_div_bounds. reflexivity.
  - transitivity (map FallbackSegment (py_range count)).
    + change (exports (Decode ByProbe :: ?l)) with (exports l). apply Hexp.
    + change (remote_calls (Decode ByProbe :: ?l)) with (remote_calls l).
      symmetry. apply remote_calls_fallback_events.
Qed.

Lemma fallback_exports_partition_witness :
  plan_ok 400000 (exported_ranges (snd (fallback env_fallback_two)))
  /\ exports (snd (fallback env_fallback_two))
     = remote_calls (snd (fallback env_fallback_two)).
Proof.
  apply (fallback_exports_partition env_fallback_two 400000).
  - reflexivity.
  - lia.
  - intros i Hi. split; reflexivity.
Defined.

(** ** Uploads within the budget *)

(** Lines 194-206: an upload within the segment budget is never decoded,
    split or exported, and nothing is removed; the only collaborator call a
    run can make for it is one remote call on the saved upload. *)
Theorem small_upload_single_call (env : Env) :
  upload_size env <= MAX_SEGMENT_SIZE_MB * BYTES_PER_MB ->
  calls (snd (run env)) = []
  \/ calls (snd (run env)) = [RemoteCall SourceFile].
Proof.
  intros Hsize. rewrite run_eq.
  destruct (py_gt _ _); [now left|].
  destruct (setup_ok env); [|now left].
  destruct (supported _); [|now left].
  assert (Ele : Qle_bool (file_size_mb env) (inject_Z MAX_SEGMENT_SIZE_MB) = true)
    by (apply single_shot_iff; exact Hsize).
  rewrite Ele. cbv zeta. rewrite single_shot_eq.
  destruct (open_ok env SourceFile); [destruct (remote env SourceFile)|];
    cbn; auto.
Qed.

Lemma small_upload_single_call_witness :
  calls (snd (run (env_of_size (10 * 1048576)))) = []
  \/ calls (snd (run (env_of_size (10 * 1048576)))) = [RemoteCall SourceFile].
Proof.
  apply (small_upload_single_call (env_of_size (10 * 1048576))).
  vm_compute. discriminate.
Defined.

(** Lines 198-205 and 302-303: the single remote call of a small upload is
    not guarded as the calls on segments are.  When the service rejects it
    the error reaches the outer handler: the run shows the error and no
    transcript, after exactly one remote call. *)
Theorem single_shot_failure_is_fatal (env : Env) (e : remote_error) :
  upload_size env <= MAX_SEGMENT_SIZE_MB * BYTES_PER_MB ->
  setup_ok env = true ->
  supported (upload_format env) = true ->
  open_ok env SourceFile = true ->
  remote env SourceFile = RemoteErr e ->
  run env
  = (Return None,
     [Progress 0; Status Analysing; Status SingleSegment; Progress (2 # 10);
      RemoteCall SourceFile; ShowError (MsgRunFailed (RemoteError e))]).
Proof.
  intros Hsize Hsetup Hfmt Hopen Hremote. rewrite run_eq.
  destruct (py_gt _ _) eqn:Egt.
  { apply oversize_iff in Egt.
    unfold MAX_SEGMENT_SIZE_MB, MAX_UPLOAD_SIZE_MB, BYTES_PER_MB in *. lia. }
  assert (Ele : Qle_bool (file_size_mb env) (inject_Z MAX_SEGMENT_SIZE_MB) = true)
    by (apply single_shot_iff; exact Hsize).
  rewrite Hsetup, Hfmt, Ele. cbv zeta.
  rewrite single_shot_eq, Hopen, Hremote. reflexivity.
Qed.

Lemma single_shot_failure_is_fatal_witness :
  run env_small_rejected
  = (Return None,
     [Progress 0; Status Analysing; Status SingleSegment; Progress (2 # 10);
      RemoteCall SourceFile; ShowError (MsgRunFailed (RemoteError AuthError))]).
Proof.
  apply (single_shot_failure_is_fatal env_small_rejected AuthError).
  - vm_compute. discriminate.
  - reflexivity.
  - reflexivity.
  - reflexivity.
  - reflexivity.
Defined.

(** ** An empty source in the alternative method *)

(** Lines 244-251 and 283-292: when the primary method raises and the other
    decoder reports a source of 0ms, the alternative loop does not run; the
    run shows the empty transcript as a success, without any remote call of
    the alternative method. *)
Theorem empty_source_shows_empty_transcript (env : Env) (e : exn) :
  multi_segment_request env ->
  fst (primary env) = Raised e ->
  fallback_duration env = Some 0 ->
  fst (run env) = Return (Some [])
  /\ transcribed (snd (run env)) = []
  /\ exports (snd (fallback env)) = [].
Proof.
  intros Hreq Hp Hd.
  pose proof (run_after_primary_failure env e Hreq Hp) as Hrun.
  cbv zeta in Hrun.
  assert (Hf : fallback env = (Return [], [Decode ByProbe]))
    by (rewrite fallback_eq, Hd; reflexivity).
  rewrite Hf in Hrun |- *. cbn [fst snd] in Hrun.
  assert (Htr : snd (run env)
                = ([Progress 0; Status Analysing; Status Splitting; Progress (1 # 10)]
                   ++ snd (primary env) ++ [ShowError (MsgSegmentsFailed e)])
                  ++ ShowInfo MsgTryingAlternative
                  :: [Decode ByProbe; Progress 1; Status Finished; ShowResult []])
    by (rewrite Hrun; cbn [snd app]; rewrite <- !app_assoc; reflexivity).
  split; [now rewrite Hrun|]. split; [|reflexivity].
  rewrite Htr, transcribed_restart. reflexivity.
Qed.

Lemma empty_source_shows_empty_transcript_witness :
  fst (run env_empty_fallback) = Return (Some [])
  /\ transcribed (snd (run env_empty_fallback)) = []
  /\ exports (snd (fallback env_empty_fallback)) = [].
Proof.
  apply (empty_source_shows_empty_transcript env_empty_fallback ValueError).
  - unfold multi_segment_request. cbn. repeat split; lia.
  - reflexivity.
  - reflexivity.
Defined.

(** ** The verdict of a run *)

Lemma unjudged_nil : unjudged [].
Proof. reflexivity. Qed.

Lemma unjudged_app (t1 t2 : list event) :
  unjudged t1 -> unjudged t2 -> unjudged (t1 ++ t2).
Proof. unfold unjudged. intros H1 H2. now rewrite filter_app, H1, H2. Qed.

Lemma unjudged_primary (env : Env) : unjudged (snd (primary env)).
Proof.
  unfold primary, split_audio_file, export_segment, export.
  apply (P_bind _ unjudged_app);
    [walk_trace unjudged_nil unjudged_app ltac:(reflexivity)|intro].
  apply (P_bind _ unjudged_app); [reflexivity|intro].
  apply (P_bind _ unjudged_app);
    [|intro; walk_trace unjudged_nil unjudged_app ltac:(reflexivity)].
  apply (P_for_each _ unjudged_nil unjudged_app). intros [i seg] s.
  unfold primary_body, transcribe_segment, remove.
  walk_trace unjudged_nil unjudged_app ltac:(reflexivity).
Qed.

Lemma unjudged_fallback (env : Env) : unjudged (snd (fallback env)).
Proof.
  unfold fallback.
  apply (P_bind _ unjudged_app); [reflexivity|intro].
  destruct (fallback_duration env); [|reflexivity].
  apply (P_bind _ unjudged_app); [apply (P_lift _ unjudged_nil)|intro].
  apply (P_for_each _ unjudged_nil unjudged_app). intros i s.
  unfold fallback_body, export, transcribe_segment, remove. cbv zeta.
  walk_trace unjudged_nil unjudged_app ltac:(reflexivity).
Qed.

Lemma fallback_not_stopped (env : Env) : fst (fallback env) <> Stopped.
Proof.
  rewrite fallback_eq. destruct (fallback_duration env) as [d|]; [|discriminate].
  cbv zeta. cbn [fst].
  apply for_each_not_stopped. intros i s. rewrite fallback_body_eq.
  destruct (Qeq_bool _ _); [discriminate|].
  destruct (export_ok env _); [|discriminate].
  destruct (open_ok env _); discriminate.
Qed.

(** Lines 161-303: every run closes with exactly one verdict, after
    everything else it does: the transcript when the handler has one, the
    error of the outer handler when an exception reached it (the hints that
    may follow it are not part of the trace), or the message before an
    [st.stop()].  No exception leaves the handler. *)
Theorem every_run_ends_with_one_verdict (env : Env) :
  exists pre v,
    snd (run env) = pre ++ [v]
    /\ unjudged pre
    /\ is_verdict v = true
    /\ verdict_of (fst (run env)) v.
Proof.
  rewrite run_eq.
  destruct (py_gt _ _).
  { exists [], (ShowError MsgTooLarge). cbn. repeat split. now left. }
  destruct (setup_ok env).
  2:{ exists [Progress 0], (ShowError (MsgRunFailed SetupError)). cbn.
      repeat split. now exists SetupError. }
  destruct (supported _).
  2:{ exists [Progress 0; Status Analysing], (ShowError MsgUnsupportedFormat).
      cbn. repeat split. right. now left. }
  cbv zeta.
  assert (Hbranch : forall (m : M pystr),
             unjudged (snd m) -> fst m <> Stopped ->
             exists pre v,
               snd match fst m with
                   | Return full =>
                       (Return (Some (strip full)),
                        Progress 0 :: Status Analysing :: snd m
                        ++ [Progress 1; Status Finished; ShowResult (strip full)])
                   | Raised e =>
                       (Return None,
                        Progress 0 :: Status Analysing :: snd m
                        ++ [ShowError (MsgRunFailed e)])
                   | Stopped => (Stopped, Progress 0 :: Status Analysing :: snd m)
                   end = pre ++ [v]
               /\ unjudged pre
               /\ is_verdict v = true
               /\ verdict_of
                    (fst match fst m with
                         | Return full =>
                             (Return (Some (strip full)),
                              Progress 0 :: Status Analysing :: snd m
                              ++ [Progress 1; Status Finished; ShowResult (strip full)])
                         | Raised e =>
                             (Return None,
                              Progress 0 :: Status Analysing :: snd m
                              ++ [ShowError (MsgRunFailed e)])
                         | Stopped =>
                             (Stopped, Progress 0 :: Status Analysing :: snd m)
                         end) v).
  { intros m Hm Hns. destruct (fst m) as [full|e|]; cbn [fst snd].
    - exists ([Progress 0; Status Analysing] ++ snd m ++ [Progress 1; Status Finished]),
        (ShowResult (strip full)).
      split; [cbn [app]; rewrite <- app_assoc; reflexivity|].
      split; [|split; reflexivity].
      repeat apply unjudged_app; try reflexivity; exact Hm.
    - exists ([Progress 0; Status Analysing] ++ snd m), (ShowError (MsgRunFailed e)).
      split; [reflexivity|]. split; [|split; [reflexivity|now exists e]].
      apply unjudged_app; [reflexivity|exact Hm].
    - contradiction. }
  destruct (Qle_bool _ _).
  - rewrite single_shot_eq.
    destruct (open_ok env SourceFile); [destruct (remote env SourceFile)|];
      cbn [fst snd app].
    + do 2 eexists. split;
        [change (?a :: ?b :: ?c :: ?d :: ?e :: ?f :: ?g :: ?h :: [?v])
           with ([a; b; c; d; e; f; g; h] ++ [v]); reflexivity|].
      repeat split.
    + do 2 eexists. split;
        [change (?a :: ?b :: ?c :: ?d :: ?e :: [?v])
           with ([a; b; c; d; e] ++ [v]); reflexivity|].
      repeat split. eexists; reflexivity.
    + do 2 eexists. split;
        [change (?a :: ?b :: ?c :: ?d :: [?v])
           with ([a; b; c; d] ++ [v]); reflexivity|].
      repeat split. eexists; reflexivity.
  - rewrite multi_segment_eq.
    pose proof (unjudged_primary env) as Hup.
    pose proof (unjudged_fallback env) as Huf.
    destruct (fst (primary env)) as [full|e|] eqn:Hp.
    + apply (Hbranch (Return full, Status Splitting :: Progress (1 # 10)
                                   :: snd (primary env))).
      * cbn [snd]. change (?a :: ?b :: ?l) with ([a; b] ++ l).
        apply unjudged_app; [reflexivity|exact Hup].
      * discriminate.
    + cbv zeta. destruct (fst (fallback env)) as [full|alt|] eqn:Hf.
      * match goal with
        | |- context [fst (Return full, ?tr)] =>
            apply (Hbranch (Return full, tr))
        end; [|discriminate].
        cbn [snd]. change (?a :: ?b :: ?l) with ([a; b] ++ l).
        repeat apply unjudged_app; try reflexivity; assumption.
      * cbn [fst snd].
        exists ([Progress 0; Status Analysing; Status Splitting; Progress (1 # 10)]
                ++ snd (primary env)
                ++ [ShowError (MsgSegmentsFailed e); ShowInfo MsgTryingAlternative]
                ++ snd (fallback env)),
          (ShowError (MsgAlternativeFailed alt)).
        split; [cbn [app]; rewrite <- !app_assoc; reflexivity|].
        split; [|split; [reflexivity|right; right; now exists alt]].
        repeat apply unjudged_app; try reflexivity; assumption.
      * now destruct (fallback_not_stopped env).
    + now destruct (primary_not_stopped env).
Qed.

(** ** What [strip] leaves *)

Lemma lstrip_decomp (s : pystr) :
  exists w, s = w ++ lstrip s /\ blank w = true.
Proof.
  induction s as [|c s [w [Hs Hw]]].
  - now exists [].
  - cbn [lstrip]. destruct (isspace c) eqn:Hc.
    + exists (c :: w). split; [cbn [app]; now f_equal|].
      unfold blank in *. cbn [forallb]. now rewrite Hc.
    + now exists [].
Qed.

Lemma lstrip_head (s : pystr) (c : N) (r : pystr) :
  lstrip s = c :: r -> isspace c = false.
Proof.
  induction s as [|c' s IH]; cbn [lstrip]; [discriminate|].
  destruct (isspace c') eqn:Hc; [exact IH|]. now intros [= <- _].
Qed.

Lemma lstrip_fixed (s : pystr) :
  match s with [] => True | c :: _ => isspace c = false end ->
  lstrip s = s.
Proof. destruct s as [|c s]; [reflexivity|]. cbn [lstrip]. now intros ->. Qed.

Lemma rstrip_decomp (s : pystr) :
  exists w, s = rstrip s ++ w /\ blank w = true.
Proof.
  unfold rstrip. destruct (lstrip_decomp (rev s)) as [w [Hs Hw]].
  exists (rev w). split; [|now rewrite blank_rev].
  rewrite <- rev_app_distr, <- Hs. now rewrite rev_involutive.
Qed.

Lemma last_rev_cons (s : pystr) (c d : N) : last (rev (c :: s)) d = c.
Proof. cbn [rev]. apply last_last. Qed.

Lemma rstrip_last (s : pystr) :
  rstrip s <> [] -> isspace (last (rstrip s) SPACE) = false.
Proof.
  unfold rstrip. destruct (lstrip (rev s)) as [|c r] eqn:H; [now intros []|].
  intros _. rewrite last_rev_cons. eapply lstrip_head; eassumption.
Qed.

Lemma rstrip_fixed (s : pystr) :
  s <> [] -> isspace (last s SPACE) = false -> rstrip s = s.
Proof.
  intros Hne Hlast. unfold rstrip.
  rewrite lstrip_fixed; [apply rev_involutive|].
  destruct (rev s) as [|c r] eqn:Hrev; [exact I|].
  assert (Hs : s = rev (c :: r)) by (now rewrite <- Hrev, rev_involutive).
  rewrite Hs, last_rev_cons in Hlast. exact Hlast.
Qed.

Lemma hd_app_nonempty (s w : pystr) (c : N) (r : pystr) :
  s ++ w = c :: r -> s <> [] -> exists r', s = c :: r'.
Proof.
  destruct s as [|c' s]; [now intros _ []|].
  cbn [app]. intros [= -> _] _. now exists s.
Qed.

Lemma strip_edge_clean (s : pystr) : edge_clean (strip s) = true.
Proof.
  unfold strip, edge_clean.
  destruct (rstrip (lstrip s)) as [|c r] eqn:Hr; [reflexivity|].
  apply andb_true_iff. split; apply negb_true_iff.
  - destruct (rstrip_decomp (lstrip s)) as [w [Hs _]]. rewrite Hr in Hs.
    cbn [app] in Hs. eapply lstrip_head. exact Hs.
  - rewrite <- Hr. apply rstrip_last. now rewrite Hr.
Qed.

Lemma strip_fixed (s : pystr) : edge_clean s = true -> strip s = s.
Proof.
  unfold edge_clean, strip. destruct s as [|c s]; [reflexivity|].
  intros H. apply andb_true_iff in H as [Hc Hl].
  apply negb_true_iff in Hc, Hl.
  rewrite lstrip_fixed by exact Hc.
  apply rstrip_fixed; [discriminate|exact Hl].
Qed.

(** Line 283 and Python's [str.strip]: the argument is the stripped text
    between two runs of white space, the stripped text has no white space at
    either end, and stripping again changes nothing. *)
Theorem strip_spec (s : pystr) :
  (exists w1 w2,
      s = w1 ++ strip s ++ w2 /\ blank w1 = true /\ blank w2 = true)
  /\ edge_clean (strip s) = true
  /\ strip (strip s) = strip s.
Proof.
  split; [|split].
  - destruct (lstrip_decomp s) as [w1 [Hs1 Hw1]].
    destruct (rstrip_decomp (lstrip s)) as [w2 [Hs2 Hw2]].
    exists w1, w2. unfold strip. now rewrite <- Hs2.
  - apply strip_edge_clean.
  - apply strip_fixed, strip_edge_clean.
Qed.

(** Lines 283-292: the transcript a run shows never starts or ends with
    white space. *)
Theorem shown_transcript_is_trimmed (env : Env) (t : pystr) :
  fst (run env) = Return (Some t) ->
  edge_clean t = true /\ strip t = t.
Proof.
  intros Hrun.
  assert (Ht : exists full, t = strip full).
  { destruct (run_completed env t Hrun)
      as [(text & _ & _ & Ht & _)
         |[(full & _ & _ & Ht & _)|(e & full & _ & _ & _ & Ht & _)]];
      eexists; exact Ht. }
  destruct Ht as [full ->].
  split; [apply strip_edge_clean|apply strip_fixed, strip_edge_clean].
Qed.

Lemma shown_transcript_is_trimmed_witness :
  edge_clean text_hi = true /\ strip text_hi = text_hi.
Proof.
  apply (shown_transcript_is_trimmed env_one_failure text_hi). reflexivity.
Defined.

(** ** Texts joined by single spaces *)

Lemma joined_join_with_space (texts : list pystr) :
  texts <> [] -> joined texts = join_with_space texts ++ [SPACE].
Proof.
  induction texts as [|t texts IH]; [now intros []|]. intros _.
  unfold joined in *. cbn [map concat join_with_space].
  destruct texts as [|t' texts]; [cbn; now rewrite app_nil_r|].
  rewrite IH by discriminate.
  change (SPACE :: ?l) with ([SPACE] ++ l). now rewrite <- !app_assoc.
Qed.

Lemma last_app_nonempty (s w : pystr) (d : N) :
  w <> [] -> last (s ++ w) d = last w d.
Proof.
  intros Hw. induction s as [|c s IH]; [reflexivity|].
  cbn [app last]. destruct (s ++ w) eqn:H; [|exact IH].
  apply app_eq_nil in H as [_ ->]. now destruct Hw.
Qed.

Lemma join_with_space_edge_clean (texts : list pystr) :
  Forall (fun t => t <> [] /\ edge_clean t = true) texts ->
  edge_clean (join_with_space texts) = true
  /\ (texts <> [] -> join_with_space texts <> []).
Proof.
  induction 1 as [|t texts [Hne Ht] _ [IH1 IH2]]; [split; [reflexivity|now intros []]|].
  cbn [join_with_space]. destruct texts as [|t' texts]; [now split|].
  split; [|intros _ H; apply app_eq_nil in H as [H _]; contradiction].
  destruct t as [|c t]; [now destruct Hne|].
  unfold edge_clean in Ht |- *. cbn [app].
  apply andb_true_iff in Ht as [Hc _]. apply andb_true_iff. split; [exact Hc|].
  change (c :: t ++ SPACE :: ?j) with ((c :: t) ++ [SPACE] ++ j).
  pose proof (IH2 ltac:(discriminate)) as Hj.
  rewrite !last_app_nonempty by (try exact Hj; destruct (join_with_space (t' :: texts)); discriminate).
  unfold edge_clean in IH1.
  destruct (join_with_space (t' :: texts)) as [|c' j]; [now destruct Hj|].
  now apply andb_true_iff in IH1 as [_ IH1].
Qed.

(** Lines 219-226 and 283: when every fragment is a non-empty text with no
    white space at its ends, the transcript built by the loop and stripped is
    the fragments separated by exactly one space. *)
Theorem trimmed_fragments_are_joined_by_one_space (texts : list pystr) :
  Forall (fun t => t <> [] /\ edge_clean t = true) texts ->
  strip (joined texts) = join_with_space texts.
Proof.
  intros Hall. destruct texts as [|t texts]; [reflexivity|].
  rewrite joined_join_with_space by discriminate.
  rewrite strip_app_space. apply strip_fixed.
  now apply join_with_space_edge_clean.
Qed.

Lemma trimmed_fragments_are_joined_by_one_space_witness :
  strip (joined [text_hi; text_yo]) = join_with_space [text_hi; text_yo].
Proof.
  apply (trimmed_fragments_are_joined_by_one_space [text_hi; text_yo]).
  repeat constructor; discriminate.
Defined.

(** ** Progress is a fraction *)

Lemma bounded_progress_nil : bounded_progress [].
Proof. constructor. Qed.

Lemma bounded_progress_app (t1 t2 : list event) :
  bounded_progress t1 -> bounded_progress t2 -> bounded_progress (t1 ++ t2).
Proof.
  unfold bounded_progress. intros H1 H2.
  rewrite progress_values_app. apply Forall_app. now split.
Qed.

Lemma bounded_progress_progressless (tr : list event) :
  progressless tr -> bounded_progress tr.
Proof. unfold progressless, bounded_progress. intros ->. constructor. Qed.

Lemma ratio_in_unit (i n : Z) :
  0 <= i < n -> (0 <= inject_Z i / inject_Z n <= 1)%Q.
Proof.
  intros Hi.
  assert (Hn : (0 < inject_Z n)%Q)
    by (change 0%Q with (inject_Z 0); rewrite <- Zlt_Qlt; lia).
  split.
  - apply Qle_shift_div_l; [exact Hn|]. rewrite Qmult_0_l.
    change 0%Q with (inject_Z 0). rewrite <- Zle_Qle. lia.
  - apply Qle_shift_div_r; [exact Hn|]. rewrite Qmult_1_l.
    rewrite <- Zle_Qle. lia.
Qed.

Lemma bounded_progress_primary_body (env : Env) (total i : Z) (a : artifact)
    (s : pystr) :
  0 <= i < total ->
  bounded_progress (snd (primary_body env total (i, a) s)).
Proof.
  intros Hi. rewrite primary_body_eq.
  destruct (Qeq_bool _ _); [constructor|].
  destruct (ratio_in_unit i total Hi) as [H0 H1].
  destruct (open_ok env a); cbn [snd]; unfold bounded_progress, primary_events;
    cbn [app progress_values flat_map fst snd].
  - change (flat_map _ (attempt_events env a))
      with (progress_values (attempt_events env a)).
    rewrite progress_values_attempt. repeat constructor; lra.
  - repeat constructor; lra.
Qed.

Lemma bounded_progress_fallback_body (env : Env) (d count i : Z) (s : pystr) :
  0 <= i < count ->
  bounded_progress (snd (fallback_body env d count i s)).
Proof.
  intros Hi. rewrite fallback_body_eq.
  destruct (Qeq_bool _ _); [constructor|].
  destruct (ratio_in_unit i count Hi) as [H0 H1].
  destruct (export_ok env _); [destruct (open_ok env _)|]; cbn [snd];
    unfold bounded_progress, fallback_events;
    cbn [app firstn progress_values flat_map].
  - change (flat_map _ (attempt_events env (FallbackSegment i)))
      with (progress_values (attempt_events env (FallbackSegment i))).
    rewrite progress_values_attempt. repeat constructor; lra.
  - repeat constructor; lra.
  - repeat constructor; lra.
Qed.

Ltac bounded_leaf :=
  unfold bounded_progress; cbn [emit snd progress_values flat_map app];
  repeat constructor; lra.

Lemma bounded_progress_primary (env : Env) : bounded_progress (snd (primary env)).
Proof.
  unfold primary.
  apply (P_bind _ bounded_progress_app);
    [apply bounded_progress_progressless, progressless_split_audio_file|intro].
  apply (P_bind _ bounded_progress_app); [bounded_leaf|intro].
  apply (P_bind _ bounded_progress_app);
    [|intro; walk_trace bounded_progress_nil bounded_progress_app bounded_leaf].
  apply for_each_trace_in;
    [apply bounded_progress_nil|apply bounded_progress_app|].
  intros [i seg] s Hin. apply in_enumerate in Hin as [_ Hi].
  now apply bounded_progress_primary_body.
Qed.

Lemma bounded_progress_fallback (env : Env) : bounded_progress (snd (fallback env)).
Proof.
  rewrite fallback_eq. destruct (fallback_duration env) as [d|]; [|constructor].
  cbv zeta. cbn [snd]. change (Decode ByProbe :: ?l) with ([Decode ByProbe] ++ l).
  apply bounded_progress_app; [constructor|].
  apply for_each_trace_in;
    [apply bounded_progress_nil|apply bounded_progress_app|].
  intros i s Hin. apply in_py_range in Hin.
  now apply bounded_progress_fallback_body.
Qed.

(** Every value passed to [progress_bar.progress], on every path of the
    handler and the alternative method included, is a fraction between 0 and
    1. *)
Theorem progress_is_a_fraction (env : Env) :
  Forall (fun p => (0 <= p <= 1)%Q) (progress_values (snd (run env))).
Proof.
  change (bounded_progress (snd (run env))). unfold run.
  destruct (py_gt _ _);
    [walk_trace bounded_progress_nil bounded_progress_app bounded_leaf|].
  apply (P_bind _ bounded_progress_app); [bounded_leaf|intro].
  apply (P_try_except _ bounded_progress_app);
    [|intro; walk_trace bounded_progress_nil bounded_progress_app bounded_leaf].
  unfold transcribe_upload.
  apply (P_bind _ bounded_progress_app);
    [walk_trace bounded_progress_nil bounded_progress_app bounded_leaf|intro].
  apply (P_bind _ bounded_progress_app); [bounded_leaf|intro].
  destruct (negb _);
    [walk_trace bounded_progress_nil bounded_progress_app bounded_leaf|].
  apply (P_bind _ bounded_progress_app);
    [|intro; walk_trace bounded_progress_nil bounded_progress_app bounded_leaf].
  destruct (Qle_bool _ _).
  - unfold single_shot.
    walk_trace bounded_progress_nil bounded_progress_app bounded_leaf.
  - unfold multi_segment.
    do 2 (apply (P_bind _ bounded_progress_app); [bounded_leaf|intro]).
    apply (P_try_except _ bounded_progress_app);
      [apply bounded_progress_primary|intro].
    do 2 (apply (P_bind _ bounded_progress_app); [bounded_leaf|intro]).
    apply (P_try_except _ bounded_progress_app);
      [apply bounded_progress_fallback|intro].
    walk_trace bounded_progress_nil bounded_progress_app bounded_leaf.
Qed.

Lemma progress_without_fallback_witness :
  nondecreasing (progress_values (snd (run env_one_failure))) = true
  /\ forallb in_unit_interval (progress_values (snd (run env_one_failure))) = true.
Proof.
  apply (progress_without_fallback env_one_failure).
  vm_compute. intros H.
  repeat (destruct H as [H|H]; [discriminate H|]). exact H.
Defined.

(** ** No segment is submitted twice *)

Lemma snd_bind_cases {A B : Type} (m : M A) (k : A -> M B) :
  (exists a, snd (bind m k) = snd m ++ snd (k a)) \/ snd (bind m k) = snd m.
Proof.
  unfold bind. destruct (fst m) as [a|e|]; cbn [snd]; [left; now exists a|now right..].
Qed.

Lemma for_each_remote_calls {A S : Type} (body : A -> S -> M S)
    (g : A -> artifact) (l : list A) :
  (forall a s, In a l ->
     remote_calls (snd (body a s)) = []
     \/ remote_calls (snd (body a s)) = [g a]) ->
  NoDup (map g l) ->
  forall s,
    NoDup (remote_calls (snd (for_each body l s)))
    /\ incl (remote_calls (snd (for_each body l s))) (map g l).
Proof.
  induction l as [|a l IH]; intros Hbody Hnd s; cbn [for_each map].
  - split; [constructor|intros x []].
  - inversion Hnd as [|? ? Hnotin Hnd']; subst.
    assert (Hhead : NoDup (remote_calls (snd (body a s)))
                    /\ incl (remote_calls (snd (body a s))) (g a :: map g l)).
    { destruct (Hbody a s (or_introl eq_refl)) as [->| ->].
      - split; [constructor|intros x []].
      - split; [repeat constructor; intros []|intros x [<-|[]]; now left]. }
    destruct (snd_bind_cases (body a s) (fun s' => for_each body l s'))
      as [[s' ->]| ->]; [|exact Hhead].
    destruct (IH (fun a0 s0 H => Hbody a0 s0 (or_intror H)) Hnd' s')
      as [Hnd_rest Hincl].
    rewrite remote_calls_app. split.
    + apply NoDup_app; [apply Hhead|exact Hnd_rest|].
      intros x Hx Hx'. apply Hincl in Hx'.
      destruct (Hbody a s (or_introl eq_refl)) as [H|H]; rewrite H in Hx;
        [destruct Hx|].
      destruct Hx as [<-|[]]. contradiction.
    + apply incl_app; [apply Hhead|]. intros x Hx. right. now apply Hincl.
Qed.

Lemma remote_calls_primary_body (env : Env) (total i : Z) (a : artifact)
    (s : pystr) :
  remote_calls (snd (primary_body env total (i, a) s)) = []
  \/ remote_calls (snd (primary_body env total (i, a) s)) = [a].
Proof.
  rewrite primary_body_eq.
  destruct (Qeq_bool _ _); [now left|].
  destruct (open_ok env a); [right|now left].
  cbn [snd]. unfold primary_events. cbn [app remote_calls flat_map snd].
  apply remote_calls_attempt.
Qed.

Lemma remote_calls_fallback_body (env : Env) (d count i : Z) (s : pystr) :
  remote_calls (snd (fallback_body env d count i s)) = []
  \/ remote_calls (snd (fallback_body env d count i s)) = [FallbackSegment i].
Proof.
  rewrite fallback_body_eq.
  destruct (Qeq_bool _ _); [now left|].
  destruct (export_ok env _); [|now left].
  destruct (open_ok env _); [right|now left].
  cbn [snd]. unfold fallback_events. cbn [app remote_calls flat_map].
  apply remote_calls_attempt.
Qed.

Lemma NoDup_primary_segments (n : Z) : NoDup (map PrimarySegment (py_range n)).
Proof.
  apply NoDup_map_injective; [|apply NoDup_py_range].
  intros x y H. now injection H.
Qed.

Lemma NoDup_fallback_segments (n : Z) : NoDup (map FallbackSegment (py_range n)).
Proof.
  apply NoDup_map_injective; [|apply NoDup_py_range].
  intros x y H. now injection H.
Qed.

Lemma remote_calls_primary_distinct (env : Env) :
  NoDup (remote_calls (snd (primary env)))
  /\ Forall is_primary_segment (remote_calls (snd (primary env))).
Proof.
  rewrite primary_eq.
  pose proof (silent_split_audio_file env MAX_SEGMENT_SIZE_MB) as Hsilent.
  unfold silent in Hsilent.
  destruct (fst (split_audio_file env MAX_SEGMENT_SIZE_MB)) as [paths| |] eqn:Hs;
    cbn [snd]; try (rewrite Hsilent; split; constructor).
  destruct (split_audio_file_inv _ _ _ Hs) as [n ->]. cbv zeta.
  set (paths := map PrimarySegment (py_range n)).
  destruct (for_each_remote_calls
              (primary_body env (Z.of_nat (List.length paths)))
              snd (enumerate paths)
              (fun item s _ =>
                 match item with
                 | (i, a) => remote_calls_primary_body env _ i a s
                 end)
              ltac:(rewrite map_snd_enumerate; apply NoDup_primary_segments)
              []) as [Hnd Hincl].
  rewrite map_snd_enumerate in Hincl.
  assert (Hcalls : forall tail,
             remote_calls tail = [] ->
             remote_calls
               (snd (split_audio_file env MAX_SEGMENT_SIZE_MB)
                ++ Status (SplitInto (Z.of_nat (List.length paths)))
                :: snd (for_each (primary_body env (Z.of_nat (List.length paths)))
                                 (enumerate paths) []) ++ tail)
             = remote_calls
                 (snd (for_each (primary_body env (Z.of_nat (List.length paths)))
                                (enumerate paths) []))).
  { intros tail Htail. rewrite remote_calls_app, Hsilent. cbn [app].
    change (Status ?x :: ?l) with ([Status x] ++ l).
    rewrite !remote_calls_app, Htail. cbn. now rewrite app_nil_r. }
  assert (Hprim : Forall is_primary_segment
                    (remote_calls
                       (snd (for_each
                               (primary_body env (Z.of_nat (List.length paths)))
                               (enumerate paths) [])))).
  { apply Forall_forall. intros x Hx. apply Hincl in Hx.
    apply in_map_iff in Hx as [i [<- _]]. exact I. }
  destruct (fst (for_each _ _ _)); cbn [snd].
  - rewrite (Hcalls [Progress (9 # 10); Status Finalising; Sleep] eq_refl).
    now split.
  - rewrite <- (app_nil_r (snd (for_each _ _ _))), (Hcalls [] eq_refl).
    now split.
  - rewrite <- (app_nil_r (snd (for_each _ _ _))), (Hcalls [] eq_refl).
    now split.
Qed.

Lemma remote_calls_fallback_distinct (env : Env) :
  NoDup (remote_calls (snd (fallback env)))
  /\ Forall (fun a => ~ is_primary_segment a) (remote_calls (snd (fallback env))).
Proof.
  rewrite fallback_eq. destruct (fallback_duration env) as [d|];
    [|split; constructor].
  cbv zeta. cbn [snd].
  change (remote_calls (Decode ByProbe :: ?l)) with (remote_calls l).
  destruct (for_each_remote_calls
              (fallback_body env d (Qceiling (inject_Z d / inject_Z segment_length_ms)))
              FallbackSegment
              (py_range (Qceiling (inject_Z d / inject_Z segment_length_ms)))
              (fun i s _ => remote_calls_fallback_body env d _ i s)
              (NoDup_fallback_segments _) []) as [Hnd Hincl].
  split; [exact Hnd|].
  apply Forall_forall. intros x Hx. apply Hincl in Hx.
  apply in_map_iff in Hx as [i [<- _]]. intros [].
Qed.

Lemma remote_calls_skip (ev : event) (tr : list event) :
  (forall a, ev <> RemoteCall a) ->
  remote_calls (ev :: tr) = remote_calls tr.
Proof.
  intros H. destruct ev; try reflexivity. now destruct (H a).
Qed.

Ltac skip_to_remote_calls :=
  repeat first [ rewrite remote_calls_app
               | rewrite remote_calls_skip by (intros ? ?; discriminate) ];
  change (remote_calls []) with (@nil artifact);
  rewrite ?app_nil_r.

(** Lines 148-155, 198-203, 220-226 and 251-271: there is no retry.  In
    every run each artifact is submitted to the remote service at most
    once, a failed call included, and also when the alternative method
    starts over after the primary loop had transcribed some segments. *)
Theorem no_artifact_is_submitted_twice (env : Env) :
  NoDup (remote_calls (snd (run env))).
Proof.
  rewrite run_eq.
  destruct (py_gt _ _); [constructor|].
  destruct (setup_ok env); [|constructor].
  destruct (supported _); [|constructor].
  cbv zeta.
  assert (Hbranch : forall (m : M pystr),
             NoDup (remote_calls (snd m)) ->
             NoDup (remote_calls
                      (snd match fst m with
                           | Return full =>
                               (Return (Some (strip full)),
                                Progress 0 :: Status Analysing :: snd m
                                ++ [Progress 1; Status Finished;
                                    ShowResult (strip full)])
                           | Raised e =>
                               (Return None,
                                Progress 0 :: Status Analysing :: snd m
                                ++ [ShowError (MsgRunFailed e)])
                           | Stopped =>
                               (Stopped, Progress 0 :: Status Analysing :: snd m)
                           end))).
  { intros m Hm. destruct (fst m); cbn [snd]; skip_to_remote_calls; exact Hm. }
  apply Hbranch. destruct (Qle_bool _ _).
  - rewrite single_shot_eq.
    destruct (open_ok env SourceFile); [destruct (remote env SourceFile)|];
      cbn; repeat constructor; intros [].
  - rewrite multi_segment_eq.
    destruct (remote_calls_primary_distinct env) as [Hnp Hp].
    destruct (remote_calls_fallback_distinct env) as [Hnf Hf].
    assert (Hboth : NoDup (remote_calls (snd (primary env))
                           ++ remote_calls (snd (fallback env)))).
    { apply NoDup_app; [exact Hnp|exact Hnf|].
      intros x Hx Hx'. rewrite Forall_forall in Hp, Hf.
      exact (Hf x Hx' (Hp x Hx)). }
    destruct (fst (primary env)) as [full|e|]; cbn [snd];
      try (skip_to_remote_calls; exact Hnp).
    cbv zeta.
    destruct (fst (fallback env)); cbn [snd]; skip_to_remote_calls; exact Hboth.
Qed.

(** ** Segment files do not collide *)

Lemma chars_inj (s t : string) : chars s = chars t -> s = t.
Proof.
  unfold chars. intros H. apply (f_equal string_of_list_ascii) in H.
  now rewrite !string_of_list_ascii_of_string in H.
Qed.

Lemma to_int_proper (i : Z) :
  Z.to_int i <> Decimal.Pos Decimal.Nil /\ Z.to_int i <> Decimal.Neg Decimal.Nil.
Proof.
  destruct i as [|p|p]; cbn [Z.to_int]; split; try discriminate;
    intros [= H]; exact (DecimalPos.Unsigned.to_uint_nonnil p H).
Qed.

Lemma py_str_int_inj (i j : Z) : py_str_int i = py_str_int j -> i = j.
Proof.
  unfold py_str_int. intros H. apply chars_inj in H.
  apply (f_equal NilZero.int_of_string) in H.
  destruct (to_int_proper i) as [Hi1 Hi2]. destruct (to_int_proper j) as [Hj1 Hj2].
  rewrite !NilZero.isi in H by assumption. injection H as H.
  apply (f_equal Z.of_int) in H. now rewrite !DecimalZ.of_to in H.
Qed.

Lemma segment_name_inj (prefix : path) (i j : Z) :
  prefix ++ py_str_int i ++ chars ".wav" = prefix ++ py_str_int j ++ chars ".wav" ->
  i = j.
Proof.
  intros H. apply app_inv_head in H. apply app_inv_tail in H.
  now apply py_str_int_inj.
Qed.

Lemma path_join_relative (a : path) :
  exists a', forall i,
    path_join a (chars "segment_" ++ py_str_int i ++ chars ".wav")
    = a' ++ py_str_int i ++ chars ".wav".
Proof.
  unfold path_join. cbn [chars list_ascii_of_string app].
  destruct a as [|c a].
  - exists (chars "segment_"). reflexivity.
  - destruct (Ascii.eqb (last (c :: a) "/"%char) "/"%char).
    + exists ((c :: a) ++ chars "segment_"). intros i.
      now rewrite <- app_assoc.
    + exists ((c :: a) ++ "/"%char :: chars "segment_"). intros i.
      now rewrite <- app_assoc.
Qed.

(** Lines 127 and 256: the file names of the segments.  Two segments of the
    same upload never share a file, in either method, and a segment of the
    primary method is never written over the upload itself. *)
Theorem segment_files_are_distinct (file_path temp_dir : path) (i j : Z) :
  (segment_path file_path i = segment_path file_path j -> i = j)
  /\ (temp_segment_path temp_dir i = temp_segment_path temp_dir j -> i = j)
  /\ segment_path file_path i <> file_path.
Proof.
  split; [|split].
  - unfold segment_path. rewrite !(app_assoc file_path).
    apply segment_name_inj.
  - unfold temp_segment_path.
    destruct (path_join_relative temp_dir) as [a' Ha]. rewrite !Ha.
    apply segment_name_inj.
  - unfold segment_path. intros H.
    rewrite <- (app_nil_r file_path) in H at 2.
    apply app_inv_head in H. discriminate H.
Qed.

Lemma segment_files_are_distinct_witness :
  (3 = 3 /\ 3 = 3)
  /\ segment_path (chars "/tmp/x/talk.mp3") 3 = chars "/tmp/x/talk.mp3_segment_3.wav"
  /\ temp_segment_path (chars "/tmp/x") 3 = chars "/tmp/x/segment_3.wav".
Proof.
  split; [|split; reflexivity].
  split.
  - apply (proj1 (segment_files_are_distinct (chars "/tmp/x/talk.mp3") [] 3 3)).
    reflexivity.
  - apply (proj1 (proj2 (segment_files_are_distinct [] (chars "/tmp/x") 3 3))).
    reflexivity.
Defined.

(** ** The two format checks agree *)

Lemma rfind_spec (c : ascii) (s : path) :
  (rfind c s = -1 /\ ~ In c s)
  \/ (exists pre post,
        s = pre ++ c :: post /\ ~ In c post
        /\ rfind c s = Z.of_nat (List.length pre)).
Proof.
  induction s as [|x s IH]; [left; split; [reflexivity|intros []]|].
  cbn [rfind].
  destruct IH as [[Hr Hnot]|(pre & post & Hs & Hpost & Hr)]; rewrite Hr.
  - cbn [Z.leb Z.compare]. destruct (Ascii.eqb_spec x c) as [->|Hne].
    + right. exists [], s. repeat split; assumption.
    + left. split; [reflexivity|]. intros [H|H]; [now apply Hne|now apply Hnot].
  - right. exists (x :: pre), post.
    replace (0 <=? Z.of_nat (List.length pre)) with true
      by (symmetry; apply Z.leb_le; lia).
    split; [cbn [app]; now f_equal|]. split; [exact Hpost|].
    cbn [List.length]. lia.
Qed.

Lemma rfind_lower_bound (c : ascii) (s : path) : -1 <= rfind c s.
Proof.
  destruct (rfind_spec c s) as [[-> _]|(pre & post & _ & _ & ->)]; lia.
Qed.

Lemma split_on_nonempty (c : ascii) (s : path) : split_on c s <> [].
Proof.
  destruct s as [|x s]; cbn [split_on]; [discriminate|].
  destruct (Ascii.eqb x c); [discriminate|].
  destruct (split_on c s); discriminate.
Qed.

Lemma split_on_without (c : ascii) (s : path) : ~ In c s -> split_on c s = [s].
Proof.
  induction s as [|x s IH]; intros Hnot; [reflexivity|].
  cbn [split_on]. destruct (Ascii.eqb_spec x c) as [->|Hne].
  - destruct Hnot. now left.
  - rewrite IH; [reflexivity|]. intros H. apply Hnot. now right.
Qed.

Lemma split_on_app (c : ascii) (pre post : path) :
  split_on c (pre ++ c :: post) = split_on c pre ++ split_on c post.
Proof.
  induction pre as [|x pre IH]; cbn [app split_on].
  - now rewrite Ascii.eqb_refl.
  - rewrite IH. destruct (Ascii.eqb x c); [reflexivity|].
    destruct (split_on c pre) as [|piece pieces] eqn:H; [|reflexivity].
    now destruct (split_on_nonempty c pre).
Qed.

(** The last piece of a split is what follows the last separator. *)
Lemma last_split_on (c : ascii) (pre post : path) :
  ~ In c post -> last (split_on c (pre ++ c :: post)) [] = post.
Proof.
  intros Hnot. rewrite split_on_app, (split_on_without c post Hnot).
  apply last_last.
Qed.

Lemma skipn_length_app {A : Type} (l1 l2 : list A) :
  skipn (List.length l1) (l1 ++ l2) = l2.
Proof. induction l1 as [|a l1 IH]; [reflexivity|exact IH]. Qed.

(** An extension that [splitext] finds is what follows the last dot. *)
Lemma splitext_extension (p : path) :
  snd (splitext p) = []
  \/ exists pre post,
       p = pre ++ "."%char :: post
       /\ ~ In "."%char post
       /\ snd (splitext p) = "."%char :: post.
Proof.
  unfold splitext. cbv zeta.
  destruct (_ && _) eqn:Hcond; [|now left].
  apply andb_true_iff in Hcond as [Hlt _]. apply Z.ltb_lt in Hlt.
  pose proof (rfind_lower_bound "/"%char p) as Hsep.
  destruct (rfind_spec "."%char p) as [[Hr _]|(pre & post & Hp & Hpost & Hr)];
    [lia|].
  right. exists pre, post. split; [exact Hp|]. split; [exact Hpost|].
  cbn [snd]. rewrite Hr, Nat2Z.id. rewrite Hp at 1. apply skipn_length_app.
Qed.

(** Lines 83-88 and 186-191: the handler and [split_audio_file] read the
    format of the same path in two ways.  Whenever the handler finds an
    extension, [split_audio_file] reads the same format; so once the handler
    has accepted the upload, the format check of [split_audio_file] cannot
    fail.  (Upper case is lowered on the letters of ASCII.) *)
Theorem handler_format_check_covers_split (p : path) :
  (format_by_splitext p <> [] -> format_by_split p = format_by_splitext p)
  /\ (supported_path (format_by_splitext p) = true ->
      supported_path (format_by_split p) = true).
Proof.
  assert (Hagree : format_by_splitext p <> [] ->
                   format_by_split p = format_by_splitext p).
  { unfold format_by_splitext, format_by_split.
    destruct (splitext_extension p) as [->|(pre & post & Hp & Hpost & ->)];
      [now intros []|].
    intros _. rewrite Hp, (last_split_on _ pre post Hpost). reflexivity. }
  split; [exact Hagree|].
  intros Hsup. rewrite Hagree; [exact Hsup|].
  intros Hnil. rewrite Hnil in Hsup. discriminate Hsup.
Qed.

Lemma handler_format_check_covers_split_witness :
  format_by_split (chars "/tmp/x.y/Talk.One.MP3") = chars "mp3"
  /\ supported_path (format_by_split (chars "/tmp/x.y/Talk.One.MP3")) = true.
Proof.
  split.
  - rewrite (proj1 (handler_format_check_covers_split
                      (chars "/tmp/x.y/Talk.One.MP3"))); [reflexivity|].
    vm_compute. discriminate.
  - apply (proj2 (handler_format_check_covers_split
                    (chars "/tmp/x.y/Talk.One.MP3"))).
    reflexivity.
Defined.

(** The handler is the stricter of the two: a file named ".mp3" has no
    extension for [splitext] and is refused, though its last piece is
    "mp3". *)
Example hidden_file_has_no_extension :
  format_by_splitext (chars "/tmp/x/.mp3") = []
  /\ format_by_split (chars "/tmp/x/.mp3") = chars "mp3".
Proof. split; reflexivity. Qed.

(** ** Properties of traces, attempt by attempt *)

(** A property of traces that holds of the empty trace, of concatenations,
    of every event outside the attempts, of a whole attempt on a segment and
    of the single call on the upload, holds of every run. *)
Section RunTraces.

Variable env : Env.
Variable P : list event -> Prop.
Hypothesis P_nil : P [].
Hypothesis P_app : forall t1 t2, P t1 -> P t2 -> P (t1 ++ t2).
Hypothesis P_plain : forall ev, is_attempt_event ev = false -> P [ev].
Hypothesis P_attempt : forall a, is_segment a = true -> P (attempt_events env a).
Hypothesis P_source : P [RemoteCall SourceFile].

Lemma P_plain_list (l : list event) :
  forallb (fun ev => negb (is_attempt_event ev)) l = true -> P l.
Proof.
  induction l as [|ev l IH]; [intros _; exact P_nil|].
  cbn [forallb]. intros H. apply andb_true_iff in H as [H1 H2].
  change (ev :: l) with ([ev] ++ l). apply P_app; [|now apply IH].
  apply P_plain. now apply negb_true_iff.
Qed.

Lemma P_split_audio_file (mb : Z) : P (snd (split_audio_file env mb)).
Proof.
  unfold split_audio_file, export_segment, export.
  walk_trace P_nil P_app ltac:(apply P_plain; reflexivity).
Qed.

Lemma P_primary_body (total i : Z) (a : artifact) (s : pystr) :
  is_segment a = true -> P (snd (primary_body env total (i, a) s)).
Proof.
  intros Ha. rewrite primary_body_eq.
  destruct (Qeq_bool _ _); [exact P_nil|].
  destruct (open_ok env a); cbn [snd].
  - unfold primary_events. apply P_app; [now apply P_plain_list|now apply P_attempt].
  - now apply P_plain_list.
Qed.

Lemma P_fallback_body (d count i : Z) (s : pystr) :
  P (snd (fallback_body env d count i s)).
Proof.
  rewrite fallback_body_eq.
  destruct (Qeq_bool _ _); [exact P_nil|].
  destruct (export_ok env _); [destruct (open_ok env _)|]; cbn [snd].
  - unfold fallback_events. apply P_app; [now apply P_plain_list|now apply P_attempt].
  - now apply P_plain_list.
  - now apply P_plain_list.
Qed.

Lemma P_primary : P (snd (primary env)).
Proof.
  rewrite primary_eq.
  pose proof (P_split_audio_file MAX_SEGMENT_SIZE_MB) as Hsplit.
  destruct (fst (split_audio_file env MAX_SEGMENT_SIZE_MB)) as [paths| |] eqn:Hs;
    [|exact Hsplit|exact Hsplit].
  destruct (split_audio_file_inv _ _ _ Hs) as [n ->]. cbv zeta.
  assert (Hloop : P (snd (for_each
                            (primary_body env
                               (Z.of_nat (List.length (map PrimarySegment (py_range n)))))
                            (enumerate (map PrimarySegment (py_range n))) []))).
  { apply for_each_trace_in; [exact P_nil|exact P_app|].
    intros [i a] s Hin. apply in_enumerate in Hin as [Hin _].
    apply in_map_iff in Hin as [j [<- _]]. now apply P_primary_body. }
  destruct (fst (for_each _ _ _)); cbn [snd];
    change (Status ?x :: ?l) with ([Status x] ++ l);
    repeat first [ exact Hsplit | exact Hloop | apply P_app ];
    now apply P_plain_list.
Qed.

Lemma P_fallback : P (snd (fallback env)).
Proof.
  rewrite fallback_eq. destruct (fallback_duration env) as [d|];
    [|now apply P_plain_list].
  cbv zeta. cbn [snd]. change (Decode ByProbe :: ?l) with ([Decode ByProbe] ++ l).
  apply P_app; [now apply P_plain_list|].
  apply (P_for_each _ P_nil P_app). intros i s. apply P_fallback_body.
Qed.

Lemma P_run : P (snd (run env)).
Proof.
  unfold run.
  destruct (py_gt _ _);
    [walk_trace P_nil P_app ltac:(apply P_plain; reflexivity)|].
  apply (P_bind _ P_app); [apply P_plain; reflexivity|intro].
  apply (P_try_except _ P_app);
    [|intro; walk_trace P_nil P_app ltac:(apply P_plain; reflexivity)].
  unfold transcribe_upload.
  apply (P_bind _ P_app);
    [walk_trace P_nil P_app ltac:(apply P_plain; reflexivity)|intro].
  apply (P_bind _ P_app); [apply P_plain; reflexivity|intro].
  destruct (negb _);
    [walk_trace P_nil P_app ltac:(apply P_plain; reflexivity)|].
  apply (P_bind _ P_app);
    [|intro; walk_trace P_nil P_app ltac:(apply P_plain; reflexivity)].
  destruct (Qle_bool _ _).
  - rewrite single_shot_eq.
    destruct (open_ok env SourceFile); [destruct (remote env SourceFile)|];
      cbn [snd].
    + change (P ([Status SingleSegment; Progress (2 # 10)]
                 ++ [RemoteCall SourceFile] ++ [Progress 1])).
      repeat apply P_app; try exact P_source; now apply P_plain_list.
    + change (P ([Status SingleSegment; Progress (2 # 10)]
                 ++ [RemoteCall SourceFile])).
      apply P_app; [now apply P_plain_list|exact P_source].
    + now apply P_plain_list.
  - unfold multi_segment.
    do 2 (apply (P_bind _ P_app); [apply P_plain; reflexivity|intro]).
    apply (P_try_except _ P_app); [apply P_primary|intro].
    do 2 (apply (P_bind _ P_app); [apply P_plain; reflexivity|intro]).
    apply (P_try_except _ P_app); [apply P_fallback|intro].
    walk_trace P_nil P_app ltac:(apply P_plain; reflexivity).
Qed.

End RunTraces.

Lemma plain_event_is_quiet (ev : event) :
  is_attempt_event ev = false ->
  remote_calls [ev] = [] /\ removals [ev] = [] /\ failed_segments [ev] = [].
Proof.
  destruct ev as [p|s|m|m|t|d|x f t|x|x b|]; try discriminate;
    try (intros _; repeat split; reflexivity).
  destruct m; try discriminate; intros _; repeat split; reflexivity.
Qed.

Lemma removals_app (t1 t2 : list event) :
  removals (t1 ++ t2) = removals t1 ++ removals t2.
Proof. apply flat_map_app. Qed.


(** Lines 148-158: the failures shown for segments are exactly the submitted
    segments that the service rejected, each once and in the order of the
    calls; no rejection stays silent and nothing else is reported as one. *)
Theorem rejected_segments_are_reported (env : Env) :
  failed_segments (snd (run env))
  = failing env (filter is_segment (remote_calls (snd (run env)))).
Proof.
  apply (P_run env
           (fun tr => failed_segments tr
                      = failing env (filter is_segment (remote_calls tr)))).
  - reflexivity.
  - intros t1 t2 H1 H2.
    now rewrite failed_segments_app, remote_calls_app, filter_app, failing_app,
      H1, H2.
  - intros ev Hev. destruct (plain_event_is_quiet ev Hev) as (-> & _ & ->).
    reflexivity.
  - intros a Ha. rewrite failed_segments_attempt, remote_calls_attempt.
    cbn [filter]. now rewrite Ha.
  - reflexivity.
Qed.


(** ** The primary method exports everything first *)

Lemma exports_app (t1 t2 : list event) :
  exports (t1 ++ t2) = exports t1 ++ exports t2.
Proof. apply flat_map_app. Qed.

Lemma exports_attempt (env : Env) (a : artifact) :
  exports (attempt_events env a) = [].
Proof. unfold attempt_events. now destruct (remote env a). Qed.

Lemma exports_primary_body (env : Env) (total : Z) (item : Z * artifact)
    (s : pystr) :
  exports (snd (primary_body env total item s)) = [].
Proof.
  destruct item as [i a]. rewrite primary_body_eq.
  destruct (Qeq_bool _ _); [reflexivity|].
  destruct (open_ok env a); [|reflexivity].
  cbn [snd]. unfold primary_events. rewrite exports_app, exports_attempt.
  reflexivity.
Qed.

(** Lines 213-226: the primary method exports every segment of the plan
    before it submits the first one: its trace is the split, which makes no
    remote call and removes nothing, followed by the loop, which exports
    nothing. *)
Theorem primary_exports_before_submitting (env : Env) :
  exists split_part loop_part,
    snd (primary env) = split_part ++ loop_part
    /\ split_part = snd (split_audio_file env MAX_SEGMENT_SIZE_MB)
    /\ remote_calls split_part = []
    /\ removals split_part = []
    /\ exports loop_part = [].
Proof.
  rewrite primary_eq.
  pose proof (silent_split_audio_file env MAX_SEGMENT_SIZE_MB) as Hsilent.
  assert (Hkeep : removals (snd (split_audio_file env MAX_SEGMENT_SIZE_MB)) = []).
  { apply (P_split_audio_file env (fun tr => removals tr = [])).
    - reflexivity.
    - intros t1 t2 H1 H2. now rewrite removals_app, H1, H2.
    - intros ev Hev. now destruct (plain_event_is_quiet ev Hev) as (_ & -> & _). }
  assert (Hloop : forall total items s,
             exports (snd (for_each (primary_body env total) items s)) = []).
  { intros total items s.
    apply (P_for_each (fun tr => exports tr = [])).
    - reflexivity.
    - intros t1 t2 H1 H2. now rewrite exports_app, H1, H2.
    - intros item s'. apply exports_primary_body. }
  destruct (fst (split_audio_file env MAX_SEGMENT_SIZE_MB)) as [paths| |];
    try (exists (snd (split_audio_file env MAX_SEGMENT_SIZE_MB)), [];
         cbn [snd]; rewrite app_nil_r; repeat split; assumption).
  cbv zeta.
  destruct (fst (for_each _ _ _)); cbn [snd];
    eexists _, _; (split; [reflexivity|]);
    (split; [reflexivity|]); (split; [exact Hsilent|]); (split; [exact Hkeep|]);
    change (Status ?x :: ?l) with ([Status x] ++ l);
    rewrite ?exports_app, Hloop; reflexivity.
Qed.

(** ** The bar is full when there is a transcript *)

Lemma below_full_nil : below_full [].
Proof. constructor. Qed.

Lemma below_full_app (t1 t2 : list event) :
  below_full t1 -> below_full t2 -> below_full (t1 ++ t2).
Proof.
  unfold below_full. intros H1 H2.
  rewrite progress_values_app. apply Forall_app. now split.
Qed.

Lemma below_full_primary_body (env : Env) (total i : Z) (a : artifact) (s : pystr) :
  0 <= i < total ->
  below_full (snd (primary_body env total (i, a) s)).
Proof.
  intros Hi. rewrite primary_body_eq.
  destruct (Qeq_bool _ _); [constructor|].
  destruct (ratio_in_unit i total Hi) as [H0 H1].
  destruct (open_ok env a); cbn [snd]; unfold below_full, primary_events;
    cbn [app progress_values flat_map fst snd].
  - change (flat_map _ (attempt_events env a))
      with (progress_values (attempt_events env a)).
    rewrite progress_values_attempt. repeat constructor; lra.
  - repeat constructor; lra.
Qed.

Lemma below_full_fallback_body (env : Env) (d count i : Z) (s : pystr) :
  0 <= i < count ->
  below_full (snd (fallback_body env d count i s)).
Proof.
  intros Hi. rewrite fallback_body_eq.
  destruct (Qeq_bool _ _); [constructor|].
  destruct (ratio_in_unit i count Hi) as [H0 H1].
  destruct (export_ok env _); [destruct (open_ok env _)|]; cbn [snd];
    unfold below_full, fallback_events;
    cbn [app firstn progress_values flat_map].
  - change (flat_map _ (attempt_events env (FallbackSegment i)))
      with (progress_values (attempt_events env (FallbackSegment i))).
    rewrite progress_values_attempt. repeat constructor; lra.
  - repeat constructor; lra.
  - repeat constructor; lra.
Qed.

Ltac below_leaf :=
  unfold below_full; cbn [emit snd progress_values flat_map app];
  repeat constructor; lra.

Lemma below_full_primary (env : Env) : below_full (snd (primary env)).
Proof.
  unfold primary.
  apply (P_bind _ below_full_app).
  { pose proof (progressless_split_audio_file env MAX_SEGMENT_SIZE_MB) as H.
    unfold progressless in H. unfold below_full. rewrite H. constructor. }
  intro.
  apply (P_bind _ below_full_app); [below_leaf|intro].
  apply (P_bind _ below_full_app);
    [|intro; walk_trace below_full_nil below_full_app below_leaf].
  apply for_each_trace_in; [apply below_full_nil|apply below_full_app|].
  intros [i seg] s Hin. apply in_enumerate in Hin as [_ Hi].
  now apply below_full_primary_body.
Qed.

Lemma below_full_fallback (env : Env) : below_full (snd (fallback env)).
Proof.
  rewrite fallback_eq. destruct (fallback_duration env) as [d|]; [|constructor].
  cbv zeta. cbn [snd]. change (Decode ByProbe :: ?l) with ([Decode ByProbe] ++ l).
  apply below_full_app; [constructor|].
  apply for_each_trace_in; [apply below_full_nil|apply below_full_app|].
  intros i s Hin. apply in_py_range in Hin.
  now apply below_full_fallback_body.
Qed.

Lemma below_full_multi_segment (env : Env) : below_full (snd (multi_segment env)).
Proof.
  unfold multi_segment.
  do 2 (apply (P_bind _ below_full_app); [below_leaf|intro]).
  apply (P_try_except _ below_full_app); [apply below_full_primary|intro].
  do 2 (apply (P_bind _ below_full_app); [below_leaf|intro]).
  apply (P_try_except _ below_full_app); [apply below_full_fallback|intro].
  walk_trace below_full_nil below_full_app below_leaf.
Qed.

Lemma below_full_not_full (tr : list event) :
  below_full tr -> ~ Exists (fun p => (p == 1)%Q) (progress_values tr).
Proof.
  unfold below_full. intros Hall Hex. apply Exists_exists in Hex as [p [Hin Hp]].
  rewrite Forall_forall in Hall. specialize (Hall p Hin). lra.
Qed.

(** A run either shows a transcript, having reported 1, or shows none and
    stays at or below nine tenths. *)
Lemma run_full_or_below (env : Env) :
  (exists t, fst (run env) = Return (Some t)
             /\ Exists (fun p => (p == 1)%Q) (progress_values (snd (run env))))
  \/ ((forall t, fst (run env) <> Return (Some t))
      /\ below_full (snd (run env))).
Proof.
  rewrite run_eq.
  destruct (py_gt _ _).
  { right. split; [discriminate|constructor]. }
  destruct (setup_ok env).
  2:{ right. split; [discriminate|below_leaf]. }
  destruct (supported _).
  2:{ right. split; [discriminate|below_leaf]. }
  cbv zeta.
  assert (Hbranch : forall (m : M pystr),
             (forall e, fst m = Raised e -> below_full (snd m)) ->
             (fst m = Stopped -> below_full (snd m)) ->
             let r := match fst m with
                      | Return full =>
                          (Return (Some (strip full)),
                           Progress 0 :: Status Analysing :: snd m
                           ++ [Progress 1; Status Finished; ShowResult (strip full)])
                      | Raised e =>
                          (Return None,
                           Progress 0 :: Status Analysing :: snd m
                           ++ [ShowError (MsgRunFailed e)])
                      | Stopped =>
                          (Stopped, Progress 0 :: Status Analysing :: snd m)
                      end in
             (exists t, fst r = Return (Some t)
                        /\ Exists (fun p => (p == 1)%Q) (progress_values (snd r)))
             \/ ((forall t, fst r <> Return (Some t)) /\ below_full (snd r))).
  { intros m Hraised Hstopped. destruct (fst m) as [full|e|]; cbn [fst snd].
    - left. eexists. split; [reflexivity|].
      change (Progress 0 :: Status Analysing :: ?l)
        with ([Progress 0; Status Analysing] ++ l).
      rewrite !progress_values_app. apply Exists_app. right.
      apply Exists_app. right. left. reflexivity.
    - right. split; [discriminate|].
      change (Progress 0 :: Status Analysing :: ?l)
        with ([Progress 0; Status Analysing] ++ l).
      apply below_full_app; [below_leaf|].
      apply below_full_app; [exact (Hraised e eq_refl)|below_leaf].
    - right. split; [discriminate|].
      change (Progress 0 :: Status Analysing :: ?l)
        with ([Progress 0; Status Analysing] ++ l).
      apply below_full_app; [below_leaf|exact (Hstopped eq_refl)]. }
  apply Hbranch; destruct (Qle_bool _ _);
    try (intros; apply below_full_multi_segment);
    rewrite single_shot_eq;
    destruct (open_ok env SourceFile); try destruct (remote env SourceFile);
    cbn [fst snd]; try discriminate; intros; below_leaf.
Qed.

(** Lines 196, 206, 210, 221, 234, 258, 266 and 286: the progress bar reaches
    1 in exactly the runs that show a transcript; in every other run all the
    values it reports stay at or below nine tenths. *)
Theorem bar_is_full_iff_transcript (env : Env) :
  ((exists t, fst (run env) = Return (Some t))
   <-> Exists (fun p => (p == 1)%Q) (progress_values (snd (run env))))
  /\ ((forall t, fst (run env) <> Return (Some t)) ->
      Forall (fun p => (p <= 9 # 10)%Q) (progress_values (snd (run env)))).
Proof.
  destruct (run_full_or_below env) as [(t & Ht & Hfull)|[Hnone Hbelow]].
  - split.
    + split; [intros _; exact Hfull|intros _; now exists t].
    + intros H. now destruct (H t).
  - split.
    + split.
      * intros [t Ht]. now destruct (Hnone t).
      * intros H. now destruct (below_full_not_full _ Hbelow).
    + intros _. exact Hbelow.
Qed.

Lemma bar_is_full_iff_transcript_witness :
  Exists (fun p => (p == 1)%Q) (progress_values (snd (run env_all_ok)))
  /\ Forall (fun p => (p <= 9 # 10)%Q) (progress_values (snd (run env_both_fail))).
Proof.
  split.
  - apply (proj1 (proj1 (bar_is_full_iff_transcript env_all_ok))).
    eexists. reflexivity.
  - apply (proj2 (bar_is_full_iff_transcript env_both_fail)).
    intros t. discriminate.
Defined.

(** Lines 180 and 256: the saved upload is [os.path.join(temp_dir, name)], so
    an upload named like a segment of the alternative method shares its path
    with that segment. *)
Example upload_named_like_a_segment (temp_dir : path) :
  temp_segment_path temp_dir 0 = path_join temp_dir (chars "segment_0.wav").
Proof. reflexivity. Qed.

(** ** What the alternative method exports *)

Lemma alternative_ranges_app (t1 t2 : list event) :
  alternative_ranges (t1 ++ t2) = alternative_ranges t1 ++ alternative_ranges t2.
Proof. apply flat_map_app. Qed.

Lemma unexported_nil : unexported [].
Proof. reflexivity. Qed.

Lemma unexported_app (t1 t2 : list event) :
  unexported t1 -> unexported t2 -> unexported (t1 ++ t2).
Proof.
  unfold unexported. intros H1 H2. now rewrite alternative_ranges_app, H1, H2.
Qed.

(** The primary method exports primary segments only. *)
Lemma unexported_primary (env : Env) : unexported (snd (primary env)).
Proof.
  unfold primary, split_audio_file, export_segment, export.
  apply (P_bind _ unexported_app);
    [walk_trace unexported_nil unexported_app ltac:(reflexivity)|intro].
  apply (P_bind _ unexported_app); [reflexivity|intro].
  apply (P_bind _ unexported_app);
    [|intro; walk_trace unexported_nil unexported_app ltac:(reflexivity)].
  apply (P_for_each _ unexported_nil unexported_app). intros [i seg] s.
  unfold primary_body, transcribe_segment, remove.
  walk_trace unexported_nil unexported_app ltac:(reflexivity).
Qed.

Lemma alternative_ranges_attempt (env : Env) (a : artifact) :
  alternative_ranges (attempt_events env a) = [].
Proof. unfold attempt_events. destruct (remote env a); reflexivity. Qed.

Lemma firstn_seq_le (k start len : nat) :
  (k <= len)%nat -> firstn k (seq start len) = seq start k.
Proof.
  revert start len. induction k as [|k IH]; intros start len Hk; [reflexivity|].
  destruct len as [|len]; [lia|].
  cbn [seq firstn]. f_equal. apply IH. lia.
Qed.

Lemma firstn_py_range (k : nat) (n : Z) :
  (k <= Z.to_nat n)%nat -> firstn k (py_range n) = py_range (Z.of_nat k).
Proof.
  intros Hk. unfold py_range.
  now rewrite firstn_map, firstn_seq_le, Nat2Z.id.
Qed.

(** Every iteration the alternative loop starts exports the stretch of five
    minutes of its index, and a loop that returns has started them all. *)
Lemma alternative_ranges_loop (env : Env) (d count : Z) (l : list Z) (s : pystr) :
  exists k : nat,
    (k <= List.length l)%nat
    /\ alternative_ranges (snd (for_each (fallback_body env d count) l s))
       = map (segment_spec segment_length_ms d) (firstn k l)
    /\ (forall t, fst (for_each (fallback_body env d count) l s) = Return t ->
          k = List.length l).
Proof.
  revert s. induction l as [|i l IH]; intros s.
  - exists 0%nat. repeat split; reflexivity.
  - cbn [for_each]. rewrite fallback_body_eq.
    destruct (Qeq_bool (inject_Z count) 0).
    { exists 0%nat. cbn. repeat split; [lia|discriminate]. }
    destruct (export_ok env (FallbackSegment i));
      [destruct (open_ok env (FallbackSegment i))|].
    + destruct (IH (s ++ fragment_of env (FallbackSegment i) ++ [SPACE]))
        as (k & Hk & Hranges & Hret).
      exists (S k). unfold bind. cbn [fst snd List.length firstn map].
      split; [lia|]. split.
      * rewrite alternative_ranges_app, Hranges. unfold fallback_events.
        cbn [app alternative_ranges flat_map].
        change (flat_map _ (attempt_events env (FallbackSegment i)))
          with (alternative_ranges (attempt_events env (FallbackSegment i))).
        now rewrite alternative_ranges_attempt.
      * intros t Ht. f_equal. now apply (Hret t).
    + exists 1%nat. unfold bind. cbn [fst snd List.length firstn map].
      split; [lia|]. split; [reflexivity|discriminate].
    + exists 1%nat. unfold bind. cbn [fst snd List.length firstn map].
      split; [lia|]. split; [reflexivity|discriminate].
Qed.

(** What the alternative method exports is the start of its plan, and the
    whole plan when it returns. *)
Lemma alternative_ranges_fallback (env : Env) (d : Z) :
  fallback_duration env = Some d ->
  let count := Qceiling (inject_Z d / inject_Z segment_length_ms) in
  exists k,
    0 <= k <= Z.max 0 count
    /\ alternative_ranges (snd (fallback env))
       = plan_ranges segment_length_ms d k
    /\ (forall full, fst (fallback env) = Return full -> k = Z.max 0 count).
Proof.
  intros Hd count. rewrite fallback_eq, Hd. cbv zeta. fold count. cbn [fst snd].
  destruct (alternative_ranges_loop env d count (py_range count) [])
    as (k & Hk & Hranges & Hret).
  rewrite length_py_range in Hk, Hret.
  exists (Z.of_nat k). split; [lia|]. split.
  - change (alternative_ranges (Decode ByProbe :: ?l)) with (alternative_ranges l).
    rewrite Hranges, firstn_py_range by exact Hk. reflexivity.
  - intros full Hfull. rewrite (Hret full Hfull). lia.
Qed.

(** C6: when the primary method raises in a multi-segment run, the
    alternative method is started exactly once.  It cuts the source in
    stretches of five minutes, whatever the size of the upload and the byte
    budget: what the run exports for it is the start of that plan, in order,
    and the whole plan, as many stretches as line 248 counts, whenever the
    run shows a transcript, which it does when every stretch can be exported
    and opened.  When the alternative method raises too, the run is stopped
    after the error message, with no other attempt. *)
Theorem single_fallback_attempt (env : Env) (e : exn) :
  multi_segment_request env ->
  fst (primary env) = Raised e ->
  fallback_attempts (snd (run env)) = 1%nat
  /\ (forall d, fallback_duration env = Some d ->
        let count := Qceiling (inject_Z d / inject_Z segment_length_ms) in
        exists k,
          0 <= k <= Z.max 0 count
          /\ alternative_ranges (snd (run env))
             = plan_ranges segment_length_ms d k
          /\ (forall t, fst (run env) = Return (Some t) -> k = Z.max 0 count)
          /\ ((forall i, 0 <= i < count ->
                 export_ok env (FallbackSegment i) = true
                 /\ open_ok env (FallbackSegment i) = true) ->
              exists t, fst (run env) = Return (Some t)))
  /\ (forall alt_err, fst (fallback env) = Raised alt_err ->
        fst (run env) = Stopped
        /\ exists tr,
             snd (run env) = tr ++ [ShowError (MsgAlternativeFailed alt_err)]).
Proof.
  intros Hreq Hp.
  pose proof (run_after_primary_failure env e Hreq Hp) as Hrun.
  cbv zeta in Hrun.
  split; [|split].
  - rewrite Hrun.
    destruct (fst (fallback env)); cbn [snd];
      rewrite !fallback_attempts_app, fallback_attempts_fallback,
        (fallback_attempts_unprobed _ (unprobed_primary env)); reflexivity.
  - intros d Hd count.
    destruct (alternative_ranges_fallback env d Hd) as (k & Hk & Hranges & Hret).
    fold count in Hk, Hret.
    exists k. split; [exact Hk|].
    pose proof (unexported_primary env) as Hprimary. unfold unexported in Hprimary.
    split; [|split].
    + rewrite Hrun.
      destruct (fst (fallback env)); cbn [snd];
        rewrite !alternative_ranges_app, Hprimary, Hranges;
        cbn [alternative_ranges flat_map app]; now rewrite ?app_nil_r.
    + intros t Ht. rewrite Hrun in Ht.
      destruct (fst (fallback env)) as [full| |] eqn:Hf; [|discriminate|discriminate].
      now apply (Hret full).
    + intros Hok. rewrite Hrun, (fallback_returns env d Hd Hok). cbn [fst].
      eexists. reflexivity.
  - intros alt_err Hf. rewrite Hrun, Hf. cbn [fst snd]. split; [reflexivity|].
    eexists. rewrite !app_assoc. reflexivity.
Qed.

Lemma single_fallback_attempt_witness :
  fallback_attempts (snd (run env_fallback_two)) = 1%nat
  /\ (forall d, fallback_duration env_fallback_two = Some d ->
        let count := Qceiling (inject_Z d / inject_Z segment_length_ms) in
        exists k,
          0 <= k <= Z.max 0 count
          /\ alternative_ranges (snd (run env_fallback_two))
             = plan_ranges segment_length_ms d k
          /\ (forall t, fst (run env_fallback_two) = Return (Some t) ->
                k = Z.max 0 count)
          /\ ((forall i, 0 <= i < count ->
                 export_ok env_fallback_two (FallbackSegment i) = true
                 /\ open_ok env_fallback_two (FallbackSegment i) = true) ->
              exists t, fst (run env_fallback_two) = Return (Some t)))
  /\ (forall alt_err, fst (fallback env_fallback_two) = Raised alt_err ->
        fst (run env_fallback_two) = Stopped
        /\ exists tr,
             snd (run env_fallback_two)
             = tr ++ [ShowError (MsgAlternativeFailed alt_err)]).
Proof.
  apply (single_fallback_attempt env_fallback_two ValueError).
  - unfold multi_segment_request. cbn. repeat split; lia.
  - reflexivity.
Defined.

(** The two segments of a source of 400 seconds, and a run in which both
    methods raise. *)
Example alternative_ranges_example :
  alternative_ranges (snd (run env_fallback_two))
  = [ {| index := 0; start_ms := 0; end_ms := 300000 |};
      {| index := 1; start_ms := 300000; end_ms := 400000 |} ]
  /\ run env_both_fail
     = (Stopped,
        [Progress 0; Status Analysing; Status Splitting; Progress (1 # 10);
         Decode ByFormat; ShowError (MsgSegmentsFailed ValueError);
         ShowInfo MsgTryingAlternative; Decode ByProbe;
         ShowError (MsgAlternativeFailed DecoderError)]).
Proof. split; reflexivity. Qed.
(** ** Rounding to binary64 *)

Lemma pow2_pos (e : Z) : (0 < 2 ^ e)%Q.
Proof. now apply Qpower_0_lt. Qed.

Lemma pow2_add (a b : Z) : (2 ^ (a + b) == 2 ^ a * 2 ^ b)%Q.
Proof. now apply Qpower_plus. Qed.

Lemma pow2_inject (n : Z) : 0 <= n -> (inject_Z (2 ^ n) == 2 ^ n)%Q.
Proof. intros Hn. now rewrite Zpower_Qpower. Qed.

Lemma pow2_le (a b : Z) : a <= b -> (2 ^ a <= 2 ^ b)%Q.
Proof. intros H. now apply Qpower_le_compat_l. Qed.

Lemma pow2_lt_inv (a b : Z) : (2 ^ a < 2 ^ b)%Q -> a < b.
Proof. intros H. now apply (Qpower_lt_compat_l_inv 2). Qed.

(** [x / 2^e] and back. *)
Lemma scaled_back (x : Q) (e : Z) : (x / 2 ^ e * 2 ^ e == x)%Q.
Proof.
  rewrite Qmult_comm. apply Qmult_div_r.
  intros E. pose proof (pow2_pos e) as Hp. rewrite E in Hp. discriminate.
Qed.

Lemma scaled_le (x y : Q) (e : Z) :
  (x <= y * 2 ^ e)%Q <-> (x / 2 ^ e <= y)%Q.
Proof.
  pose proof (pow2_pos e) as Hp. split; intros H.
  - apply Qle_shift_div_r; assumption.
  - rewrite <- (scaled_back x e).
    apply Qmult_le_compat_r; [exact H|now apply Qlt_le_weak].
Qed.

Lemma scaled_ge (x y : Q) (e : Z) :
  (y * 2 ^ e <= x)%Q <-> (y <= x / 2 ^ e)%Q.
Proof.
  pose proof (pow2_pos e) as Hp. split; intros H.
  - apply Qle_shift_div_l; assumption.
  - rewrite <- (scaled_back x e).
    apply Qmult_le_compat_r; [exact H|now apply Qlt_le_weak].
Qed.

(** The binade of a positive number starts at or below it. *)
Lemma binade_le (x : Q) : (0 < x)%Q -> (2 ^ binade x <= x)%Q.
Proof.
  intros Hx. unfold binade.
  set (a := Z.log2 (Qnum x)). set (b := Z.log2 (Z.pos (Qden x))).
  destruct (Qle_bool (2 ^ (a - b)) x) eqn:E; [now apply Qle_bool_iff|].
  assert (Hn : 0 < Qnum x).
  { destruct x as [n d]. unfold Qlt in Hx. cbn in *. lia. }
  pose proof (Z.log2_spec (Qnum x) Hn) as [Ha _].
  pose proof (Z.log2_spec (Z.pos (Qden x)) (Pos2Z.is_pos _)) as [_ Hb].
  fold a in Ha. fold b in Hb.
  assert (Ha0 : 0 <= a) by apply Z.log2_nonneg.
  assert (Hb0 : 0 <= b) by apply Z.log2_nonneg.
  replace (a - b - 1) with (a + - (b + 1)) by lia.
  rewrite pow2_add, Qpower_opp, <- (pow2_inject a), <- (pow2_inject (b + 1))
    by lia.
  change (inject_Z (2 ^ a) / inject_Z (2 ^ (b + 1)) <= x)%Q.
  apply Qle_shift_div_r.
  - change 0%Q with (inject_Z 0). rewrite <- Zlt_Qlt. lia.
  - destruct x as [n d]. cbn [Qnum Qden] in *.
    unfold Qle, Qmult, inject_Z. cbn [Qnum Qden].
    rewrite Z.mul_1_r, Pos.mul_1_r.
    replace (Z.succ b) with (b + 1) in Hb by lia. nia.
Qed.

(** Rounding to the nearest integer stays between the integers around. *)
Lemma nearest_even_ge (x : Q) (k : Z) :
  (inject_Z k <= x)%Q -> k <= nearest_even x.
Proof.
  intros H. unfold nearest_even.
  assert (Hf : k <= Qfloor x).
  { rewrite <- (Qfloor_Z k). now apply Qfloor_resp_le. }
  destruct (_ ?= _)%Q; [destruct (Z.even _)| |]; lia.
Qed.

Lemma nearest_even_le (x : Q) (k : Z) :
  (x <= inject_Z k)%Q -> nearest_even x <= k.
Proof.
  intros H. unfold nearest_even.
  pose proof (Qfloor_le x) as Hfl.
  destruct (Qeq_dec x (inject_Z (Qfloor x))) as [Heq|Hne].
  - assert (Hlt : (x - inject_Z (Qfloor x) ?= 1 # 2)%Q = Lt).
    { rewrite <- Qlt_alt. rewrite Heq at 1. lra. }
    rewrite Hlt. rewrite Zle_Qle. now rewrite <- Heq.
  - assert (Hlt : Qfloor x < k).
    { rewrite Zlt_Qlt. apply Qlt_le_trans with x; [|exact H].
      apply Qle_lteq in Hfl. destruct Hfl as [Hl|He]; [exact Hl|].
      now symmetry in He. }
    destruct (_ ?= _)%Q; [destruct (Z.even _)| |]; lia.
Qed.

Lemma nearest_even_gt (x : Q) (k : Z) :
  (inject_Z k + (1 # 2) < x)%Q -> k + 1 <= nearest_even x.
Proof.
  intros H. unfold nearest_even.
  assert (Hf : k <= Qfloor x).
  { rewrite <- (Qfloor_Z k). apply Qfloor_resp_le. lra. }
  destruct (Z.eq_dec (Qfloor x) k) as [Heq|Hne].
  - assert (Hgt : (x - inject_Z (Qfloor x) ?= 1 # 2)%Q = Gt).
    { rewrite <- Qgt_alt. rewrite Heq. lra. }
    rewrite Hgt. lia.
  - destruct (_ ?= _)%Q; [destruct (Z.even _)| |]; lia.
Qed.

Lemma round_positive_eq (x : Q) :
  let e := Z.max (binade x - (PRECISION - 1)) EMIN in
  (round_positive x == inject_Z (nearest_even (x / 2 ^ e)) * 2 ^ e)%Q.
Proof. intros e. unfold round_positive. apply Qred_correct. Qed.

(** A multiple of [2^j] is a multiple of every finer [2^e]. *)
Lemma grid_split (k j e : Z) :
  e <= j -> (inject_Z k * 2 ^ j == inject_Z (k * 2 ^ (j - e)) * 2 ^ e)%Q.
Proof.
  intros He. rewrite inject_Z_mult, (pow2_inject (j - e)) by lia.
  rewrite <- Qmult_assoc, <- pow2_add.
  now replace (j - e + e) with j by lia.
Qed.

(** The multiples [k * 2^j] of a power of two within the precision are
    binary64 numbers: rounding does not cross them. *)
Lemma round_positive_ge (x : Q) (k j : Z) :
  (0 < x)%Q -> 0 <= k <= 2 ^ PRECISION -> EMIN <= j ->
  (inject_Z k * 2 ^ j <= x)%Q ->
  (inject_Z k * 2 ^ j <= round_positive x)%Q.
Proof.
  intros Hx Hk Hj Hle. rewrite round_positive_eq. cbv zeta.
  set (e := Z.max (binade x - (PRECISION - 1)) EMIN).
  destruct (Z.le_gt_cases e j) as [Hej|Hej].
  - (* [k * 2^j] is a multiple of the spacing *)
    rewrite (grid_split k j e Hej) in Hle |- *.
    apply Qmult_le_compat_r; [|apply Qlt_le_weak, pow2_pos].
    rewrite <- Zle_Qle. apply nearest_even_ge.
    now apply scaled_ge.
  - (* the spacing is coarser: [x] is beyond [2^PRECISION * 2^j] *)
    assert (He : e = binade x - (PRECISION - 1)) by lia.
    apply Qle_trans with (inject_Z (2 ^ (PRECISION - 1)) * 2 ^ e)%Q.
    + apply Qle_trans with (inject_Z (2 ^ PRECISION) * 2 ^ j)%Q.
      * apply Qmult_le_compat_r; [|apply Qlt_le_weak, pow2_pos].
        rewrite <- Zle_Qle. lia.
      * rewrite !pow2_inject by (unfold PRECISION; lia).
        rewrite <- !pow2_add. apply pow2_le. lia.
    + apply Qmult_le_compat_r; [|apply Qlt_le_weak, pow2_pos].
      rewrite <- Zle_Qle. apply nearest_even_ge.
      rewrite pow2_inject by (unfold PRECISION; lia).
      apply scaled_ge. rewrite <- pow2_add.
      replace (PRECISION - 1 + e) with (binade x) by lia.
      now apply binade_le.
Qed.

Lemma round_positive_le (x : Q) (k j : Z) :
  (0 < x)%Q -> EMIN <= j ->
  (x < 2 ^ (PRECISION + j))%Q ->
  (x <= inject_Z k * 2 ^ j)%Q ->
  (round_positive x <= inject_Z k * 2 ^ j)%Q.
Proof.
  intros Hx Hj Hlt Hle. rewrite round_positive_eq. cbv zeta.
  set (e := Z.max (binade x - (PRECISION - 1)) EMIN).
  assert (Hej : e <= j).
  { assert (binade x < PRECISION + j); [|lia].
    apply pow2_lt_inv. eapply Qle_lt_trans; [apply binade_le; exact Hx|exact Hlt]. }
  rewrite (grid_split k j e Hej) in Hle |- *.
  apply Qmult_le_compat_r; [|apply Qlt_le_weak, pow2_pos].
  rewrite <- Zle_Qle. apply nearest_even_le.
  now apply scaled_le.
Qed.

(** A quotient of integers below [2^PRECISION] that lies above an integer
    rounds to a number above that integer. *)
Lemma round_positive_gt (a b k : Z) :
  0 < b < 2 ^ PRECISION -> 0 <= k -> k * b < a -> a < 2 ^ PRECISION ->
  (inject_Z k < round_positive (inject_Z a / inject_Z b))%Q.
Proof.
  intros Hb Hk Hlt Ha.
  set (x := (inject_Z a / inject_Z b)%Q).
  assert (Hb' : (0 < inject_Z b)%Q).
  { change 0%Q with (inject_Z 0). rewrite <- Zlt_Qlt. lia. }
  assert (Hx : (0 < x)%Q).
  { apply Qlt_shift_div_l; [exact Hb'|]. rewrite Qmult_0_l.
    change 0%Q with (inject_Z 0). rewrite <- Zlt_Qlt. nia. }
  assert (Hxa : (x <= inject_Z a)%Q).
  { apply Qle_shift_div_r; [exact Hb'|]. rewrite <- inject_Z_mult, <- Zle_Qle. nia. }
  rewrite round_positive_eq. cbv zeta.
  set (e := Z.max (binade x - (PRECISION - 1)) EMIN).
  pose proof (binade_le x Hx) as Hbin.
  assert (Hl : binade x < PRECISION).
  { apply pow2_lt_inv. eapply Qle_lt_trans; [exact Hbin|].
    eapply Qle_lt_trans; [exact Hxa|].
    rewrite <- pow2_inject by (unfold PRECISION; lia). rewrite <- Zlt_Qlt. exact Ha. }
  assert (He : e <= 0) by (unfold EMIN, PRECISION in *; lia).
  (* the divisor is smaller than twice the number of steps in a unit *)
  assert (Hsteps : b < 2 * 2 ^ (- e)).
  { destruct (Z.max_spec (binade x - (PRECISION - 1)) EMIN) as [[_ Hm]|[_ Hm]];
      fold e in Hm.
    - rewrite Hm. unfold EMIN, PRECISION in *.
      apply Z.lt_le_trans with (2 ^ 53); [lia|].
      change (2 * 2 ^ (- -1074)) with (2 ^ 1075). apply Z.pow_le_mono_r; lia.
    - assert (H0 : 0 <= binade x \/ binade x < 0) by lia.
      destruct H0 as [H0|H0].
      + assert (Hba : b * 2 ^ binade x <= a).
        { rewrite Zle_Qle, inject_Z_mult, pow2_inject by exact H0.
          apply (Qmult_le_compat_r _ _ (inject_Z b)) in Hbin;
            [|now apply Qlt_le_weak].
          unfold x in Hbin. rewrite (Qmult_comm (_ / _)), Qmult_div_r in Hbin.
          - now rewrite Qmult_comm.
          - intros E. rewrite E in Hb'. discriminate. }
        assert (Hpow : 2 ^ binade x * (2 * 2 ^ (- e)) = 2 ^ PRECISION).
        { rewrite Hm. replace (2 * 2 ^ (- (binade x - (PRECISION - 1))))
            with (2 ^ (1 + (PRECISION - 1 - binade x))).
          - rewrite <- Z.pow_add_r by lia. f_equal. lia.
          - rewrite Z.pow_add_r by lia. f_equal. f_equal. lia. }
        assert (Hp : 0 < 2 ^ binade x) by (apply Z.pow_pos_nonneg; lia).
        nia.
      + apply Z.lt_le_trans with (2 ^ PRECISION); [lia|].
        replace (2 * 2 ^ (- e)) with (2 ^ (1 + - e)).
        * apply Z.pow_le_mono_r; lia.
        * rewrite Z.pow_add_r by lia. reflexivity. }
  apply Qlt_le_trans with (inject_Z (k * 2 ^ (- e) + 1) * 2 ^ e)%Q.
  - rewrite inject_Z_plus, Qmult_plus_distr_l.
    rewrite <- (grid_split k 0 e He). change (2 ^ 0)%Q with 1%Q.
    rewrite Qmult_1_r, Qmult_1_l.
    pose proof (pow2_pos e). lra.
  - apply Qmult_le_compat_r; [|apply Qlt_le_weak, pow2_pos].
    rewrite <- Zle_Qle. apply nearest_even_gt.
    (* [x / 2^e = x * 2^(-e)], and [x - k >= 1 / b] *)
    assert (Hscale : (x / 2 ^ e == x * inject_Z (2 ^ (- e)))%Q).
    { rewrite pow2_inject by lia. rewrite Qpower_opp. reflexivity. }
    rewrite Hscale, inject_Z_mult.
    set (p := inject_Z (2 ^ (- e))).
    assert (Hp : (0 < p)%Q).
    { unfold p. change 0%Q with (inject_Z 0). rewrite <- Zlt_Qlt.
      apply Z.pow_pos_nonneg; lia. }
    assert (Hbp : (inject_Z b < 2 * p)%Q).
    { unfold p. change 2%Q with (inject_Z 2).
      rewrite <- inject_Z_mult, <- Zlt_Qlt. exact Hsteps. }
    assert (Hstep : (inject_Z k + 1 / inject_Z b <= x)%Q).
    { unfold x. apply Qle_shift_div_l; [exact Hb'|].
      rewrite Qmult_plus_distr_l. unfold Qdiv at 1.
      rewrite Qmult_1_l, (Qmult_comm (/ _)), Qmult_inv_r.
      - rewrite <- inject_Z_mult. change 1%Q with (inject_Z 1).
        rewrite <- inject_Z_plus, <- Zle_Qle. lia.
      - intros E. rewrite E in Hb'. discriminate. }
    assert (Hhalf : (1 # 2 < 1 / inject_Z b * p)%Q).
    { unfold Qdiv. rewrite Qmult_1_l, Qmult_comm.
      apply Qlt_shift_div_l; [exact Hb'|]. lra. }
    apply Qlt_le_trans with ((inject_Z k + 1 / inject_Z b) * p)%Q.
    + rewrite Qmult_plus_distr_l. lra.
    + apply Qmult_le_compat_r; [exact Hstep|now apply Qlt_le_weak].
Qed.

(** An integer up to [2^PRECISION] is a binary64 number. *)
Lemma round_positive_int (k : Z) :
  0 < k <= 2 ^ PRECISION -> round_positive (inject_Z k) = inject_Z k.
Proof.
  intros Hk.
  assert (Hx : (0 < inject_Z k)%Q).
  { change 0%Q with (inject_Z 0). rewrite <- Zlt_Qlt. lia. }
  assert (Hgrid : (inject_Z k * 2 ^ 0 == inject_Z k)%Q) by apply Qmult_1_r.
  assert (Heq : (round_positive (inject_Z k) == inject_Z k)%Q).
  { apply Qle_antisym.
    - destruct (Z.eq_dec k (2 ^ PRECISION)) as [->|Hne].
      + assert (Hp : (inject_Z 1 * 2 ^ PRECISION == inject_Z (2 ^ PRECISION))%Q).
        { rewrite pow2_inject by (unfold PRECISION; lia). apply Qmult_1_l. }
        rewrite <- Hp at 2. apply round_positive_le.
        * exact Hx.
        * unfold EMIN, PRECISION. lia.
        * rewrite pow2_inject by (unfold PRECISION; lia).
          apply Qpower_lt_compat_l; [unfold PRECISION; lia|reflexivity].
        * rewrite Hp. apply Qle_refl.
      + rewrite <- Hgrid at 2. apply round_positive_le.
        * exact Hx.
        * unfold EMIN. lia.
        * rewrite Z.add_0_r, <- pow2_inject by (unfold PRECISION; lia).
          rewrite <- Zlt_Qlt. lia.
        * rewrite Hgrid. apply Qle_refl.
    - rewrite <- Hgrid at 1. apply round_positive_ge.
      + exact Hx.
      + lia.
      + unfold EMIN. lia.
      + rewrite Hgrid. apply Qle_refl. }
  unfold round_positive in *. apply Qred_complete in Heq.
  rewrite (Qred_complete _ _ (Qred_correct _)) in Heq. rewrite Heq.
  unfold Qred, inject_Z.
  pose proof (Z.ggcd_gcd k 1) as Hg. pose proof (Z.ggcd_correct_divisors k 1) as Hd.
  destruct (Z.ggcd k 1) as [g [aa bb]]. cbn [fst snd] in *.
  rewrite Z.gcd_1_r in Hg. subst g. destruct Hd as [-> Hbb].
  assert (bb = 1) by lia. subst bb. f_equal. lia.
Qed.

(** ** The arithmetic of Python on binary64 numbers *)

Lemma binary64_positive (x : Q) :
  (0 < x)%Q ->
  binary64 x = if Qle_bool (2 ^ EMAX) (round_positive x)
               then Infinite false else Finite (round_positive x).
Proof.
  intros Hx. unfold binary64.
  assert (E : (x ?= 0)%Q = Gt) by now rewrite <- Qgt_alt.
  now rewrite E.
Qed.

(** A positive result up to [2^(EMAX - 1)] is rounded to a finite number. *)
Lemma binary64_in_range (x : Q) :
  (0 < x)%Q -> (x <= 2 ^ (EMAX - 1))%Q ->
  binary64 x = Finite (round_positive x).
Proof.
  intros Hx Hle. rewrite (binary64_positive x Hx).
  destruct (Qle_bool _ _) eqn:E; [|reflexivity].
  apply Qle_bool_iff in E. exfalso.
  assert (Hr : (round_positive x <= inject_Z 1 * 2 ^ (EMAX - 1))%Q).
  { apply round_positive_le.
    - exact Hx.
    - unfold EMIN, EMAX. lia.
    - eapply Qle_lt_trans; [exact Hle|].
      apply Qpower_lt_compat_l; [unfold PRECISION; lia|reflexivity].
    - now rewrite Qmult_1_l. }
  rewrite Qmult_1_l in Hr.
  assert (Hlt : (2 ^ (EMAX - 1) < 2 ^ EMAX)%Q)
    by (apply Qpower_lt_compat_l; [lia|reflexivity]).
  lra.
Qed.

Lemma inject_Z_pos (z : Z) : 0 < z -> (0 < inject_Z z)%Q.
Proof. intros H. change 0%Q with (inject_Z 0). now rewrite <- Zlt_Qlt. Qed.

Lemma int_below_emax (k : Z) :
  k <= 2 ^ PRECISION -> (inject_Z k <= 2 ^ (EMAX - 1))%Q.
Proof.
  intros Hk. apply Qle_trans with (inject_Z (2 ^ PRECISION)).
  - now rewrite <- Zle_Qle.
  - rewrite pow2_inject by (unfold PRECISION; lia).
    apply pow2_le. unfold PRECISION, EMAX. lia.
Qed.

(** [float(a)] is exact up to [2^PRECISION]. *)
Lemma float_of_int_exact (a : Z) :
  0 < a <= 2 ^ PRECISION -> float_of_int a = Ok (Finite (inject_Z a)).
Proof.
  intros Ha. unfold float_of_int.
  rewrite binary64_in_range, round_positive_int.
  - reflexivity.
  - exact Ha.
  - apply inject_Z_pos. lia.
  - apply int_below_emax. lia.
Qed.

Lemma is_zero_positive (q : Q) : (0 < q)%Q -> is_zero (Finite q) = false.
Proof.
  intros Hq. cbn. destruct (Qeq_bool q 0) eqn:E; [|reflexivity].
  apply Qeq_bool_iff in E. rewrite E in Hq. discriminate.
Qed.

Lemma Qceiling_unique (x : Q) (c : Z) :
  (inject_Z (c - 1) < x)%Q -> (x <= inject_Z c)%Q -> Qceiling x = c.
Proof.
  intros Hlo Hhi.
  pose proof (Qle_ceiling x) as H1. pose proof (Qceiling_lt x) as H2.
  assert (Qceiling x - 1 < c) by (rewrite Zlt_Qlt; lra).
  assert (c - 1 < Qceiling x) by (rewrite Zlt_Qlt; lra).
  lia.
Qed.

(** Line 120 in binary64: below [2^PRECISION] milliseconds the rounded
    quotient has the ceiling of the exact one. *)
Lemma segments_count_binary64_exact (total_ms d : Z) :
  0 < total_ms < 2 ^ PRECISION -> 1 <= d < 2 ^ PRECISION ->
  segments_count_binary64 total_ms d
  = Ok (Qceiling (inject_Z total_ms / inject_Z d)).
Proof.
  intros Ht Hd. unfold segments_count_binary64, int_truediv.
  destruct (Z.eqb_spec d 0) as [->|_]; [lia|].
  set (x := (inject_Z total_ms / inject_Z d)%Q).
  assert (Hd' : (0 < inject_Z d)%Q) by (apply inject_Z_pos; lia).
  assert (Hx : (0 < x)%Q).
  { apply Qlt_shift_div_l; [exact Hd'|]. rewrite Qmult_0_l.
    apply inject_Z_pos. lia. }
  assert (Hxt : (x <= inject_Z total_ms)%Q).
  { apply Qle_shift_div_r; [exact Hd'|].
    rewrite <- inject_Z_mult, <- Zle_Qle. nia. }
  rewrite binary64_in_range;
    [|exact Hx|eapply Qle_trans; [exact Hxt|apply int_below_emax; lia]].
  cbn [rbind float_ceil]. f_equal.
  set (c := Qceiling x).
  pose proof (Qle_ceiling x) as Hc1. pose proof (Qceiling_lt x) as Hc2.
  fold c in Hc1, Hc2.
  assert (Hc : 1 <= c).
  { assert (0 < c); [|lia]. rewrite Zlt_Qlt. change (inject_Z 0) with 0%Q. lra. }
  assert (Hck : (c - 1) * d < total_ms).
  { rewrite Zlt_Qlt, inject_Z_mult.
    apply (Qmult_lt_compat_r _ _ (inject_Z d)) in Hc2; [|exact Hd'].
    unfold x in Hc2. rewrite (Qmult_comm (_ / _)), Qmult_div_r in Hc2;
      [exact Hc2|].
    intros E. rewrite E in Hd'. discriminate. }
  assert (Hcd : c <= total_ms).
  { assert (0 < d) by lia. nia. }
  apply Qceiling_unique.
  - apply round_positive_gt; lia.
  - rewrite <- (Qmult_1_r (inject_Z c)). change 1%Q with (2 ^ 0)%Q.
    apply round_positive_le.
    + exact Hx.
    + unfold EMIN. lia.
    + rewrite Z.add_0_r. eapply Qle_lt_trans; [exact Hxt|].
      rewrite <- pow2_inject by (unfold PRECISION; lia).
      rewrite <- Zlt_Qlt. lia.
    + change (2 ^ 0)%Q with 1%Q. now rewrite Qmult_1_r.
Qed.

(** Lines 111 and 114 in binary64. *)
Lemma segment_size_ms_binary64_bounds (budget : Z) (bytes_per_ms : Q)
    (total_ms : Z) :
  0 < total_ms < 2 ^ PRECISION ->
  0 < budget <= 2 ^ PRECISION ->
  (0 < bytes_per_ms)%Q ->
  (bytes_per_ms <= inject_Z budget)%Q ->
  (inject_Z budget <= bytes_per_ms * 2 ^ (EMAX - 1))%Q ->
  let x := (inject_Z budget / bytes_per_ms)%Q in
  exists d,
    segment_size_ms_binary64 budget (Finite bytes_per_ms) total_ms = Ok d
    /\ d = Z.min (Qfloor (round_positive x)) total_ms
    /\ Z.min (Qfloor x) total_ms <= d <= Z.min (Qfloor x + 1) total_ms
    /\ 1 <= d.
Proof.
  intros Ht Hbud Hb Hle Hrange x.
  assert (Hx1 : (1 <= x)%Q).
  { apply Qle_shift_div_l; [exact Hb|]. now rewrite Qmult_1_l. }
  assert (Hx : (0 < x)%Q) by lra.
  assert (Hxr : (x <= 2 ^ (EMAX - 1))%Q).
  { apply Qle_shift_div_r; [exact Hb|]. now rewrite Qmult_comm. }
  unfold segment_size_ms_binary64.
  rewrite (float_of_int_exact budget Hbud). cbn [rbind].
  unfold float_truediv. rewrite (is_zero_positive _ Hb).
  fold x. rewrite (binary64_in_range x Hx Hxr). cbn [rbind float_int].
  set (r := round_positive x).
  assert (Hr1 : (1 <= r)%Q).
  { change 1%Q with (inject_Z 1 * 2 ^ 0)%Q. apply round_positive_ge.
    - exact Hx.
    - unfold PRECISION. lia.
    - unfold EMIN. lia.
    - change (inject_Z 1 * 2 ^ 0)%Q with 1%Q. exact Hx1. }
  rewrite py_int_nonneg by lra.
  eexists. split; [reflexivity|]. split; [reflexivity|].
  assert (Hf1 : 1 <= Qfloor r).
  { change 1 with (Qfloor 1). now apply Qfloor_resp_le. }
  assert (Hfx : 1 <= Qfloor x).
  { change 1 with (Qfloor 1). now apply Qfloor_resp_le. }
  split; [|lia].
  destruct (Qlt_le_dec x (inject_Z (2 ^ PRECISION))) as [Hsmall|Hbig].
  - (* the integers around [x] are binary64 numbers *)
    assert (Hfloor : Qfloor x < 2 ^ PRECISION).
    { rewrite Zlt_Qlt. eapply Qle_lt_trans; [apply Qfloor_le|exact Hsmall]. }
    assert (Hlo : (inject_Z (Qfloor x) <= r)%Q).
    { rewrite <- (Qmult_1_r (inject_Z _)). change 1%Q with (2 ^ 0)%Q.
      apply round_positive_ge.
      - exact Hx.
      - lia.
      - unfold EMIN. lia.
      - change (2 ^ 0)%Q with 1%Q. rewrite Qmult_1_r. apply Qfloor_le. }
    assert (Hhi : (r <= inject_Z (Qfloor x + 1))%Q).
    { rewrite <- (Qmult_1_r (inject_Z _)). change 1%Q with (2 ^ 0)%Q.
      apply round_positive_le.
      - exact Hx.
      - unfold EMIN. lia.
      - rewrite Z.add_0_r, <- pow2_inject by (unfold PRECISION; lia).
        exact Hsmall.
      - change (2 ^ 0)%Q with 1%Q. rewrite Qmult_1_r.
        apply Qlt_le_weak, Qlt_floor. }
    assert (Qfloor x <= Qfloor r).
    { rewrite <- (Qfloor_Z (Qfloor x)). now apply Qfloor_resp_le. }
    assert (Qfloor r <= Qfloor x + 1).
    { rewrite <- (Qfloor_Z (Qfloor x + 1)). now apply Qfloor_resp_le. }
    lia.
  - (* both quotients are beyond the duration *)
    assert (Hlo : (inject_Z (2 ^ PRECISION) <= r)%Q).
    { rewrite <- (Qmult_1_r (inject_Z _)). change 1%Q with (2 ^ 0)%Q.
      apply round_positive_ge.
      - exact Hx.
      - unfold PRECISION. lia.
      - unfold EMIN. lia.
      - change (2 ^ 0)%Q with 1%Q. now rewrite Qmult_1_r. }
    assert (2 ^ PRECISION <= Qfloor r).
    { rewrite <- (Qfloor_Z (2 ^ PRECISION)). now apply Qfloor_resp_le. }
    assert (2 ^ PRECISION <= Qfloor x).
    { rewrite <- (Qfloor_Z (2 ^ PRECISION)). now apply Qfloor_resp_le. }
    lia.
Qed.

(** ** The plan in binary64 *)

Lemma split_plan_binary64_eq (budget : Z) (bytes_per_ms : Q) (total_ms : Z) :
  0 < total_ms < 2 ^ PRECISION ->
  0 < budget <= 2 ^ PRECISION ->
  (0 < bytes_per_ms)%Q ->
  (bytes_per_ms <= inject_Z budget)%Q ->
  (inject_Z budget <= bytes_per_ms * 2 ^ (EMAX - 1))%Q ->
  let x := (inject_Z budget / bytes_per_ms)%Q in
  exists d,
    segment_size_ms_binary64 budget (Finite bytes_per_ms) total_ms = Ok d
    /\ d = Z.min (Qfloor (round_positive x)) total_ms
    /\ Z.min (Qfloor x) total_ms <= d <= Z.min (Qfloor x + 1) total_ms
    /\ 1 <= d
    /\ segments_count_binary64 total_ms d
       = Ok (Qceiling (inject_Z total_ms / inject_Z d))
    /\ split_plan_binary64 budget (Finite bytes_per_ms) total_ms
       = Ok (plan_ranges d total_ms (Qceiling (inject_Z total_ms / inject_Z d))).
Proof.
  intros Ht Hbud Hb Hle Hrange x.
  destruct (segment_size_ms_binary64_bounds budget bytes_per_ms total_ms
              Ht Hbud Hb Hle Hrange) as (d & Hsize & Hd & Hbounds & Hd1).
  fold x in Hd, Hbounds.
  assert (Hcount : segments_count_binary64 total_ms d
                   = Ok (Qceiling (inject_Z total_ms / inject_Z d)))
    by (apply segments_count_binary64_exact; lia).
  exists d. repeat (split; [assumption|]).
  unfold split_plan_binary64. rewrite Hsize. cbn [rbind]. now rewrite Hcount.
Qed.

(** C3, as the code has it: the quotient of line 111 is a binary64 quotient.
    For a positive duration below [2^53] ms, a budget up to [2^53] bytes and
    a positive bytes-per-millisecond ratio that does not exceed the budget
    (and is not so small that the quotient leaves the range of binary64), the
    segment length is the floor of the rounded quotient clamped above by the
    total duration.  It is the length the specification words, or one
    millisecond more when the quotient rounds up to an integer; no lower clamp
    is applied, and under these hypotheses none is needed.  The segment count
    is the ceiling of duration over length, which rounding does not change. *)
Theorem segment_plan_formula (budget : Z) (bytes_per_ms : Q) (total_ms : Z) :
  0 < total_ms < 2 ^ PRECISION ->
  0 < budget <= 2 ^ PRECISION ->
  (0 < bytes_per_ms)%Q ->
  (bytes_per_ms <= inject_Z budget)%Q ->
  (inject_Z budget <= bytes_per_ms * 2 ^ (EMAX - 1))%Q ->
  exists d,
    segment_size_ms_binary64 budget (Finite bytes_per_ms) total_ms = Ok d
    /\ d = Z.min (Qfloor (round_positive (inject_Z budget / bytes_per_ms)))
                 total_ms
    /\ spec_segment_duration budget bytes_per_ms total_ms <= d
       <= Z.min (spec_segment_duration budget bytes_per_ms total_ms + 1) total_ms
    /\ segments_count_binary64 total_ms d = Ok (spec_segment_count total_ms d)
    /\ split_plan_binary64 budget (Finite bytes_per_ms) total_ms
       = Ok (plan_ranges d total_ms (spec_segment_count total_ms d)).
Proof.
  intros Ht Hbud Hb Hle Hrange.
  destruct (split_plan_binary64_eq budget bytes_per_ms total_ms
              Ht Hbud Hb Hle Hrange)
    as (d & Hsize & Hd & Hbounds & Hd1 & Hcount & Hplan).
  exists d. split; [exact Hsize|]. split; [exact Hd|].
  split; [unfold spec_segment_duration; lia|].
  split; [exact Hcount|exact Hplan].
Qed.

Lemma segment_plan_formula_witness :
  exists d,
    segment_size_ms_binary64 26214400 (Finite (5764607523034235 # 4398046511104))
      60000 = Ok d
    /\ d = Z.min (Qfloor (round_positive
                            (inject_Z 26214400 / (5764607523034235 # 4398046511104))))
                 60000
    /\ spec_segment_duration 26214400 (5764607523034235 # 4398046511104) 60000 <= d
       <= Z.min (spec_segment_duration 26214400
                   (5764607523034235 # 4398046511104) 60000 + 1) 60000
    /\ segments_count_binary64 60000 d = Ok (spec_segment_count 60000 d)
    /\ split_plan_binary64 26214400 (Finite (5764607523034235 # 4398046511104))
         60000
       = Ok (plan_ranges d 60000 (spec_segment_count 60000 d)).
Proof.
  apply (segment_plan_formula 26214400 (5764607523034235 # 4398046511104) 60000).
  - unfold PRECISION. lia.
  - unfold PRECISION. lia.
  - reflexivity.
  - unfold Qle. cbn. lia.
  - vm_compute. discriminate.
Defined.

(** C3 as stated fails: a 30,000,000-byte source lasting 1ms, under the
    default budget of 25MB, gets the segment length 0 where the specification
    clamps to 1, and the segment count is then a division by zero. *)
Lemma segment_size_no_lower_clamp :
  0 < 1
  /\ bytes_per_ms_binary64 30000000 1 = Ok (Finite (30000000 # 1))
  /\ segment_size_ms_binary64 (MAX_SEGMENT_SIZE_MB * BYTES_PER_MB)
       (Finite (30000000 # 1)) 1 = Ok 0
  /\ spec_segment_duration (MAX_SEGMENT_SIZE_MB * BYTES_PER_MB) (30000000 # 1) 1
     = 1
  /\ segments_count_binary64 1 0 = Raise ZeroDivisionError
  /\ file_plan_binary64 (MAX_SEGMENT_SIZE_MB * BYTES_PER_MB) 30000000 1
     = Raise ZeroDivisionError.
Proof. repeat split; vm_compute; reflexivity. Qed.

(** The quotient of line 111 is rounded: at 1310.72 bytes per millisecond,
    the binary64 number nearest to which is a little above, the exact
    quotient is a little below 20000 and its floor is 19999, while the
    rounded quotient is 20000. *)
Example segment_size_rounds_up :
  bytes_per_ms_binary64 131072 100 = Ok (Finite (5764607523034235 # 4398046511104))
  /\ segment_size_ms_binary64 26214400 (Finite (5764607523034235 # 4398046511104))
       60000 = Ok 20000
  /\ spec_segment_duration 26214400 (5764607523034235 # 4398046511104) 60000
     = 19999.
Proof. repeat split; vm_compute; reflexivity. Qed.

(** And down: a file of 50 MiB that lasts a minute is cut into three
    segments of 29999 ms, where exact arithmetic gives two of 30000 ms. *)
Example segment_size_rounds_down :
  file_plan_binary64 26214400 52428800 60000
  = Ok [ {| index := 0; start_ms := 0; end_ms := 29999 |};
         {| index := 1; start_ms := 29999; end_ms := 59998 |};
         {| index := 2; start_ms := 59998; end_ms := 60000 |} ]
  /\ Qfloor (inject_Z 26214400 / (inject_Z 52428800 / inject_Z 60000)) = 30000.
Proof. split; vm_compute; reflexivity. Qed.

(** The rounding above against the Standard Library's specification of IEEE
    754 arithmetic, on the quotients of these examples. *)
Example binary64_agrees_with_spec_float :
  int_truediv 131072 100
  = Ok (value_of_spec_float
          (spec_float_div (spec_float_of_int 131072) (spec_float_of_int 100)))
  /\ int_truediv 52428800 60000
     = Ok (value_of_spec_float
             (spec_float_div (spec_float_of_int 52428800) (spec_float_of_int 60000)))
  /\ rbind (int_truediv 52428800 60000) (float_truediv (Finite (inject_Z 26214400)))
     = Ok (value_of_spec_float
             (spec_float_div (spec_float_of_int 26214400)
                (spec_float_div (spec_float_of_int 52428800)
                                (spec_float_of_int 60000))))
  /\ int_truediv 1 3
     = Ok (value_of_spec_float
             (spec_float_div (spec_float_of_int 1) (spec_float_of_int 3)))
  /\ rbind (int_truediv 1 (10 ^ 300)) (fun x =>
     rbind (float_of_int (10 ^ 20)) (fun y => float_truediv x y))
     = Ok (value_of_spec_float
             (spec_float_div
                (spec_float_div (spec_float_of_int 1) (spec_float_of_int (10 ^ 300)))
                (spec_float_of_int (10 ^ 20)))).
Proof. repeat split; vm_compute; reflexivity. Qed.

(** Lines 110-114 in binary64: the purpose of the segment length.  No range
    of the plan outweighs the budget, at the rate given, by more than one
    millisecond of audio. *)
Theorem planned_segments_fit_budget (budget : Z) (bytes_per_ms : Q)
    (total_ms : Z) (specs : list SegmentSpec) (s : SegmentSpec) :
  0 < total_ms < 2 ^ PRECISION ->
  0 < budget <= 2 ^ PRECISION ->
  (0 < bytes_per_ms)%Q ->
  (bytes_per_ms <= inject_Z budget)%Q ->
  (inject_Z budget <= bytes_per_ms * 2 ^ (EMAX - 1))%Q ->
  split_plan_binary64 budget (Finite bytes_per_ms) total_ms = Ok specs ->
  In s specs ->
  (inject_Z (end_ms s - start_ms s) * bytes_per_ms
   <= inject_Z budget + bytes_per_ms)%Q.
Proof.
  intros Ht Hbud Hb Hle Hrange Hplan Hin.
  destruct (split_plan_binary64_eq budget bytes_per_ms total_ms
              Ht Hbud Hb Hle Hrange)
    as (d & _ & _ & Hbounds & Hd1 & _ & Hplan').
  rewrite Hplan' in Hplan. injection Hplan as <-.
  apply in_plan_ranges in Hin as [i [Hi ->]].
  cbn [segment_spec start_ms end_ms].
  set (x := (inject_Z budget / bytes_per_ms)%Q) in *.
  assert (Hlen : Z.min ((i + 1) * d) total_ms - i * d <= Qfloor x + 1) by lia.
  apply Qle_trans with (inject_Z (Qfloor x + 1) * bytes_per_ms)%Q.
  - apply Qmult_le_compat_r; [|now apply Qlt_le_weak].
    rewrite <- Zle_Qle. exact Hlen.
  - rewrite inject_Z_plus, Qmult_plus_distr_l, Qmult_1_l.
    apply Qplus_le_l.
    apply Qle_trans with (x * bytes_per_ms)%Q.
    + apply Qmult_le_compat_r; [apply Qfloor_le|now apply Qlt_le_weak].
    + unfold x. rewrite Qmult_comm, Qmult_div_r; [apply Qle_refl|].
      intros H. rewrite H in Hb. discriminate.
Qed.

Lemma planned_segments_fit_budget_witness :
  (inject_Z (end_ms {| index := 1; start_ms := 20000; end_ms := 40000 |}
             - start_ms {| index := 1; start_ms := 20000; end_ms := 40000 |})
   * (5764607523034235 # 4398046511104)
   <= inject_Z 26214400 + (5764607523034235 # 4398046511104))%Q.
Proof.
  apply (planned_segments_fit_budget 26214400 (5764607523034235 # 4398046511104)
           60000 (plan_ranges 20000 60000 3)).
  - unfold PRECISION. lia.
  - unfold PRECISION. lia.
  - reflexivity.
  - unfold Qle. cbn. lia.
  - vm_compute. discriminate.
  - vm_compute. reflexivity.
  - simpl. tauto.
Defined.

(** The margin is used: in the plan of the witness, a range of 20000 ms
    outweighs the budget. *)
Example planned_segment_over_budget :
  (inject_Z 26214400 < inject_Z 20000 * (5764607523034235 # 4398046511104))%Q.
Proof. reflexivity. Qed.

(** ** The plan of a file in binary64 *)

(** Line 110 in binary64: the ratio of a file that holds something to a
    duration below [2^53] ms is a positive number, at or below every integer
    above the exact ratio. *)
Lemma bytes_per_ms_binary64_bounds (budget file_size total_ms : Z) :
  0 < total_ms < 2 ^ PRECISION ->
  0 < budget < 2 ^ PRECISION ->
  0 < file_size <= budget * total_ms ->
  exists bytes_per_ms,
    bytes_per_ms_binary64 file_size total_ms = Ok (Finite bytes_per_ms)
    /\ (2 ^ (- PRECISION) <= bytes_per_ms)%Q
    /\ (bytes_per_ms <= inject_Z budget)%Q.
Proof.
  intros Ht Hbud Hsize.
  set (x := (inject_Z file_size / inject_Z total_ms)%Q).
  assert (Ht' : (0 < inject_Z total_ms)%Q) by (apply inject_Z_pos; lia).
  assert (Hx : (0 < x)%Q).
  { apply Qlt_shift_div_l; [exact Ht'|]. rewrite Qmult_0_l.
    apply inject_Z_pos. lia. }
  assert (Hxb : (x <= inject_Z budget)%Q).
  { apply Qle_shift_div_r; [exact Ht'|].
    rewrite <- inject_Z_mult, <- Zle_Qle. lia. }
  assert (Hlow : (inject_Z 1 * 2 ^ (- PRECISION) <= x)%Q).
  { rewrite Qmult_1_l, Qpower_opp.
    apply Qle_shift_div_l; [exact Ht'|].
    apply Qle_trans with (/ 2 ^ PRECISION * 2 ^ PRECISION)%Q.
    - apply Qmult_le_l; [apply Qinv_lt_0_compat, pow2_pos|].
      rewrite <- pow2_inject by (unfold PRECISION; lia).
      rewrite <- Zle_Qle. lia.
    - rewrite Qmult_comm, Qmult_inv_r.
      + change 1%Q with (inject_Z 1). rewrite <- Zle_Qle. lia.
      + intros E. pose proof (pow2_pos PRECISION) as Hp. rewrite E in Hp.
        discriminate. }
  exists (round_positive x).
  unfold bytes_per_ms_binary64, int_truediv.
  destruct (Z.eqb_spec total_ms 0) as [->|_]; [lia|].
  fold x. rewrite binary64_in_range;
    [|exact Hx|eapply Qle_trans; [exact Hxb|apply int_below_emax; lia]].
  split; [reflexivity|]. split.
  - rewrite <- (Qmult_1_l (2 ^ _)). change 1%Q with (inject_Z 1) at 1.
    apply round_positive_ge.
    + exact Hx.
    + unfold PRECISION. lia.
    + unfold EMIN, PRECISION. lia.
    + exact Hlow.
  - rewrite <- (Qmult_1_r (inject_Z budget)). change 1%Q with (2 ^ 0)%Q.
    apply round_positive_le.
    + exact Hx.
    + unfold EMIN. lia.
    + rewrite Z.add_0_r. eapply Qle_lt_trans; [exact Hxb|].
      rewrite <- pow2_inject by (unfold PRECISION; lia).
      rewrite <- Zlt_Qlt. lia.
    + change (2 ^ 0)%Q with 1%Q. now rewrite Qmult_1_r.
Qed.

(** Lines 110-124 in binary64, as CPython computes them: for a file that
    holds something, lasts less than [2^53] ms and whose bytes per
    millisecond do not exceed the budget, the plan exists whatever the
    roundings of lines 110 and 111, its segment length is at least 1 ms, and
    its ranges are ordered by index, non-empty, contiguous, disjoint, and
    cover the source. *)
Theorem binary64_plan_partition (budget file_size total_ms : Z) :
  0 < total_ms < 2 ^ PRECISION ->
  0 < budget < 2 ^ PRECISION ->
  0 < file_size <= budget * total_ms ->
  exists bytes_per_ms d specs,
    bytes_per_ms_binary64 file_size total_ms = Ok (Finite bytes_per_ms)
    /\ segment_size_ms_binary64 budget (Finite bytes_per_ms) total_ms = Ok d
    /\ 1 <= d <= total_ms
    /\ file_plan_binary64 budget file_size total_ms = Ok specs
    /\ specs = plan_ranges d total_ms (Qceiling (inject_Z total_ms / inject_Z d))
    /\ plan_ok total_ms specs.
Proof.
  intros Ht Hbud Hsize.
  destruct (bytes_per_ms_binary64_bounds budget file_size total_ms Ht Hbud Hsize)
    as (bpm & Hbpm & Hlow & Hhigh).
  assert (Hpos : (0 < bpm)%Q).
  { eapply Qlt_le_trans; [apply (pow2_pos (- PRECISION))|exact Hlow]. }
  assert (Hrange : (inject_Z budget <= bpm * 2 ^ (EMAX - 1))%Q).
  { apply Qle_trans with (2 ^ (- PRECISION) * 2 ^ (EMAX - 1))%Q.
    - rewrite <- pow2_add.
      apply Qle_trans with (inject_Z (2 ^ PRECISION)).
      + rewrite <- Zle_Qle. lia.
      + rewrite pow2_inject by (unfold PRECISION; lia).
        apply pow2_le. unfold PRECISION, EMAX. lia.
    - apply Qmult_le_compat_r; [exact Hlow|apply Qlt_le_weak, pow2_pos]. }
  destruct (split_plan_binary64_eq budget bpm total_ms Ht ltac:(lia) Hpos Hhigh
              Hrange)
    as (d & Hd & _ & Hbounds & Hd1 & _ & Hplan).
  exists bpm, d. eexists. split; [exact Hbpm|]. split; [exact Hd|].
  split; [lia|]. split.
  - unfold file_plan_binary64. rewrite Hbpm. cbn [rbind]. exact Hplan.
  - split; [reflexivity|].
    apply plan_ranges_ok; [lia|apply Qceiling_div_bounds; lia].
Qed.

Lemma binary64_plan_partition_witness :
  exists bytes_per_ms d specs,
    bytes_per_ms_binary64 52428800 60000 = Ok (Finite bytes_per_ms)
    /\ segment_size_ms_binary64 26214400 (Finite bytes_per_ms) 60000 = Ok d
    /\ 1 <= d <= 60000
    /\ file_plan_binary64 26214400 52428800 60000 = Ok specs
    /\ specs = plan_ranges d 60000 (Qceiling (inject_Z 60000 / inject_Z d))
    /\ plan_ok 60000 specs.
Proof.
  apply (binary64_plan_partition 26214400 52428800 60000).
  - unfold PRECISION. lia.
  - unfold PRECISION. lia.
  - lia.
Defined.

(** Lines 120 and 248: below [2^53] ms the rounding of the quotient does not
    change the number of segments: [math.ceil] of the binary64 quotient is
    the ceiling of the exact one, the least count whose segments cover the
    source. *)
Theorem rounding_keeps_segment_count (duration_ms size_ms : Z) :
  0 < duration_ms < 2 ^ PRECISION ->
  1 <= size_ms < 2 ^ PRECISION ->
  exists count,
    segments_count_binary64 duration_ms size_ms = Ok count
    /\ segments_count duration_ms size_ms = Ok count
    /\ (count - 1) * size_ms < duration_ms <= count * size_ms.
Proof.
  intros Hd Hs. eexists.
  split; [now apply segments_count_binary64_exact|].
  split; [apply segments_count_ok; lia|].
  apply Qceiling_div_bounds. lia.
Qed.

Lemma rounding_keeps_segment_count_witness :
  exists count,
    segments_count_binary64 400000 segment_length_ms = Ok count
    /\ segments_count 400000 segment_length_ms = Ok count
    /\ (count - 1) * segment_length_ms < 400000 <= count * segment_length_ms.
Proof.
  apply (rounding_keeps_segment_count 400000 segment_length_ms).
  - unfold PRECISION. lia.
  - unfold PRECISION, segment_length_ms. lia.
Defined.
